(** * BarsNLP [ner] package: entity recognition and overlap resolution

    A shallow embedding of [ner/patterns.go].  Go strings are byte
    sequences; offsets are byte offsets.  The three library services the
    file relies on are modelled in modules of their own:

    - [GoStrings]: string slicing and [strings.TrimRight];
    - [GoRegexp]: the pattern language and the leftmost-first matcher of
      package [regexp], with [FindAllStringIndex] and
      [FindAllStringSubmatchIndex];
    - [GoSort]: [sort.Slice], as an interface carrying its contract (the
      result is a permutation in which no later element is less than an
      earlier one); the insertion sort is one instance.

    Module [Ner] then follows [patterns.go] function by function, and
    module [NerSpec] holds the properties the specification states.  The
    theorems come after the definitions: facts about the library models,
    about the resolver and about each matcher, then the claims.  The
    claims about [recognize] and [resolveOverlaps] hold for every sort
    that meets the contract of [sort.Slice]. *)

From Stdlib Require Import Ascii String.
From Stdlib Require Import List Bool Arith ZArith Lia.
From Stdlib Require Import Permutation Sorted.
Import ListNotations.

Set Implicit Arguments.
Local Open Scope char_scope.
Local Open Scope list_scope.

(** A Go [byte]; a Go [string] is a sequence of them. *)
Abbreviation byte := ascii (only parsing).
Abbreviation bytes := (list ascii) (only parsing).

Definition B (s : string) : bytes := list_ascii_of_string s.
Arguments B s%_string.

(* ================================================================== *)
(** * Package [strings] and slice expressions *)
(* ================================================================== *)
Module GoStrings.

(** [s[a:b]] for [0 <= a <= b <= len(s)].  Outside that range Go panics;
    every slice expression of [patterns.go] is shown in range below
    (theorems on [recognize]), so the total function is the slice. *)
Definition slice (s : bytes) (a b : Z) : bytes :=
  firstn (Z.to_nat (b - a)) (skipn (Z.to_nat a) s).

Definition len (s : bytes) : Z := Z.of_nat (length s).

Definition contains (cutset : bytes) (c : byte) : bool :=
  existsb (Ascii.eqb c) cutset.

(** [strings.TrimRight] for an ASCII cutset: bytes are dropped from the
    right end while they belong to the cutset. *)
Fixpoint trimRight_rev (cutset : bytes) (r : bytes) : bytes :=
  match r with
  | c :: t => if contains cutset c then trimRight_rev cutset t else r
  | [] => []
  end.

Definition TrimRight (s cutset : bytes) : bytes :=
  rev (trimRight_rev cutset (rev s)).

End GoStrings.

(* ================================================================== *)
(** * Package [regexp] *)
(* ================================================================== *)
Module GoRegexp.

(** ** Byte classes

    Go's [\d], [\s], [\w] and [\b] are ASCII-only. *)
Definition code (c : byte) : nat := nat_of_ascii c.

Definition between (lo hi c : byte) : bool :=
  ((code lo <=? code c)%nat && (code c <=? code hi)%nat)%bool.

Definition is_digit (c : byte) : bool := between "0" "9" c.
Definition is_upper (c : byte) : bool := between "A" "Z" c.
Definition is_lower (c : byte) : bool := between "a" "z" c.

(** [\s] is [[\t\n\f\r ]]. *)
Definition is_space (c : byte) : bool :=
  Ascii.eqb c "009" || Ascii.eqb c "010" || Ascii.eqb c "012"
  || Ascii.eqb c "013" || Ascii.eqb c " ".

(** [syntax.IsWordChar]: [[A-Za-z0-9_]]. *)
Definition isWordChar (c : byte) : bool :=
  is_upper c || is_lower c || is_digit c || Ascii.eqb c "_".

Definition byte_is (x : byte) (c : byte) : bool := Ascii.eqb c x.

(** ** Patterns

    The matcher works on the UTF-8 bytes of the text.  A rune class that
    contains only ASCII runes is a byte class [Cls]; a non-ASCII rune of
    a pattern is the literal sequence of its UTF-8 bytes; a negated class
    that excludes only ASCII runes accepts every byte of a non-ASCII rune
    (and every stray byte, which Go decodes as U+FFFD), so it is a byte
    class too.  Every pattern of [patterns.go] starts with an ASCII byte,
    and an ASCII byte is never inside a multi-byte rune, so matches start
    and end on rune boundaries. *)
Inductive re : Type :=
| Eps : re
| Cls : (byte -> bool) -> re          (* one byte of a class *)
| Cat : re -> re -> re                (* r1 r2 *)
| Alt : re -> re -> re                (* r1|r2, r1 preferred *)
| Star : (byte -> bool) -> re         (* [class]*, greedy *)
| WordB : re                          (* \b *)
| Grp : nat -> re -> re.              (* capture group number n *)

(** [r?], greedy. *)
Definition Opt (r : re) : re := Alt r Eps.
(** [[class]+], greedy. *)
Definition Plus (p : byte -> bool) : re := Cat (Cls p) (Star p).
(** [r{n}]. *)
Fixpoint Rep (n : nat) (r : re) : re :=
  match n with
  | O => Eps
  | S n' => Cat r (Rep n' r)
  end.
(** A literal byte string. *)
Fixpoint Lit (bs : bytes) : re :=
  match bs with
  | [] => Eps
  | c :: t => Cat (Cls (byte_is c)) (Lit t)
  end.
(** An ASCII letter under [(?i)]: either case. *)
Definition CI (up lo : byte) : re := Cls (fun c => byte_is up c || byte_is lo c).

Fixpoint num_groups (r : re) : nat :=
  match r with
  | Cat a b | Alt a b => Nat.max (num_groups a) (num_groups b)
  | Grp n a => Nat.max n (num_groups a)
  | _ => 0
  end.

(** ** Matcher state: the unread bytes, the offset reached, the byte
    just before it (for [\b]) and the capture groups set so far. *)
Record mstate : Type := MState {
  rest : bytes;
  pos : nat;
  prev : option byte;
  caps : list (nat * (nat * nat))
}.

Definition word_opt (o : option byte) : bool :=
  match o with
  | Some c => isWordChar c
  | None => false
  end.

(** [\b] holds where exactly one of the two neighbours is a word byte. *)
Definition at_word_boundary (st : mstate) : bool :=
  xorb (word_opt (prev st)) (word_opt (hd_error (rest st))).

Definition set_cap (n a b : nat) (st : mstate) : mstate :=
  MState (rest st) (pos st) (prev st) ((n, (a, b)) :: caps st).

Fixpoint get_cap (n : nat) (cs : list (nat * (nat * nat))) : option (nat * nat) :=
  match cs with
  | [] => None
  | (m, ab) :: t => if Nat.eqb m n then Some ab else get_cap n t
  end.

(** ** Leftmost-first matching

    Package [regexp] returns, among the matches that start at the
    leftmost possible offset, the one a backtracking search finds first.
    [run r k st] is that search in continuation-passing style: it tries
    the ways [r] can match from [st] in priority order and returns the
    first for which the continuation [k] succeeds. *)
Fixpoint star (p : byte -> bool) (k : mstate -> option mstate)
         (l : bytes) (i : nat) (pv : option byte)
         (cs : list (nat * (nat * nat))) : option mstate :=
  match l with
  | c :: t =>
      if p c then
        match star p k t (S i) (Some c) cs with
        | Some r => Some r
        | None => k (MState l i pv cs)
        end
      else k (MState l i pv cs)
  | [] => k (MState l i pv cs)
  end.

Fixpoint run (r : re) (k : mstate -> option mstate) (st : mstate)
  : option mstate :=
  match r with
  | Eps => k st
  | Cls p =>
      match rest st with
      | c :: t =>
          if p c then k (MState t (S (pos st)) (Some c) (caps st)) else None
      | [] => None
      end
  | Cat a b => run a (run b k) st
  | Alt a b =>
      match run a k st with
      | Some x => Some x
      | None => run b k st
      end
  | Star p => star p k (rest st) (pos st) (prev st) (caps st)
  | WordB => if at_word_boundary st then k st else None
  | Grp n a => run a (fun st' => k (set_cap n (pos st) (pos st') st')) st
  end.

(** The match of [r] that starts exactly at [st], if any. *)
Definition exec (r : re) (st : mstate) : option mstate := run r Some st.

(** ** Successive matches ([Regexp.allMatches])

    The text is scanned left to right.  At an offset not covered by the
    previous match, the match starting there (if any) is delivered and the
    scan resumes at its end; otherwise the scan moves on by one.  An empty
    match is not delivered when it abuts the previous match.  [skip] counts
    the offsets still covered by the previous match and [pe] is where the
    previous match ended. *)
Definition abuts (pe : option nat) (i : nat) : bool :=
  match pe with
  | Some e => Nat.eqb e i
  | None => false
  end.

Fixpoint scan (r : re) (l : bytes) (i : nat) (pv : option byte)
         (skip : nat) (pe : option nat) : list (nat * mstate) :=
  match skip with
  | S k =>
      match l with
      | [] => []
      | c :: t => scan r t (S i) (Some c) k pe
      end
  | O =>
      match exec r (MState l i pv []) with
      | Some st' =>
          let e := pos st' in
          (if Nat.eqb e i && abuts pe i then [] else [(i, st')])
          ++ match l with
             | [] => []
             | c :: t => scan r t (S i) (Some c) (e - i - 1) (Some e)
             end
      | None =>
          match l with
          | [] => []
          | c :: t => scan r t (S i) (Some c) 0 pe
          end
      end
  end.

Definition allMatches (r : re) (s : bytes) : list (nat * mstate) :=
  scan r s 0 None 0 None.

(** [FindAllStringIndex(s, -1)]: the pairs [[start, end]]. *)
Definition FindAllStringIndex (r : re) (s : bytes) : list (Z * Z) :=
  map (fun m => (Z.of_nat (fst m), Z.of_nat (pos (snd m)))) (allMatches r s).

(** One row of [FindAllStringSubmatchIndex]: [[start, end]] of the match,
    then of each group, [-1] for a group that did not take part. *)
Definition group_index (cs : list (nat * (nat * nat))) (n : nat) : list Z :=
  match get_cap n cs with
  | Some (a, b) => [Z.of_nat a; Z.of_nat b]
  | None => [(-1)%Z; (-1)%Z]
  end.

Definition submatch_row (r : re) (m : nat * mstate) : list Z :=
  Z.of_nat (fst m) :: Z.of_nat (pos (snd m))
  :: flat_map (group_index (caps (snd m))) (seq 1 (num_groups r)).

Definition FindAllStringSubmatchIndex (r : re) (s : bytes) : list (list Z) :=
  map (submatch_row r) (allMatches r s).

(** ** What a pattern denotes

    [matches r st st'] says that [r] can take the matcher from [st] to
    [st'], whatever the priorities.  The search [run] is related to it in
    the theorems below: every result of [run] is a match, and [run] finds
    a result whenever a match exists. *)

(** The byte before the offset reached after reading [w]. *)
Definition last_opt (pv : option byte) (w : bytes) : option byte :=
  fold_left (fun _ c => Some c) w pv.

Fixpoint matches (r : re) (st st' : mstate) : Prop :=
  match r with
  | Eps => st' = st
  | Cls p =>
      exists c t, rest st = c :: t /\ p c = true /\
                  st' = MState t (S (pos st)) (Some c) (caps st)
  | Cat a b => exists st1, matches a st st1 /\ matches b st1 st'
  | Alt a b => matches a st st' \/ matches b st st'
  | Star p =>
      exists w t, rest st = w ++ t /\ forallb p w = true /\
                  st' = MState t (pos st + length w) (last_opt (prev st) w)
                               (caps st)
  | WordB => at_word_boundary st = true /\ st' = st
  | Grp n a =>
      exists st1, matches a st st1 /\ st' = set_cap n (pos st) (pos st1) st1
  end.

(** The least number of bytes a match of [r] reads. *)
Fixpoint min_len (r : re) : nat :=
  match r with
  | Cls _ => 1
  | Cat a b => min_len a + min_len b
  | Alt a b => Nat.min (min_len a) (min_len b)
  | Grp _ a => min_len a
  | _ => 0
  end.

(** The matcher state at the offset that splits the text into [pre] and
    [post]. *)
Definition st_at (pre post : bytes) : mstate :=
  MState post (length pre) (last_opt None pre) [].

End GoRegexp.

(* ================================================================== *)
(** * Package [sort] *)
(* ================================================================== *)
Module GoSort.

(** What [sort.Slice] asks of [less]: a strict weak ordering. *)
Record strict_weak (A : Type) (less : A -> A -> bool) : Prop := {
  sw_asym : forall a b, less a b = true -> less b a = false;
  sw_negtrans : forall a b c,
      less a b = false -> less b c = false -> less a c = false
}.

(** The slice is in order when no element is less than an earlier one. *)
Definition in_order (A : Type) (less : A -> A -> bool) (l : list A) : Prop :=
  StronglySorted (fun a b => less b a = false) l.

(** [sort.Slice]: which of the orderings that satisfy the contract is
    returned is left open (the sort is not stable). *)
Class Sorter : Type := {
  Slice : forall A : Type, (A -> A -> bool) -> list A -> list A;
  Slice_perm : forall A (less : A -> A -> bool) l,
      Permutation l (Slice less l);
  Slice_in_order : forall A (less : A -> A -> bool) l,
      strict_weak less -> in_order less (Slice less l)
}.

(** [insertionSortLessFunc], the routine [sort.Slice] runs on slices of
    at most 12 elements: each element moves left past the elements it is
    less than. *)
Fixpoint insert_left (A : Type) (less : A -> A -> bool) (x : A) (rsorted : list A)
  : list A :=
  match rsorted with
  | [] => [x]
  | y :: t => if less x y then y :: insert_left less x t else x :: rsorted
  end.

(** [acc] is the sorted prefix, last element first. *)
Fixpoint insertion_loop (A : Type) (less : A -> A -> bool) (acc l : list A)
  : list A :=
  match l with
  | [] => rev acc
  | x :: t => insertion_loop less (insert_left less x acc) t
  end.

Definition insertionSort (A : Type) (less : A -> A -> bool) (l : list A) : list A :=
  insertion_loop less [] l.

(** The sorted prefix of the insertion sort, read from its last element:
    no element is less than one that comes after it in this reading. *)
Definition rev_order (A : Type) (less : A -> A -> bool) (l : list A) : Prop :=
  StronglySorted (fun a b => less a b = false) l.

End GoSort.

(* ================================================================== *)
(** * Package [ner] *)
(* ================================================================== *)
Module Ner.
Import GoStrings GoRegexp GoSort.
Local Open Scope Z_scope.

(** Modelled from the spec: the declarations of [Entity] and
    [EntityType] (file [ner.go]); [patterns.go] fixes the field names and
    that [Start] and [End] are Go [int]s. *)
Inductive EntityType : Type :=
| Phone | Email | URL | IBAN | LicensePlate | FIN | VOEN.

Record Entity : Type := mkEntity {
  Text : bytes;
  Start : Z;
  End : Z;
  Type_ : EntityType;
  Labeled : bool
}.

(** Go's [int] is 64 bits wide here; a difference wraps around. *)
Definition int_min : Z := - 2 ^ 63.
Definition int_max : Z := 2 ^ 63 - 1.
Definition wrap (z : Z) : Z := (z + 2 ^ 63) mod 2 ^ 64 - 2 ^ 63.
Definition int_sub (a b : Z) : Z := wrap (a - b).

(** ** The compiled patterns *)
Infix ";;" := Cat (at level 61, right associativity).

Definition digit : re := Cls is_digit.
Definition space : re := Cls is_space.
Definition one_of (set : bytes) (c : byte) : bool := contains set c.

(** [\+994\s?(\d{2})\s?(\d{3})\s?(\d{2})\s?(\d{2})] *)
Definition rePhoneIntl : re :=
  Lit (B "+994") ;; Opt space ;; Grp 1 (Rep 2 digit) ;; Opt space ;;
  Grp 2 (Rep 3 digit) ;; Opt space ;; Grp 3 (Rep 2 digit) ;; Opt space ;;
  Grp 4 (Rep 2 digit).

(** [\b0(\d{2})\s?(\d{3})\s?(\d{2})\s?(\d{2})\b] *)
Definition rePhoneLocal : re :=
  WordB ;; Lit (B "0") ;; Grp 1 (Rep 2 digit) ;; Opt space ;;
  Grp 2 (Rep 3 digit) ;; Opt space ;; Grp 3 (Rep 2 digit) ;; Opt space ;;
  Grp 4 (Rep 2 digit) ;; WordB.

Definition is_alnum (c : byte) : bool :=
  (is_lower c || is_upper c || is_digit c)%bool.
Definition is_alpha (c : byte) : bool := (is_lower c || is_upper c)%bool.
Definition email_local (c : byte) : bool :=
  (is_alnum c || one_of (B "._%+-") c)%bool.
Definition email_domain (c : byte) : bool :=
  (is_alnum c || one_of (B ".-") c)%bool.

(** [[a-zA-Z0-9._%+\-]+@[a-zA-Z0-9.\-]+\.[a-zA-Z]{2,}] *)
Definition reEmail : re :=
  Plus email_local ;; Lit (B "@") ;; Plus email_domain ;; Lit (B ".") ;;
  Cls is_alpha ;; Cls is_alpha ;; Star is_alpha.

(** The bytes the URL class excludes: [\s], then
    [<], [>], the double quote, [{], [}], [|], the backslash, [^], the
    backquote and the space. *)
Definition url_excluded (c : byte) : bool :=
  (is_space c
   || one_of ["<"; ">"; "034"; "{"; "}"; "|"; "092"; "^"; "`"; " "] c)%bool.
Definition url_char (c : byte) : bool := negb (url_excluded c).

(** [https?://[^...]+], the class excluding the bytes above *)
Definition reURL : re :=
  Lit (B "http") ;; Opt (Lit (B "s")) ;; Lit (B "://") ;; Plus url_char.

(** [\bAZ\d{2}[A-Z]{4}[A-Z0-9]{20}\b] *)
Definition reIBAN : re :=
  WordB ;; Lit (B "AZ") ;; Rep 2 digit ;; Rep 4 (Cls is_upper) ;;
  Rep 20 (Cls (fun c => is_upper c || is_digit c)%bool) ;; WordB.

(** [\b\d{2}-[A-Z]{2}-\d{3}\b] *)
Definition reLicensePlate : re :=
  WordB ;; Rep 2 digit ;; Lit (B "-") ;; Rep 2 (Cls is_upper) ;;
  Lit (B "-") ;; Rep 3 digit ;; WordB.

(** [[A-HJ-NP-Z0-9]] *)
Definition fin_class (c : byte) : bool :=
  (between "A" "H" c || between "J" "N" c || between "P" "Z" c
   || is_digit c)%bool.

(** [[A-HJ-NP-Z0-9]] under [(?i)]: the class is closed under simple case
    folding, which adds the lower-case letters and the two non-ASCII
    runes that fold to [K] and [S]: U+212A (KELVIN SIGN, bytes E2 84 AA)
    and U+017F (LATIN SMALL LETTER LONG S, bytes C5 BF). *)
Definition fin_class_ci (c : byte) : bool :=
  (fin_class c || between "a" "h" c || between "j" "n" c
   || between "p" "z" c)%bool.
Definition kelvin_sign : bytes := ["226"; "132"; "170"].
Definition long_s : bytes := ["197"; "191"].
Definition fin_char_ci : re :=
  Alt (Cls fin_class_ci) (Alt (Lit long_s) (Lit kelvin_sign)).

(** [[:\s]] *)
Definition colon_or_space (c : byte) : bool := (byte_is ":" c || is_space c)%bool.

(** [(?i)\bFIN[:\s]\s?([A-HJ-NP-Z0-9]{7})\b] *)
Definition reFINLabeled : re :=
  WordB ;; CI "F" "f" ;; CI "I" "i" ;; CI "N" "n" ;; Cls colon_or_space ;;
  Opt space ;; Grp 1 (Rep 7 fin_char_ci) ;; WordB.

(** [\b[A-HJ-NP-Z0-9]{7}\b] *)
Definition reFINBare : re := WordB ;; Rep 7 (Cls fin_class) ;; WordB.

(** [[ÖO]] under [(?i)]: O, o, Ö (U+00D6, bytes C3 96), ö (U+00F6,
    bytes C3 B6). *)
Definition o_umlaut_upper : bytes := ["195"; "150"].
Definition o_umlaut_lower : bytes := ["195"; "182"].
Definition voen_o_ci : re :=
  Alt (CI "O" "o") (Alt (Lit o_umlaut_upper) (Lit o_umlaut_lower)).

(** [(?i)\bV[ÖO]EN[:\s]\s?(\d{10})\b] *)
Definition reVOENLabeled : re :=
  WordB ;; CI "V" "v" ;; voen_o_ci ;; CI "E" "e" ;; CI "N" "n" ;;
  Cls colon_or_space ;; Opt space ;; Grp 1 (Rep 10 digit) ;; WordB.

(** [\b\d{10}\b] *)
Definition reVOENBare : re := WordB ;; Rep 10 digit ;; WordB.

(** ** The matchers *)

(** An unlabeled entity over the whole match [m]. *)
Definition whole (s : bytes) (ty : EntityType) (m : Z * Z) : Entity :=
  {| Text := slice s (fst m) (snd m);
     Start := fst m;
     End := snd m;
     Type_ := ty;
     Labeled := false |}.

(** [sub[i]]. *)
Definition idx (sub : list Z) (i : nat) : Z := nth i sub (-1).

(** A labeled entity over capture group 1, [sub[2]:sub[3]]. *)
Definition captured (s : bytes) (ty : EntityType) (sub : list Z) : Entity :=
  {| Text := slice s (idx sub 2) (idx sub 3);
     Start := idx sub 2;
     End := idx sub 3;
     Type_ := ty;
     Labeled := true |}.

Definition matchPhone (s : bytes) : list Entity :=
  map (whole s Phone) (FindAllStringIndex rePhoneIntl s)
  ++ map (whole s Phone) (FindAllStringIndex rePhoneLocal s).

Definition matchEmail (s : bytes) : list Entity :=
  map (whole s Email) (FindAllStringIndex reEmail s).

Definition url_cutset : bytes := B ".,;:!?)]}>".

Definition url_entity (s : bytes) (m : Z * Z) : Entity :=
  let text := slice s (fst m) (snd m) in
  let text := TrimRight text url_cutset in
  let end_ := fst m + len text in
  {| Text := text; Start := fst m; End := end_; Type_ := URL;
     Labeled := false |}.

Definition matchURL (s : bytes) : list Entity :=
  map (url_entity s) (FindAllStringIndex reURL s).

Definition matchIBAN (s : bytes) : list Entity :=
  map (whole s IBAN) (FindAllStringIndex reIBAN s).

Definition matchLicensePlate (s : bytes) : list Entity :=
  map (whole s LicensePlate) (FindAllStringIndex reLicensePlate s).

Definition matchFIN (s : bytes) : list Entity :=
  map (captured s FIN) (FindAllStringSubmatchIndex reFINLabeled s)
  ++ map (whole s FIN) (FindAllStringIndex reFINBare s).

Definition matchVOEN (s : bytes) : list Entity :=
  map (captured s VOEN) (FindAllStringSubmatchIndex reVOENLabeled s)
  ++ map (whole s VOEN) (FindAllStringIndex reVOENBare s).

(** The slice [all] of [recognize] before resolution. *)
Definition candidates (s : bytes) : list Entity :=
  matchURL s ++ matchEmail s ++ matchIBAN s ++ matchLicensePlate s
  ++ matchPhone s ++ matchFIN s ++ matchVOEN s.

(** ** Overlap resolution *)

(** The [less] of [resolveOverlaps]: start offset, then length
    descending, then labeled first. *)
Definition resolveLess (a b : Entity) : bool :=
  if negb (Start a =? Start b) then Start a <? Start b
  else
    let li := int_sub (End a) (Start a) in
    let lj := int_sub (End b) (Start b) in
    if negb (li =? lj) then li >? lj
    else if negb (Bool.eqb (Labeled a) (Labeled b)) then Labeled a
    else false.

(** One iteration of the loop over the sorted slice; the state is
    [(result, maxEnd)]. *)
Definition sweep_step (st : list Entity * Z) (e : Entity) : list Entity * Z :=
  let '(result, maxEnd) := st in
  if Start e >=? maxEnd then (result ++ [e], End e)
  else if End e >? maxEnd then (result, maxEnd)
  else (result, maxEnd).

Definition sweep (entities : list Entity) : list Entity * Z :=
  fold_left sweep_step entities ([], 0).

(** The [less] of the final sort in [recognize]. *)
Definition startLess (a b : Entity) : bool := Start a <? Start b.

Section WithSorter.
Context {sorter : Sorter}.

Definition resolveOverlaps (entities : list Entity) : list Entity :=
  if (length entities <=? 1)%nat then entities
  else
    let entities := Slice resolveLess entities in
    fst (sweep entities).

Definition recognize (s : bytes) : list Entity :=
  let all := candidates s in
  if (length all =? 0)%nat then []
  else
    let all := resolveOverlaps all in
    Slice startLess all.

End WithSorter.

End Ner.


(* ================================================================== *)
(** * The properties the specification states *)
(* ================================================================== *)
Module NerSpec.
Import GoStrings GoRegexp GoSort Ner.
Local Open Scope Z_scope.

(** The data-model invariant of an entity of the text [s]. *)
Definition faithful (s : bytes) (e : Entity) : Prop :=
  0 <= Start e /\ Start e < End e /\ End e <= len s /\
  Text e = slice s (Start e) (End e).

(** Offsets that are non-negative Go [int]s, in order. *)
Definition in_range (e : Entity) : Prop :=
  0 <= Start e /\ Start e <= End e /\ End e <= int_max.

(** Two ranges [[start,end)] intersect when an offset lies in both. *)
Definition intersects (a b : Entity) : Prop :=
  exists x, (Start a <= x /\ x < End a) /\ (Start b <= x /\ x < End b).

Definition pairwise_disjoint (l : list Entity) : Prop :=
  forall i j a b, i <> j -> nth_error l i = Some a -> nth_error l j = Some b ->
                  ~ intersects a b.

Definition sorted_by_start (l : list Entity) : Prop :=
  forall i j a b, (i < j)%nat -> nth_error l i = Some a ->
                  nth_error l j = Some b -> Start a <= Start b.

Definition span (e : Entity) : Z := End e - Start e.

(** The composite ordering of the resolver, in the words of the
    specification: [a] may stand before [b] when it starts earlier, or at
    the same offset and is longer, or at the same offset with the same
    length and [b] is labeled only if [a] is. *)
Definition composite_le (a b : Entity) : Prop :=
  Start a < Start b \/
  (Start a = Start b /\
   (span b < span a \/
    (span a = span b /\ (Labeled b = true -> Labeled a = true)))).

(** The sweep, in the words of the specification: a candidate is
    committed exactly when its start is at least [maxEnd], which then
    becomes its end; any other candidate is dropped and leaves [maxEnd]
    and the committed entities as they are. *)
Fixpoint spec_sweep (maxEnd : Z) (l : list Entity) : list Entity :=
  match l with
  | [] => []
  | c :: t =>
      if Z_ge_dec (Start c) maxEnd
      then c :: spec_sweep (End c) t
      else spec_sweep maxEnd t
  end.

(** [maxEnd] after the sweep has gone through [l]: the end of the last
    committed entity, or the initial value when none was committed. *)
Definition max_end (maxEnd : Z) (l : list Entity) : Z :=
  match rev (spec_sweep maxEnd l) with
  | e :: _ => End e
  | [] => maxEnd
  end.

Definition same_type (a b : EntityType) : bool :=
  match a, b with
  | Phone, Phone | Email, Email | URL, URL | IBAN, IBAN
  | LicensePlate, LicensePlate | FIN, FIN | VOEN, VOEN => true
  | _, _ => false
  end.

(** How many entities of a type a result holds. *)
Definition count_type (ty : EntityType) (l : list Entity) : nat :=
  length (filter (fun e => same_type (Type_ e) ty) l).

(** The texts of the entities of one type, in result order (what the
    convenience accessors [Phones], [Emails], ... return). *)
Definition texts_of (ty : EntityType) (l : list Entity) : list bytes :=
  map Text (filter (fun e => same_type (Type_ e) ty) l).

(** ** URL entities *)

(** A text that is [http://] or [https://] followed by one or more bytes
    of the class [ok]. *)
Definition url_match (ok : byte -> bool) (w : bytes) : Prop :=
  exists scheme body,
    (scheme = B "http" \/ scheme = B "https") /\ body <> [] /\
    forallb ok body = true /\ w = scheme ++ B "://" ++ body.

Definition ends_outside (cutset text : bytes) : Prop :=
  match rev text with
  | c :: _ => contains cutset c = false
  | [] => True
  end.

(** [e] is a URL entity of [s] for the class [ok]: the text at its start
    offset has a match [w] of the URL shape; the entity's text is [w]
    without its trailing cutset bytes [tail], and its end offset is the
    end of the match moved back by the length of [tail]. *)
Definition url_entity_of (ok : byte -> bool) (s : bytes) (e : Entity) : Prop :=
  exists w tail,
    url_match ok w /\
    Start e + len w <= len s /\
    slice s (Start e) (Start e + len w) = w /\
    w = Text e ++ tail /\
    forallb (contains url_cutset) tail = true /\
    ends_outside url_cutset (Text e) /\
    End e = Start e + len w - len tail.

(** Every URL entity the matcher produces is a URL entity for the
    class [ok]. *)
Definition url_claim (ok : byte -> bool) (s : bytes) : Prop :=
  forall e, In e (matchURL s) -> url_entity_of ok s e.

(** The class of the specification's table: non-whitespace, non-bracket. *)
Definition is_bracket (c : byte) : bool := one_of (B "()[]{}<>") c.
Definition stated_url_char (c : byte) : bool :=
  (negb (is_space c) && negb (is_bracket c))%bool.

(** ** Labeled FIN entities *)

(** The keyword, in any letter case. *)
Definition is_fin_keyword (kw : bytes) : bool :=
  match kw with
  | [f; i; n] =>
      ((byte_is "F" f || byte_is "f" f) && (byte_is "I" i || byte_is "i" i)
       && (byte_is "N" n || byte_is "n" n))%bool
  | _ => false
  end.

(** One [:] or whitespace byte, then at most one more whitespace byte. *)
Definition is_separator (sep : bytes) : bool :=
  match sep with
  | [c] => colon_or_space c
  | [c; w] => (colon_or_space c && is_space w)%bool
  | _ => false
  end.

(** What the labeled pattern reads as one character of its group:
    a byte of the folded class or one of the two folded runes (used to
    describe a match of the pattern, not a place of the
    specification). *)
Definition fin_char (ch : bytes) : Prop :=
  (exists b, ch = [b] /\ fin_class_ci b = true) \/ ch = long_s \/ ch = kelvin_sign.

(** Seven such characters: what group 1 of a match holds. *)
Definition fin_code_ci (code : bytes) : Prop :=
  exists chars, length chars = 7%nat /\ Forall fin_char chars /\
                code = concat chars.

(** A word boundary between the text [before] and the text [after]. *)
Definition boundary (before after : bytes) : Prop :=
  xorb (word_opt (last_opt None before)) (word_opt (hd_error after)) = true.

(** The place of a labeled FIN: after a word boundary the keyword, one
    [:] or whitespace byte, at most one more whitespace byte, and a code
    of seven bytes of [[A-HJ-NP-Z0-9]] that ends at a word boundary; the
    entity is the code alone. *)
Definition labeled_fin_place (s : bytes) (e : Entity) : Prop :=
  exists pre kw sep code post,
    s = pre ++ kw ++ sep ++ code ++ post /\
    is_fin_keyword kw = true /\ is_separator sep = true /\
    length code = 7%nat /\ forallb fin_class code = true /\
    boundary pre kw /\ boundary code post /\
    e = mkEntity code (len (pre ++ kw ++ sep)) (len (pre ++ kw ++ sep) + 7)
                 FIN true.

(** The span of a labeled FIN entity: its text is what stands between
    the keyword with its separator and a word boundary, and its offsets
    are those of that text; neither the keyword nor the separator is
    part of it. *)
Definition labeled_fin_span (s : bytes) (e : Entity) : Prop :=
  exists pre kw sep post,
    s = pre ++ kw ++ sep ++ Text e ++ post /\
    is_fin_keyword kw = true /\ is_separator sep = true /\
    boundary pre kw /\ boundary (Text e) post /\
    Start e = len (pre ++ kw ++ sep) /\
    End e = Start e + len (Text e) /\
    Type_ e = FIN.

(** The letters of the keyword, in either case, and the bytes that can
    follow its first letter inside the keyword and the separator. *)
Definition is_F (c : byte) : bool := (byte_is "F" c || byte_is "f" c)%bool.
Definition is_I (c : byte) : bool := (byte_is "I" c || byte_is "i" c)%bool.
Definition is_N (c : byte) : bool := (byte_is "N" c || byte_is "n" c)%bool.
Definition after_F (c : byte) : bool :=
  (is_I c || is_N c || colon_or_space c || is_space c)%bool.

(** The place of a labeled FIN as the specification words it: the
    keyword, an optional separator ([:] or whitespace, the separators
    the pattern accepts, or nothing), a code of seven bytes of
    [[A-HJ-NP-Z0-9]]; the entity is the code. *)
Definition stated_separator (sep : bytes) : bool :=
  match sep with
  | [] => true
  | _ => is_separator sep
  end.

Definition stated_fin_place (s : bytes) (e : Entity) : Prop :=
  exists pre kw sep code post,
    s = pre ++ kw ++ sep ++ code ++ post /\
    is_fin_keyword kw = true /\ stated_separator sep = true /\
    length code = 7%nat /\ forallb fin_class code = true /\
    e = mkEntity code (len (pre ++ kw ++ sep)) (len (pre ++ kw ++ sep) + 7)
                 FIN true.

Definition labeled_fin_claim_as_stated (s : bytes) : Prop :=
  forall e, (In e (matchFIN s) /\ Labeled e = true) <-> stated_fin_place s e.

(** ** Word boundaries next to Azerbaijani letters *)

(** The UTF-8 encodings of the Azerbaijani letters outside ASCII:
    schwa U+0259 and U+018F, g with breve U+011F and U+011E, dotless i
    U+0131, I with dot above U+0130, o with diaeresis U+00F6 and U+00D6,
    s with cedilla U+015F and U+015E, u with diaeresis U+00FC and U+00DC,
    c with cedilla U+00E7 and U+00C7. *)
Definition az_letters : list bytes :=
  [ ["201"; "153"]; ["198"; "143"]; ["196"; "159"]; ["196"; "158"];
    ["196"; "177"]; ["196"; "176"]; ["195"; "182"]; ["195"; "150"];
    ["197"; "159"]; ["197"; "158"]; ["195"; "188"]; ["195"; "156"];
    ["195"; "167"]; ["195"; "135"] ]%char.

(** What may stand just before a word-bounded match: the start of the
    text, an Azerbaijani letter, or any byte that is not a word byte. *)
Inductive left_context : bytes -> Prop :=
| left_edge : left_context []
| left_az : forall p L, In L az_letters -> left_context (p ++ L)
| left_other : forall p c, isWordChar c = false -> left_context (p ++ [c]).

(** What may stand just after it. *)
Inductive right_context : bytes -> Prop :=
| right_edge : right_context []
| right_az : forall L q, In L az_letters -> right_context (L ++ q)
| right_other : forall c q, isWordChar c = false -> right_context (c :: q).

(** ** Sample entities: the README example and a URL that ends a
    sentence. *)
Definition sample_fin : Entity := mkEntity (B "5ARPXK2") 5 12 FIN true.
Definition sample_bare : Entity := mkEntity (B "5ARPXK2") 5 12 FIN false.
Definition sample_phone : Entity :=
  mkEntity (B "+994501234567") 18 31 Phone false.
Definition sample_url : Entity := mkEntity (B "http://gov.az") 4 17 URL false.

End NerSpec.

(* ================================================================== *)
(** * Further properties of the package *)
(* ================================================================== *)
Module NerProps.
Import GoStrings GoRegexp GoSort Ner NerSpec.
Local Open Scope Z_scope.

(** What the resolver sees of an entity and what a caller reads of its
    place: the offsets and the label. *)
Definition place (e : Entity) : Z * Z * bool := (Start e, End e, Labeled e).

(** The sort key of [resolveLess], and [resolveLess] on keys. *)
Definition sort_key (e : Entity) : Z * Z * bool :=
  (Start e, int_sub (End e) (Start e), Labeled e).

Definition key_less (a b : Z * Z * bool) : bool :=
  let '(sa, la, ba) := a in
  let '(sb, lb, bb) := b in
  if negb (sa =? sb) then sa <? sb
  else if negb (la =? lb) then la >? lb
  else if negb (Bool.eqb ba bb) then ba
  else false.

(** Offsets of a non-empty range that starts in the text. *)
Definition positive (e : Entity) : Prop := 0 <= Start e /\ Start e < End e.

(** [e] is the unlabeled entity of type [ty] over a run [w] of [n]
    bytes of the class [p] that stands between two places that are not
    word bytes (or the ends of the text). *)
Definition bounded_run (p : byte -> bool) (n : nat) (ty : EntityType)
           (s : bytes) (e : Entity) : Prop :=
  exists pre w post,
    s = pre ++ w ++ post /\ length w = n /\ forallb p w = true /\
    word_opt (last_opt None pre) = false /\
    word_opt (hd_error post) = false /\
    e = mkEntity w (len pre) (len pre + Z.of_nat n) ty false.

(** The shape of an Azerbaijani IBAN: [AZ], two digits, four upper-case
    letters, twenty upper-case letters or digits. *)
Definition iban_shape (w : bytes) : Prop :=
  exists d u a,
    w = B "AZ" ++ d ++ u ++ a /\
    length d = 2%nat /\ forallb is_digit d = true /\
    length u = 4%nat /\ forallb is_upper u = true /\
    length a = 20%nat /\
    forallb (fun c => is_upper c || is_digit c)%bool a = true.

(** [e] is the IBAN entity over a text of that shape between two places
    that are not word bytes. *)
Definition iban_place (s : bytes) (e : Entity) : Prop :=
  exists pre w post,
    s = pre ++ w ++ post /\ iban_shape w /\
    word_opt (last_opt None pre) = false /\
    word_opt (hd_error post) = false /\
    e = mkEntity w (len pre) (len pre + 28) IBAN false.

(** The matcher reads the word [w] going from [st] to [st'] and sets no
    capture group. *)
Definition reads (w : bytes) (st st' : mstate) : Prop :=
  rest st = w ++ rest st' /\ pos st' = (pos st + length w)%nat /\
  prev st' = last_opt (prev st) w /\ caps st' = caps st.

(** ** Labeled VOEN entities *)

Definition is_V (c : byte) : bool := (byte_is "V" c || byte_is "v" c)%bool.
Definition is_O (c : byte) : bool := (byte_is "O" c || byte_is "o" c)%bool.
Definition is_E (c : byte) : bool := (byte_is "E" c || byte_is "e" c)%bool.

(** [VOEN] in any letter case, its second letter being O or O with
    diaeresis (two bytes). *)
Definition is_voen_keyword (kw : bytes) : bool :=
  match kw with
  | [v; o; e; n] => (is_V v && is_O o && is_E e && is_N n)%bool
  | [v; o1; o2; e; n] =>
      (is_V v && byte_is "195" o1 && (byte_is "150" o2 || byte_is "182" o2)
       && is_E e && is_N n)%bool
  | _ => false
  end.

(** [e] is the labeled VOEN entity of a place of [s]: keyword,
    separator, ten digits, between word boundaries; the entity is the
    digits. *)
Definition labeled_voen_place (s : bytes) (e : Entity) : Prop :=
  exists pre kw sep code post,
    s = pre ++ kw ++ sep ++ code ++ post /\
    is_voen_keyword kw = true /\ is_separator sep = true /\
    length code = 10%nat /\ forallb is_digit code = true /\
    word_opt (last_opt None pre) = false /\
    word_opt (hd_error post) = false /\
    e = mkEntity code (len (pre ++ kw ++ sep)) (len (pre ++ kw ++ sep) + 10)
                 VOEN true.

(** Entities in text order, each ending before the next starts. *)
Definition in_text_order (l : list Entity) : Prop :=
  StronglySorted (fun a b => End a <= Start b) l.

(** ** Licence plates *)

(** Two digits, a hyphen, two upper-case letters, a hyphen, three
    digits. *)
Definition plate_shape (w : bytes) : Prop :=
  exists d u t,
    w = d ++ B "-" ++ u ++ B "-" ++ t /\
    length d = 2%nat /\ forallb is_digit d = true /\
    length u = 2%nat /\ forallb is_upper u = true /\
    length t = 3%nat /\ forallb is_digit t = true.

(** [e] is the plate entity over a text of that shape between two
    places that are not word bytes. *)
Definition plate_place (s : bytes) (e : Entity) : Prop :=
  exists pre w post,
    s = pre ++ w ++ post /\ plate_shape w /\
    word_opt (last_opt None pre) = false /\
    word_opt (hd_error post) = false /\
    e = mkEntity w (len pre) (len pre + 9) LicensePlate false.

(** ** Reading a word, whatever happens to the capture groups *)
Definition advances (w : bytes) (st st' : mstate) : Prop :=
  rest st = w ++ rest st' /\ pos st' = (pos st + length w)%nat /\
  prev st' = last_opt (prev st) w.

(** The text does not go on with a byte of the class [p]. *)
Definition stops_before (p : byte -> bool) (post : bytes) : Prop :=
  match post with
  | c :: _ => p c = false
  | [] => True
  end.

(** ** E-mail addresses *)

(** A local part, [@], a domain, a dot and a top-level domain of two or
    more letters. *)
Definition email_shape (w : bytes) : Prop :=
  exists l d t,
    w = l ++ B "@" ++ d ++ B "." ++ t /\
    l <> [] /\ forallb email_local l = true /\
    d <> [] /\ forallb email_domain d = true /\
    (2 <= length t)%nat /\ forallb is_alpha t = true.

(** [e] is the e-mail entity over a text of that shape that is not
    followed by a letter. *)
Definition email_place (s : bytes) (e : Entity) : Prop :=
  exists pre w post,
    s = pre ++ w ++ post /\ email_shape w /\ stops_before is_alpha post /\
    e = mkEntity w (len pre) (len pre + len w) Email false.

(** ** Phone numbers *)

(** The text without its whitespace bytes. *)
Definition no_space (w : bytes) : bytes :=
  filter (fun c => negb (is_space c)) w.

(** The text begins with the first byte of [prefix] and, up to [k]
    whitespace bytes apart, reads [prefix] and nine digits. *)
Definition phone_digits (prefix : bytes) (k : nat) (w : bytes) : Prop :=
  exists d,
    length d = 9%nat /\ forallb is_digit d = true /\
    no_space w = prefix ++ d /\
    (length w <= length prefix + 9 + k)%nat /\
    hd_error w = hd_error prefix.

(** [e] is the phone entity over an international number, or over a
    local number between two places that are not word bytes. *)
Definition phone_place (s : bytes) (e : Entity) : Prop :=
  exists pre w post,
    s = pre ++ w ++ post /\
    (phone_digits (B "+994") 4 w \/
     (phone_digits (B "0") 3 w /\
      word_opt (last_opt None pre) = false /\
      word_opt (hd_error post) = false)) /\
    e = mkEntity w (len pre) (len pre + len w) Phone false.

(** ** URLs *)

(** [e] is a URL entity whose text keeps the scheme and ends outside the
    cutset; what was trimmed lies in the cutset, and the match went as
    far as the class allows. *)
Definition url_place (s : bytes) (e : Entity) : Prop :=
  exists pre scheme body tail post,
    s = pre ++ (scheme ++ body) ++ tail ++ post /\
    (scheme = B "http://" \/ scheme = B "https://") /\
    forallb url_char (body ++ tail) = true /\
    body ++ tail <> [] /\
    forallb (contains url_cutset) tail = true /\
    ends_outside url_cutset (scheme ++ body) /\
    stops_before url_char post /\
    e = mkEntity (scheme ++ body) (len pre) (len pre + len (scheme ++ body))
                 URL false.

(** ** The matcher of a type, and the range of lengths of its entities
    in bytes (no upper end for e-mail addresses and URLs). *)
Definition matcher_of (ty : EntityType) : bytes -> list Entity :=
  match ty with
  | Phone => matchPhone
  | Email => matchEmail
  | URL => matchURL
  | IBAN => matchIBAN
  | LicensePlate => matchLicensePlate
  | FIN => matchFIN
  | VOEN => matchVOEN
  end.

Definition least_span (ty : EntityType) : Z :=
  match ty with
  | Phone => 10
  | Email => 6
  | URL => 7
  | IBAN => 28
  | LicensePlate => 9
  | FIN => 7
  | VOEN => 10
  end.

Definition greatest_span (ty : EntityType) : option Z :=
  match ty with
  | Phone => Some 17
  | Email => None
  | URL => None
  | IBAN => Some 28
  | LicensePlate => Some 9
  | FIN => Some 21
  | VOEN => Some 10
  end.

Definition span_within (ty : EntityType) (n : Z) : Prop :=
  least_span ty <= n /\
  match greatest_span ty with
  | Some m => n <= m
  | None => True
  end.

End NerProps.

(* ================================================================== *)
(** * Facts about the library models *)
(* ================================================================== *)
Import GoStrings GoRegexp GoSort Ner NerSpec.

(** ** [sort.Slice] *)
Section SortFacts.
Variable A : Type.
Variable less : A -> A -> bool.

Lemma insert_left_perm x (l : list A) :
  Permutation (x :: l) (insert_left less x l).
Proof.
  induction l as [|y t IH]; simpl.
  - apply Permutation_refl.
  - destruct (less x y).
    + eapply perm_trans; [apply perm_swap|]. now apply perm_skip.
    + apply Permutation_refl.
Qed.

Lemma insertion_loop_perm (l acc : list A) :
  Permutation (rev acc ++ l) (insertion_loop less acc l).
Proof.
  revert acc; induction l as [|x t IH]; intros acc; simpl.
  - now rewrite app_nil_r.
  - eapply perm_trans; [|apply IH].
    rewrite <- (Permutation_rev (insert_left less x acc)).
    eapply perm_trans; [|apply Permutation_app_tail, (insert_left_perm x acc)].
    rewrite <- (Permutation_rev acc).
    simpl. apply Permutation_sym, Permutation_middle.
Qed.

Lemma insert_left_rev_order x (l : list A) :
  strict_weak less -> rev_order less l -> rev_order less (insert_left less x l).
Proof.
  intros [Hasym Hnt]; unfold rev_order.
  induction l as [|y t IH]; intros Hs; simpl.
  - repeat constructor.
  - inversion Hs as [|? ? Hst Hall]; subst.
    destruct (less x y) eqn:Hxy.
    + constructor; [now apply IH|].
      rewrite Forall_forall in *. intros z Hz.
      apply (Permutation_in z (Permutation_sym (insert_left_perm x t))) in Hz.
      destruct Hz as [<-|Hz]; [now apply Hasym | now apply Hall].
    + constructor; [exact Hs|].
      constructor; [exact Hxy|].
      rewrite Forall_forall in *. intros z Hz.
      apply Hnt with y; [exact Hxy | now apply Hall].
Qed.

Lemma rev_order_rev (l : list A) :
  rev_order less l -> in_order less (rev l).
Proof.
  unfold rev_order, in_order.
  induction l as [|x t IH]; intros Hs; simpl.
  - constructor.
  - inversion Hs as [|? ? Hst Hall]; subst.
    specialize (IH Hst).
    clear Hs Hst. revert IH.
    generalize (rev t) (fun z (Hz : In z (rev t)) =>
      proj1 (Forall_forall _ t) Hall z (proj2 (in_rev t z) Hz)).
    intros l Hl. induction l as [|y u IHu]; intros Hs; simpl.
    + repeat constructor.
    + inversion Hs as [|? ? Hsu Hyu]; subst.
      constructor.
      * apply IHu; [intros z Hz; apply Hl; now right | exact Hsu].
      * apply Forall_app; split; [exact Hyu|].
        constructor; [|constructor]. apply Hl. now left.
Qed.

Lemma insertion_loop_in_order (l acc : list A) :
  strict_weak less -> rev_order less acc ->
  in_order less (insertion_loop less acc l).
Proof.
  intros Hsw. revert acc; induction l as [|x t IH]; intros acc Hacc; simpl.
  - now apply rev_order_rev.
  - apply IH. now apply insert_left_rev_order.
Qed.

(** A list that is strictly increasing for [less] is the only ordering of
    its elements that [sort.Slice] may return. *)
Lemma in_order_unique (l0 : list A) :
  (forall a b, less a b = true -> less b a = false) ->
  StronglySorted (fun a b => less a b = true) l0 ->
  forall l1, Permutation l0 l1 -> in_order less l1 -> l1 = l0.
Proof.
  intros Hasym. induction l0 as [|x t IH]; intros Hs l1 Hp Ho.
  - now apply Permutation_nil in Hp.
  - inversion Hs as [|? ? Hst Hall]; subst.
    destruct l1 as [|y t1].
    + apply Permutation_sym, Permutation_nil in Hp. discriminate.
    + rewrite Forall_forall in Hall.
      inversion Ho as [|? ? Hot Hoall]; subst.
      rewrite Forall_forall in Hoall.
      assert (Hyx : y = x).
      { assert (Hy : In y (x :: t))
          by (apply (Permutation_in y (Permutation_sym Hp)); now left).
        destruct Hy as [Hy|Hy]; [now symmetry|].
        assert (Hx : In x (y :: t1))
          by (apply (Permutation_in x Hp); now left).
        pose proof (Hall y Hy) as Hxy.
        destruct Hx as [Hx|Hx].
        - subst y. rewrite (Hasym x x Hxy) in Hxy. discriminate.
        - rewrite (Hoall x Hx) in Hxy. discriminate. }
      subst y. f_equal.
      apply IH; [exact Hst | now apply Permutation_cons_inv with x | exact Hot].
Qed.

End SortFacts.

(** The contract of [sort.Slice] is met by the insertion sort. *)
#[export] Instance insertion_sorter : Sorter.
Proof.
  refine {| Slice := insertionSort |}.
  - intros A less l. exact (insertion_loop_perm less l []).
  - intros A less l Hsw. apply insertion_loop_in_order; [exact Hsw | constructor].
Defined.

(** So is it by the insertion sort run on the slice read backwards,
    which returns elements that tie in the opposite order. *)
Definition backward_sorter : Sorter.
Proof.
  refine {| Slice := fun A less l => insertionSort less (rev l) |}.
  - intros A less l.
    eapply perm_trans; [apply Permutation_rev|].
    exact (insertion_loop_perm less (rev l) []).
  - intros A less l Hsw. apply insertion_loop_in_order; [exact Hsw | constructor].
Defined.

Lemma Slice_unique {sorter : Sorter} (A : Type) (less : A -> A -> bool)
      (l l0 : list A) :
  strict_weak less ->
  Permutation l l0 ->
  StronglySorted (fun a b => less a b = true) l0 ->
  Slice less l = l0.
Proof.
  intros Hsw Hp Hs.
  apply in_order_unique with (less := less);
    [apply Hsw | exact Hs | | now apply Slice_in_order].
  eapply perm_trans; [apply Permutation_sym, Hp | apply Slice_perm].
Qed.

(** ** The matcher and what a pattern denotes *)

Lemma last_opt_app pv (u v : bytes) :
  last_opt pv (u ++ v) = last_opt (last_opt pv u) v.
Proof. unfold last_opt. apply fold_left_app. Qed.

Lemma last_opt_snoc pv (u : bytes) c : last_opt pv (u ++ [c]) = Some c.
Proof. now rewrite last_opt_app. Qed.

Lemma star_sound p k l : forall i pv cs res,
  star p k l i pv cs = Some res ->
  exists w t, l = w ++ t /\ forallb p w = true /\
              k (MState t (i + length w) (last_opt pv w) cs) = Some res.
Proof.
  induction l as [|c t IH]; intros i pv cs res H; simpl in H.
  - exists [], []. simpl. now rewrite Nat.add_0_r.
  - destruct (p c) eqn:Hc.
    + destruct (star p k t (S i) (Some c) cs) as [r|] eqn:Hs.
      * apply IH in Hs. destruct Hs as (w & t' & -> & Hw & Hk).
        exists (c :: w), t'. simpl. rewrite Hc, Hw.
        replace (i + S (length w)) with (S i + length w) by lia.
        inversion H; subst. auto.
      * exists [], (c :: t). simpl. now rewrite Nat.add_0_r.
    + exists [], (c :: t). simpl. now rewrite Nat.add_0_r.
Qed.

Lemma star_fallback p k l i pv cs :
  k (MState l i pv cs) <> None -> star p k l i pv cs <> None.
Proof.
  intros H. destruct l as [|c t]; simpl; [exact H|].
  destruct (p c); [|exact H].
  destruct (star p k t (S i) (Some c) cs); [discriminate | exact H].
Qed.

Lemma star_complete p k w : forall t i pv cs,
  forallb p w = true ->
  k (MState t (i + length w) (last_opt pv w) cs) <> None ->
  star p k (w ++ t) i pv cs <> None.
Proof.
  induction w as [|c w IH]; intros t i pv cs Hw Hk.
  - simpl in Hk. rewrite Nat.add_0_r in Hk. now apply star_fallback.
  - simpl in Hw. apply andb_true_iff in Hw. destruct Hw as [Hc Hw].
    simpl. rewrite Hc.
    assert (Hn : star p k (w ++ t) (S i) (Some c) cs <> None).
    { apply IH; [exact Hw|].
      simpl in Hk. now replace (S i + length w) with (i + S (length w)) by lia. }
    destruct (star p k (w ++ t) (S i) (Some c) cs); [discriminate | contradiction].
Qed.

(** Every result of the search is a match of the pattern, accepted by
    the continuation. *)
Lemma run_sound r : forall k st res,
  run r k st = Some res ->
  exists st', matches r st st' /\ k st' = Some res.
Proof.
  induction r as [|p|a IHa b IHb|a IHa b IHb|p| |n a IHa];
    intros k st res H; simpl in H.
  - exists st. now split.
  - destruct (rest st) as [|c t] eqn:Hr; [discriminate|].
    destruct (p c) eqn:Hc; [|discriminate].
    eexists. split; [|exact H]. simpl. exists c, t. auto.
  - apply IHa in H. destruct H as (st1 & H1 & H).
    apply IHb in H. destruct H as (st2 & H2 & H).
    exists st2. split; [|exact H]. simpl. eauto.
  - destruct (run a k st) as [x|] eqn:Ha.
    + inversion H; subst. apply IHa in Ha. destruct Ha as (st' & ? & ?).
      exists st'. simpl. auto.
    + apply IHb in H. destruct H as (st' & ? & ?). exists st'. simpl. auto.
  - apply star_sound in H. destruct H as (w & t & Hl & Hw & Hk).
    eexists. split; [|exact Hk]. simpl. exists w, t. auto.
  - destruct (at_word_boundary st) eqn:Hb; [|discriminate].
    exists st. simpl. auto.
  - apply IHa in H. destruct H as (st1 & H1 & H).
    eexists. split; [|exact H]. simpl. eauto.
Qed.

(** Whenever the pattern has a match that the continuation accepts, the
    search returns a result. *)
Lemma run_complete r : forall k st st',
  matches r st st' -> k st' <> None -> run r k st <> None.
Proof.
  induction r as [|p|a IHa b IHb|a IHa b IHb|p| |n a IHa];
    intros k st st' Hm Hk; simpl in Hm; simpl.
  - now subst.
  - destruct Hm as (c & t & -> & -> & ->). exact Hk.
  - destruct Hm as (st1 & H1 & H2).
    apply IHa with st1; [exact H1|]. now apply IHb with st'.
  - destruct (run a k st) eqn:Ha; [discriminate|].
    destruct Hm as [Hm|Hm].
    + exfalso. now apply (IHa k st st' Hm Hk).
    + now apply IHb with st'.
  - destruct Hm as (w & t & -> & Hw & ->). now apply star_complete.
  - destruct Hm as [-> ->]. exact Hk.
  - destruct Hm as (st1 & H1 & ->). now apply IHa with st1.
Qed.

Lemma exec_sound r st st' : exec r st = Some st' -> matches r st st'.
Proof.
  intros H. apply run_sound in H. destruct H as (x & Hm & Hx).
  now inversion Hx; subst.
Qed.

Lemma exec_complete r st st' :
  matches r st st' -> exists st'', exec r st = Some st'' /\ matches r st st''.
Proof.
  intros Hm. destruct (exec r st) as [x|] eqn:He.
  - exists x. split; [reflexivity | now apply exec_sound].
  - exfalso. apply (run_complete r Some st st' Hm); [discriminate | exact He].
Qed.

(** A match reads a word [w] off the front of the text: at least
    [min_len r] bytes. *)
Lemma matches_advance r : forall st st',
  matches r st st' ->
  exists w, rest st = w ++ rest st' /\ pos st' = pos st + length w /\
            prev st' = last_opt (prev st) w /\ min_len r <= length w.
Proof.
  induction r as [|p|a IHa b IHb|a IHa b IHb|p| |n a IHa];
    intros st st' Hm; simpl in Hm.
  - subst. exists []. simpl. repeat split; lia.
  - destruct Hm as (c & t & Hr & Hc & ->). exists [c]. simpl.
    repeat split; auto; lia.
  - destruct Hm as (st1 & H1 & H2).
    apply IHa in H1. apply IHb in H2.
    destruct H1 as (w1 & R1 & P1 & V1 & L1).
    destruct H2 as (w2 & R2 & P2 & V2 & L2).
    exists (w1 ++ w2). rewrite length_app, last_opt_app, <- app_assoc.
    rewrite R1, R2, P2, P1, V2, V1. simpl. repeat split; lia.
  - destruct Hm as [Hm|Hm]; [apply IHa in Hm | apply IHb in Hm];
      destruct Hm as (w & R & P & V & L); exists w; simpl;
      repeat split; auto; lia.
  - destruct Hm as (w & t & Hr & Hw & ->). exists w. simpl.
    repeat split; auto; lia.
  - destruct Hm as [_ ->]. exists []. simpl. repeat split; lia.
  - destruct Hm as (st1 & H1 & ->). apply IHa in H1.
    destruct H1 as (w & R & P & V & L). exists w. simpl. auto.
Qed.

(** ** Successive matches *)

Lemma scan_sound r l : forall done i pv skip pe a st',
  i = length done -> pv = last_opt None done ->
  In (a, st') (scan r l i pv skip pe) ->
  exists l1 l2, l = l1 ++ l2 /\ a = length (done ++ l1) /\
                exec r (st_at (done ++ l1) l2) = Some st'.
Proof.
  assert (Hnext : forall done c (t : bytes) a st',
    (exists l1 l2, t = l1 ++ l2 /\ a = length ((done ++ [c]) ++ l1) /\
                   exec r (st_at ((done ++ [c]) ++ l1) l2) = Some st') ->
    exists l1 l2, c :: t = l1 ++ l2 /\ a = length (done ++ l1) /\
                  exec r (st_at (done ++ l1) l2) = Some st').
  { intros done c t a st' (l1 & l2 & -> & Ha & He).
    exists (c :: l1), l2. rewrite <- app_assoc in Ha, He. auto. }
  induction l as [|c t IH]; intros done i pv skip pe a st' Hi Hpv Hin.
  - destruct skip; simpl in Hin; [|contradiction].
    destruct (exec r (MState [] i pv [])) as [x|] eqn:He; [|contradiction].
    rewrite app_nil_r in Hin.
    destruct (Nat.eqb (pos x) i && abuts pe i); [contradiction|].
    destruct Hin as [Hin|[]]. inversion Hin; subst.
    exists [], []. rewrite (app_nil_r done). auto.
  - destruct skip as [|k]; simpl in Hin.
    + destruct (exec r (MState (c :: t) i pv [])) as [x|] eqn:He.
      * apply in_app_or in Hin. destruct Hin as [Hin|Hin].
        -- destruct (Nat.eqb (pos x) i && abuts pe i); [contradiction|].
           destruct Hin as [Hin|[]]. inversion Hin; subst.
           exists [], (c :: t). rewrite (app_nil_r done). auto.
        -- apply Hnext. eapply IH; [| |exact Hin].
           ++ rewrite length_app. simpl. lia.
           ++ now rewrite last_opt_snoc.
      * apply Hnext. eapply IH; [| |exact Hin].
        -- rewrite length_app. simpl. lia.
        -- now rewrite last_opt_snoc.
    + apply Hnext. eapply IH; [| |exact Hin].
      * rewrite length_app. simpl. lia.
      * now rewrite last_opt_snoc.
Qed.

(** Every delivered match is the match of the pattern at its start
    offset. *)
Lemma allMatches_sound r s a st' :
  In (a, st') (allMatches r s) ->
  exists pre post, s = pre ++ post /\ a = length pre /\
                   exec r (st_at pre post) = Some st'.
Proof.
  intros H. apply (scan_sound r s []) in H; auto.
Qed.

Lemma scan_complete r post st' l1 : forall done i pv skip pe,
  i = length done -> pv = last_opt None done ->
  skip <= length l1 ->
  exec r (st_at (done ++ l1) post) = Some st' ->
  length (done ++ l1) < pos st' ->
  (forall u v st1, l1 = u ++ v -> v <> [] ->
     exec r (st_at (done ++ u) (v ++ post)) = Some st1 ->
     pos st1 <= length (done ++ l1)) ->
  In (length (done ++ l1), st') (scan r (l1 ++ post) i pv skip pe).
Proof.
  induction l1 as [|c t IH]; intros done i pv skip pe Hi Hpv Hskip He Hlen Hprev.
  - simpl in Hskip. assert (skip = 0) by lia. subst skip.
    rewrite app_nil_r in *. simpl.
    assert (Hscan : scan r post i pv 0 pe =
       match exec r (MState post i pv []) with
       | Some st' =>
           (if Nat.eqb (pos st') i && abuts pe i then [] else [(i, st')])
           ++ match post with
              | [] => []
              | c :: t => scan r t (S i) (Some c) (pos st' - i - 1) (Some (pos st'))
              end
       | None =>
           match post with
           | [] => []
           | c :: t => scan r t (S i) (Some c) 0 pe
           end
       end) by (destruct post; reflexivity).
    rewrite Hscan. unfold st_at in He. rewrite <- Hi, <- Hpv in He. rewrite He.
    apply in_or_app. left.
    replace (Nat.eqb (pos st') i) with false
      by (symmetry; apply Nat.eqb_neq; lia).
    simpl. left. now rewrite Hi.
  - assert (Hrec : forall skip' pe', skip' <= length t ->
      In (length (done ++ c :: t), st')
         (scan r (t ++ post) (S i) (Some c) skip' pe')).
    { intros skip' pe' Hs.
      replace (done ++ c :: t) with ((done ++ [c]) ++ t)
        by now rewrite <- app_assoc.
      apply IH; auto.
      - rewrite length_app. simpl. lia.
      - now rewrite last_opt_snoc.
      - now rewrite <- app_assoc.
      - now rewrite <- app_assoc.
      - intros u v st1 Ht Hv He1. rewrite <- !app_assoc in *. simpl in *.
        apply (Hprev (c :: u) v st1); subst; auto. }
    simpl in Hskip. simpl.
    destruct skip as [|k]; [|apply Hrec; lia].
    destruct (exec r (MState (c :: t ++ post) i pv [])) as [x|] eqn:Hx.
    + apply in_or_app. right. apply Hrec.
      assert (Hle : pos x <= length (done ++ c :: t)).
      { apply (Hprev [] (c :: t) x); auto; [discriminate|].
        rewrite app_nil_r. unfold st_at. now rewrite <- Hi, <- Hpv. }
      rewrite length_app in Hle. simpl in Hle. lia.
    + apply Hrec. lia.
Qed.

(** A non-empty match at an offset is delivered when no match that
    starts further left reaches beyond that offset. *)
Lemma allMatches_complete r pre post st' :
  exec r (st_at pre post) = Some st' ->
  length pre < pos st' ->
  (forall u v st1, pre = u ++ v -> v <> [] ->
     exec r (st_at u (v ++ post)) = Some st1 -> pos st1 <= length pre) ->
  In (length pre, st') (allMatches r (pre ++ post)).
Proof.
  intros He Hlen Hprev.
  apply scan_complete with (done := []); auto; lia.
Qed.

(* ================================================================== *)
(** * Overlap resolution *)
(* ================================================================== *)
Local Open Scope Z_scope.

Lemma wrap_small z : int_min <= z <= int_max -> wrap z = z.
Proof.
  unfold wrap, int_min, int_max. intros H.
  rewrite Z.mod_small; lia.
Qed.

Lemma int_sub_span e : in_range e -> int_sub (End e) (Start e) = span e.
Proof.
  unfold in_range, int_sub, span. intros H. apply wrap_small.
  unfold int_min, int_max in *. lia.
Qed.

Ltac less_cases :=
  repeat match goal with
  | |- context [Z.eqb ?a ?b] => destruct (Z.eqb_spec a b)
  | H : context [Z.eqb ?a ?b] |- _ => destruct (Z.eqb_spec a b)
  | |- context [Z.ltb ?a ?b] => destruct (Z.ltb_spec a b)
  | H : context [Z.ltb ?a ?b] |- _ => destruct (Z.ltb_spec a b)
  end; simpl in *.

Lemma resolveLess_strict_weak : strict_weak resolveLess.
Proof.
  split.
  - intros a b. unfold resolveLess. rewrite !Z.gtb_ltb.
    generalize (int_sub (End a) (Start a)) (int_sub (End b) (Start b)).
    intros la lb. destruct (Labeled a), (Labeled b); less_cases;
      intros; try reflexivity; try discriminate; try lia.
  - intros a b c. unfold resolveLess. rewrite !Z.gtb_ltb.
    generalize (int_sub (End a) (Start a)) (int_sub (End b) (Start b))
               (int_sub (End c) (Start c)).
    intros la lb lc. destruct (Labeled a), (Labeled b), (Labeled c); less_cases;
      intros; try reflexivity; try discriminate; try lia.
Qed.

Lemma startLess_strict_weak : strict_weak startLess.
Proof.
  split; unfold startLess; intros; less_cases; try reflexivity;
    try discriminate; try lia.
Qed.

(** On entities with offsets in range, [less] is the composite ordering
    of the specification. *)
Lemma resolveLess_composite a b :
  in_range a -> in_range b ->
  (resolveLess b a = false <-> composite_le a b).
Proof.
  intros Ha Hb. unfold resolveLess, composite_le.
  rewrite (int_sub_span Ha), (int_sub_span Hb), Z.gtb_ltb.
  destruct (Labeled a), (Labeled b); less_cases; split; intros HH;
    try reflexivity; try discriminate; try lia;
    repeat match goal with
    | H : _ \/ _ |- _ => destruct H
    | H : _ /\ _ |- _ => destruct H
    end; try lia;
    try (right; split; [lia|]; right; split; [lia|]; intros; congruence);
    try (exfalso; match goal with H : _ -> _ |- _ => now specialize (H eq_refl) end).
Qed.

(** The loop of [resolveOverlaps] is the sweep of the specification. *)
Lemma sweep_fold l : forall result maxEnd,
  fst (fold_left sweep_step l (result, maxEnd)) = result ++ spec_sweep maxEnd l.
Proof.
  induction l as [|c t IH]; intros result maxEnd; simpl.
  - now rewrite app_nil_r.
  - rewrite Z.geb_leb. destruct (Z_ge_dec (Start c) maxEnd) as [Hge|Hlt].
    + replace (maxEnd <=? Start c) with true by (symmetry; apply Z.leb_le; lia).
      rewrite IH, <- app_assoc. reflexivity.
    + replace (maxEnd <=? Start c) with false by (symmetry; apply Z.leb_gt; lia).
      destruct (End c >? maxEnd); apply IH.
Qed.

Lemma sweep_spec l : fst (sweep l) = spec_sweep 0 l.
Proof. unfold sweep. now rewrite sweep_fold. Qed.

Lemma spec_sweep_incl l : forall m e, In e (spec_sweep m l) -> In e l.
Proof.
  induction l as [|c t IH]; intros m e H; simpl in *; [contradiction|].
  destruct (Z_ge_dec (Start c) m).
  - destruct H as [H|H]; [now left | right; now apply IH with (End c)].
  - right. now apply IH with m.
Qed.

Lemma spec_sweep_lower l : forall m e,
  Forall (fun c => Start c <= End c) l ->
  In e (spec_sweep m l) -> m <= Start e.
Proof.
  induction l as [|c t IH]; intros m e Hl H; simpl in *; [contradiction|].
  inversion Hl as [|? ? Hc Ht]; subst.
  destruct (Z_ge_dec (Start c) m).
  - destruct H as [H|H]; [subst; lia|].
    specialize (IH (End c) e Ht H). lia.
  - now apply IH.
Qed.

(** In the committed list every entity ends before the next one starts. *)
Lemma spec_sweep_chain l : forall m,
  Forall (fun c => Start c <= End c) l ->
  StronglySorted (fun a b => End a <= Start b) (spec_sweep m l).
Proof.
  induction l as [|c t IH]; intros m Hl; simpl; [constructor|].
  inversion Hl as [|? ? Hc Ht]; subst.
  destruct (Z_ge_dec (Start c) m).
  - constructor; [now apply IH|].
    apply Forall_forall. intros e He. now apply spec_sweep_lower with t.
  - now apply IH.
Qed.

Lemma StronglySorted_nth (A : Type) (R : A -> A -> Prop) (l : list A) :
  StronglySorted R l ->
  forall i j a b, (i < j)%nat -> nth_error l i = Some a ->
                  nth_error l j = Some b -> R a b.
Proof.
  induction 1 as [|x t Hs IH Hall]; intros i j a b Hij Ha Hb.
  - destruct i; discriminate.
  - destruct j as [|j]; [lia|]. simpl in Hb.
    destruct i as [|i]; simpl in Ha.
    + inversion Ha; subst. rewrite Forall_forall in Hall.
      apply Hall. now apply nth_error_In with j.
    + apply IH with i j; auto; lia.
Qed.

Section ResolverFacts.
Context {sorter : Sorter}.

(** [resolveOverlaps] on candidates whose offsets are not negative: the
    sweep over some ordering of the candidates that [less] accepts. *)
Lemma resolveOverlaps_sweep l :
  Forall (fun c => 0 <= Start c) l ->
  exists sorted, Permutation l sorted /\ in_order resolveLess sorted /\
                 resolveOverlaps l = spec_sweep 0 sorted.
Proof.
  intros Hl. unfold resolveOverlaps.
  destruct (length l <=? 1)%nat eqn:Hlen.
  - exists l. split; [apply Permutation_refl|].
    apply Nat.leb_le in Hlen.
    destruct l as [|e [|e' t]]; simpl in Hlen; try lia.
    + split; constructor.
    + inversion Hl; subst. split; [repeat constructor|].
      simpl. destruct (Z_ge_dec (Start e) 0); [reflexivity | lia].
  - exists (Slice resolveLess l). split; [apply Slice_perm|].
    split; [apply Slice_in_order, resolveLess_strict_weak | apply sweep_spec].
Qed.

Lemma resolveOverlaps_incl l e : In e (resolveOverlaps l) -> In e l.
Proof.
  unfold resolveOverlaps. destruct (length l <=? 1)%nat; [auto|].
  rewrite sweep_spec. intros H. apply spec_sweep_incl in H.
  apply (Permutation_in e (Permutation_sym (Slice_perm resolveLess l))), H.
Qed.

Lemma resolveOverlaps_chain l :
  Forall (fun c => 0 <= Start c /\ Start c < End c) l ->
  StronglySorted (fun a b => End a <= Start b) (resolveOverlaps l).
Proof.
  intros Hl.
  destruct (resolveOverlaps_sweep (l := l)) as (sorted & Hp & _ & ->).
  - eapply Forall_impl; [|exact Hl]. simpl. tauto.
  - apply spec_sweep_chain.
    apply (Permutation_Forall Hp).
    eapply Forall_impl; [|exact Hl]. simpl. lia.
Qed.

(** The final sort of [recognize] leaves the resolved list as it is. *)
Lemma final_sort_id l :
  Forall (fun c => 0 <= Start c /\ Start c < End c) l ->
  Slice startLess (resolveOverlaps l) = resolveOverlaps l.
Proof.
  intros Hl. apply Slice_unique;
    [apply startLess_strict_weak | apply Permutation_refl |].
  pose proof (resolveOverlaps_chain Hl) as Hc.
  assert (Hin : Forall (fun c => Start c < End c) (resolveOverlaps l)).
  { apply Forall_forall. intros e He. apply resolveOverlaps_incl in He.
    rewrite Forall_forall in Hl. now apply Hl. }
  revert Hc Hin. generalize (resolveOverlaps l). intros r Hc.
  induction Hc as [|x t Hs IH Hall]; intros Hin; constructor.
  - apply IH. now inversion Hin.
  - inversion Hin as [|? ? Hx Ht]; subst.
    rewrite Forall_forall in *. intros y Hy. unfold startLess.
    apply Z.ltb_lt. specialize (Hall y Hy). lia.
Qed.

End ResolverFacts.

(* ================================================================== *)
(** * The matchers *)
(* ================================================================== *)

Lemma allMatches_inv r s a st' :
  In (a, st') (allMatches r s) ->
  exists pre w,
    s = pre ++ w ++ rest st' /\ a = length pre /\
    pos st' = (length pre + length w)%nat /\ (min_len r <= length w)%nat /\
    matches r (st_at pre (w ++ rest st')) st'.
Proof.
  intros H. apply allMatches_sound in H.
  destruct H as (pre & post & -> & -> & He).
  apply exec_sound in He.
  destruct (matches_advance _ _ _ He) as (w & Hr & Hp & _ & Hl).
  simpl in Hr, Hp. exists pre, w. subst post. auto.
Qed.

Ltac inv_matches H :=
  simpl in H;
  repeat match goal with
  | H : exists _, _ |- _ => destruct H
  | H : _ /\ _ |- _ => destruct H
  | H : _ \/ _ |- _ => destruct H
  | H : ?x = MState _ _ _ _ |- _ => subst x; simpl in *
  | H : ?x = set_cap _ _ _ _ |- _ => subst x; simpl in *
  | H : ?x = ?y |- _ => is_var x; is_var y; subst x; simpl in *
  | H : ?x = _ :: _ |- _ => is_var x; subst x; simpl in *
  | H : ?x = _ ++ _ |- _ => is_var x; subst x; simpl in *
  | H : byte_is _ _ = true |- _ => apply Ascii.eqb_eq in H; subst; simpl in *
  end.

Lemma slice_mid (pre w post : bytes) :
  slice (pre ++ w ++ post) (Z.of_nat (length pre))
        (Z.of_nat (length pre + length w)) = w.
Proof.
  unfold slice. rewrite Nat2Z.id.
  replace (Z.to_nat (Z.of_nat (length pre + length w) - Z.of_nat (length pre)))
    with (length w) by lia.
  rewrite skipn_app, skipn_all, Nat.sub_diag. simpl.
  rewrite firstn_app, firstn_all, Nat.sub_diag. simpl. apply app_nil_r.
Qed.

Lemma len_app (u v : bytes) : len (u ++ v) = len u + len v.
Proof. unfold len. rewrite length_app. lia. Qed.

(** An entity over a whole match of a pattern that cannot match the
    empty string satisfies the data-model invariant. *)
Lemma whole_faithful r s ty m :
  (0 < min_len r)%nat -> In m (FindAllStringIndex r s) ->
  faithful s (whole s ty m).
Proof.
  intros Hmin Hin. unfold FindAllStringIndex in Hin.
  apply in_map_iff in Hin. destruct Hin as ([a st'] & <- & Hin).
  apply allMatches_inv in Hin.
  destruct Hin as (pre & w & Hs & Ha & Hp & Hl & _).
  unfold faithful, whole. simpl. rewrite Hp, Ha.
  repeat split; try lia.
  rewrite Hs, !len_app. unfold len. lia.
Qed.

(** ** [strings.TrimRight] *)

Lemma trimRight_rev_suffix cs (r : bytes) :
  exists d, r = d ++ trimRight_rev cs r /\ forallb (contains cs) d = true.
Proof.
  induction r as [|c t IH]; simpl.
  - exists []. auto.
  - destruct (contains cs c) eqn:Hc.
    + destruct IH as (d & Hd & Hall). exists (c :: d). simpl.
      rewrite Hc, Hall. split; [now f_equal | reflexivity].
    + exists []. auto.
Qed.

(** The trimmed text is a prefix of the text; what is cut off lies in
    the cutset. *)
Lemma TrimRight_prefix (w cs : bytes) :
  exists tail, w = TrimRight w cs ++ tail /\ forallb (contains cs) tail = true.
Proof.
  unfold TrimRight.
  destruct (trimRight_rev_suffix cs (rev w)) as (d & Hd & Hall).
  exists (rev d). split.
  - rewrite <- rev_app_distr, <- Hd. now rewrite rev_involutive.
  - rewrite forallb_forall in *. intros x Hx. apply Hall. now apply in_rev.
Qed.

(** Trimming stops at a byte outside the cutset. *)
Lemma TrimRight_stops (w cs : bytes) :
  match rev (TrimRight w cs) with
  | c :: _ => contains cs c = false
  | [] => True
  end.
Proof.
  unfold TrimRight. rewrite rev_involutive.
  induction (rev w) as [|c t IH]; simpl; [exact I|].
  destruct (contains cs c) eqn:Hc; [exact IH | exact Hc].
Qed.

Lemma trimRight_rev_keeps cs c (l : bytes) :
  contains cs c = false ->
  exists l', trimRight_rev cs (l ++ [c]) = l' ++ [c].
Proof.
  intros Hc. induction l as [|x t IH]; simpl.
  - rewrite Hc. now exists [].
  - destruct (contains cs x).
    + exact IH.
    + now exists (x :: t).
Qed.

(** A first byte outside the cutset is never trimmed. *)
Lemma TrimRight_keeps_head (w cs : bytes) c :
  contains cs c = false -> exists t, TrimRight (c :: w) cs = c :: t.
Proof.
  intros Hc. unfold TrimRight. simpl.
  destruct (trimRight_rev_keeps cs c (rev w) Hc) as (l' & ->).
  rewrite rev_app_distr. simpl. now exists (rev l').
Qed.

(** ** URLs *)

Lemma reURL_shape st st' :
  matches reURL st st' ->
  exists w, url_match url_char w /\ rest st = w ++ rest st'.
Proof.
  intros H. unfold reURL in H. inv_matches H.
  - exists (B "https://" ++ x7 :: x5). split.
    + exists (B "https"), (x7 :: x5). simpl. rewrite H6, H4.
      repeat split; auto. discriminate.
    + rewrite H. reflexivity.
  - exists (B "http://" ++ x7 :: x5). split.
    + exists (B "http"), (x7 :: x5). simpl. rewrite H6, H4.
      repeat split; auto. discriminate.
    + rewrite H. reflexivity.
Qed.

Lemma url_match_head ok w : url_match ok w -> exists t, w = "h"%char :: t.
Proof.
  intros (scheme & body & [-> | ->] & _ & _ & ->); simpl; eauto.
Qed.

Lemma matchURL_entity s e :
  In e (matchURL s) ->
  url_entity_of url_char s e /\ faithful s e /\ Type_ e = URL /\ Labeled e = false.
Proof.
  intros Hin. unfold matchURL, FindAllStringIndex in Hin.
  rewrite map_map in Hin. apply in_map_iff in Hin.
  destruct Hin as ([a st'] & <- & Hin).
  apply allMatches_inv in Hin.
  destruct Hin as (pre & w & Hs & Ha & Hp & _ & Hm).
  apply reURL_shape in Hm. destruct Hm as (w0 & Hw0 & Hr). simpl in Hr.
  apply app_inv_tail in Hr. subst w0.
  unfold url_entity. simpl fst. simpl snd. rewrite Hp, Ha, Hs, slice_mid.
  destruct (TrimRight_prefix w url_cutset) as (tail & Hw & Htail).
  pose proof (TrimRight_stops w url_cutset) as Hstop.
  destruct (url_match_head Hw0) as (t & Ht).
  assert (Hne : 0 < len (TrimRight w url_cutset)).
  { rewrite Ht.
    destruct (@TrimRight_keeps_head t url_cutset "h"%char eq_refl) as (t' & ->).
    unfold len. simpl. lia. }
  assert (Hlen : len w = len (TrimRight w url_cutset) + len tail)
    by (rewrite Hw at 1; apply len_app).
  set (text := TrimRight w url_cutset) in *.
  assert (Hend : Z.of_nat (length pre) + len text
                 = Z.of_nat (length pre + length text))
    by (unfold len; lia).
  split; [|split; [|split; reflexivity]].
  - exists w, tail. simpl.
    replace (Z.of_nat (length pre) + len w)
      with (Z.of_nat (length pre + length w)) by (unfold len; lia).
    rewrite slice_mid. repeat split; auto.
    + rewrite !len_app. unfold len. lia.
    + unfold len in *. lia.
  - unfold faithful. simpl. repeat split; try lia.
    + rewrite !len_app. unfold len in *. lia.
    + rewrite Hend. rewrite Hw at 1. rewrite <- app_assoc.
      now rewrite slice_mid.
Qed.

(** ** Labeled FIN codes *)

Lemma Rep_fin_chars n : forall st st',
  matches (Rep n fin_char_ci) st st' ->
  exists chars,
    length chars = n /\ Forall fin_char chars /\
    rest st = concat chars ++ rest st' /\
    pos st' = (pos st + length (concat chars))%nat /\
    prev st' = last_opt (prev st) (concat chars) /\
    caps st' = caps st.
Proof.
  induction n as [|n IH]; intros st st' H.
  - simpl in H. subst. exists []. simpl. repeat split; auto.
  - destruct H as (st1 & H1 & H2). apply IH in H2.
    destruct H2 as (chars & Hlen & Hall & Hr & Hp & Hv & Hc).
    assert (Hch : exists ch, fin_char ch /\ rest st = ch ++ rest st1 /\
                  pos st1 = (pos st + length ch)%nat /\
                  prev st1 = last_opt (prev st) ch /\ caps st1 = caps st).
    { unfold fin_char_ci, long_s, kelvin_sign in H1. inv_matches H1.
      - exists [x]. repeat split; auto; [left; eauto | simpl; lia].
      - exists long_s. repeat split; auto; simpl; [right; left; auto | lia].
      - exists kelvin_sign. repeat split; auto; simpl; [right; right; auto | lia]. }
    destruct Hch as (ch & Hch & Hr1 & Hp1 & Hv1 & Hc1).
    exists (ch :: chars). simpl. rewrite length_app, last_opt_app, <- app_assoc.
    rewrite Hr1, Hr, Hp, Hp1, Hv, Hv1, Hc, Hc1, Hlen.
    repeat split; auto. lia.
Qed.

Lemma reFINLabeled_shape st st' :
  matches reFINLabeled st st' ->
  exists kw sep code,
    rest st = kw ++ sep ++ code ++ rest st' /\
    is_fin_keyword kw = true /\ is_separator sep = true /\
    fin_code_ci code /\
    xorb (word_opt (prev st)) (word_opt (hd_error kw)) = true /\
    xorb (word_opt (last_opt (last_opt (prev st) (kw ++ sep)) code))
         (word_opt (hd_error (rest st'))) = true /\
    caps st' = (1, (pos st + length (kw ++ sep),
                    pos st + length (kw ++ sep ++ code)))%nat :: caps st /\
    pos st' = (pos st + length (kw ++ sep ++ code))%nat.
Proof.
  intros H. unfold reFINLabeled, CI in H.
  remember (Rep 7 fin_char_ci) as R eqn:HR.
  inv_matches H;
    match goal with
    | Hm : matches R _ ?x |- _ =>
        rewrite HR in Hm; apply (Rep_fin_chars 7) in Hm;
        destruct Hm as (chars & Hlen & Hall & Hr & Hp & Hv & Hc);
        simpl in Hr, Hp, Hv, Hc
    end;
    match goal with
    | Hb : at_word_boundary (set_cap _ _ _ _) = true |- _ =>
        unfold at_word_boundary in Hb; simpl in Hb; rewrite Hv in Hb
    end;
    unfold at_word_boundary in H.
  - match goal with
    | Hs : rest st = ?f :: ?i :: ?n :: ?c :: ?w :: _ |- _ =>
        exists [f; i; n], [c; w], (concat chars); rewrite Hs in *
    end.
    simpl. rewrite Hr, Hp, Hc.
    repeat match goal with Hx : _ = true |- _ => rewrite Hx end.
    repeat split; auto.
    + exists chars. auto.
    + repeat f_equal; lia.
    + lia.
  - match goal with
    | Hs : rest st = ?f :: ?i :: ?n :: ?c :: _ |- _ =>
        exists [f; i; n], [c], (concat chars); rewrite Hs in *
    end.
    simpl. rewrite Hr, Hp, Hc.
    repeat match goal with Hx : _ = true |- _ => rewrite Hx end.
    repeat split; auto.
    + exists chars. auto.
    + repeat f_equal; lia.
    + lia.
Qed.

Lemma reFINLabeled_cap st st' :
  matches reFINLabeled st st' ->
  exists a b, caps st' = (1%nat, (a, b)) :: caps st /\
              (pos st <= a /\ a < b /\ b <= pos st')%nat.
Proof.
  intros H. apply reFINLabeled_shape in H.
  destruct H as (kw & sep & code & _ & _ & _ & Hcode & _ & _ & Hc & Hp).
  do 2 eexists. split; [exact Hc|].
  rewrite Hp, !length_app.
  destruct Hcode as (chars & Hlen & Hall & ->).
  destruct chars as [|ch chars]; [discriminate|].
  inversion Hall as [|? ? Hch _]; subst. simpl. rewrite length_app.
  assert (0 < length ch)%nat
    by (destruct Hch as [(b & -> & _)|[-> | ->]]; simpl; lia).
  lia.
Qed.

(** ** Labeled VOEN codes *)

Lemma reVOENLabeled_cap st st' :
  matches reVOENLabeled st st' ->
  exists a b, caps st' = (1%nat, (a, b)) :: caps st /\
              (pos st <= a /\ a < b /\ b <= pos st')%nat.
Proof.
  intros H.
  unfold reVOENLabeled, voen_o_ci, o_umlaut_upper, o_umlaut_lower, CI in H.
  inv_matches H; do 2 eexists; (split; [reflexivity | lia]).
Qed.

(** An entity over capture group 1 of a pattern whose every match sets
    the group to a non-empty range satisfies the data-model invariant. *)
Lemma captured_faithful r s ty sub :
  num_groups r = 1%nat ->
  (forall st st', matches r st st' ->
     exists a b, caps st' = (1%nat, (a, b)) :: caps st /\
                 (pos st <= a /\ a < b /\ b <= pos st')%nat) ->
  In sub (FindAllStringSubmatchIndex r s) ->
  faithful s (captured s ty sub).
Proof.
  intros Hng Hcap Hin. unfold FindAllStringSubmatchIndex in Hin.
  apply in_map_iff in Hin. destruct Hin as ([a0 st'] & <- & Hin).
  apply allMatches_inv in Hin.
  destruct Hin as (pre & w & Hs & Ha & Hp & _ & Hm).
  apply Hcap in Hm. destruct Hm as (a & b & Hc & Hle). simpl in Hc, Hle.
  unfold submatch_row, captured, faithful, idx. rewrite Hng. simpl.
  unfold group_index. rewrite Hc. simpl.
  repeat split; try lia.
  rewrite Hs, !len_app. unfold len. lia.
Qed.

(** ** Every candidate satisfies the data-model invariant *)
Lemma candidates_faithful s e : In e (candidates s) -> faithful s e.
Proof.
  unfold candidates, matchEmail, matchIBAN, matchLicensePlate, matchPhone,
    matchFIN, matchVOEN.
  intros H.
  repeat (apply in_app_or in H; destruct H as [H|H]);
    try (apply in_map_iff in H; destruct H as (m & <- & H)).
  - apply matchURL_entity. unfold matchURL. now apply in_map.
  - apply whole_faithful with reEmail; [vm_compute; lia | exact H].
  - apply whole_faithful with reIBAN; [vm_compute; lia | exact H].
  - apply whole_faithful with reLicensePlate; [vm_compute; lia | exact H].
  - apply whole_faithful with rePhoneIntl; [vm_compute; lia | exact H].
  - apply whole_faithful with rePhoneLocal; [vm_compute; lia | exact H].
  - apply captured_faithful with reFINLabeled;
      [reflexivity | apply reFINLabeled_cap | exact H].
  - apply whole_faithful with reFINBare; [vm_compute; lia | exact H].
  - apply captured_faithful with reVOENLabeled;
      [reflexivity | apply reVOENLabeled_cap | exact H].
  - apply whole_faithful with reVOENBare; [vm_compute; lia | exact H].
Qed.

Lemma app_prefix_firstn (A : Type) (v x w y : list A) :
  v ++ x = w ++ y -> (length v <= length w)%nat -> v = firstn (length v) w.
Proof.
  revert w. induction v as [|c v IH]; intros w He Hl; [reflexivity|].
  destruct w as [|d w]; simpl in Hl; [lia|].
  simpl in He. inversion He; subst. simpl. f_equal.
  apply IH; [assumption | lia].
Qed.

(** ** Word-bounded runs of one class *)

Section BareRuns.
Variable p : byte -> bool.
Hypothesis p_word : forall c, p c = true -> isWordChar c = true.

Lemma run_Rep_Cls k post cs (w : bytes) : forall i pv,
  forallb p w = true ->
  run (Rep (length w) (Cls p)) k (MState (w ++ post) i pv cs)
  = k (MState post (i + length w) (last_opt pv w) cs).
Proof.
  induction w as [|c w IH]; intros i pv Hw; simpl.
  - now rewrite Nat.add_0_r.
  - simpl in Hw. apply andb_true_iff in Hw. destruct Hw as [Hc Hw].
    rewrite Hc, IH by exact Hw.
    now replace (S i + length w)%nat with (i + S (length w))%nat by lia.
Qed.

Lemma matches_Rep_Cls n : forall st st',
  matches (Rep n (Cls p)) st st' ->
  exists w, length w = n /\ forallb p w = true /\
            rest st = w ++ rest st' /\ pos st' = (pos st + n)%nat.
Proof.
  induction n as [|n IH]; intros st st' H.
  - simpl in H. subst. exists []. simpl. repeat split; auto.
  - destruct H as (st1 & (c & t & Hr & Hc & ->) & H2).
    apply IH in H2. destruct H2 as (w & Hl & Hw & Hr2 & Hp). simpl in *.
    exists (c :: w). simpl. rewrite Hc, Hw, Hl, Hr, Hr2, Hp.
    repeat split; auto; lia.
Qed.

Lemma word_last pv (v : bytes) :
  v <> [] -> forallb p v = true -> word_opt (last_opt pv v) = true.
Proof.
  revert pv. induction v as [|c v IH]; intros pv Hne Hv; [contradiction|].
  simpl in Hv. apply andb_true_iff in Hv. destruct Hv as [Hc Hv].
  destruct v as [|d v'].
  - simpl. now apply p_word.
  - change (last_opt pv (c :: d :: v')) with (last_opt (Some c) (d :: v')).
    apply IH; [discriminate | exact Hv].
Qed.

Lemma word_head (w post : bytes) :
  w <> [] -> forallb p w = true -> word_opt (hd_error (w ++ post)) = true.
Proof.
  destruct w as [|c w]; intros Hne Hw; [contradiction|].
  simpl in *. apply andb_true_iff in Hw. now apply p_word.
Qed.

(** A run of [n] bytes of the class between two places that are not
    word bytes is a match of [\b[class]{n}\b], and it is delivered. *)
Lemma bare_run_found (pre w post : bytes) :
  w <> [] -> forallb p w = true ->
  word_opt (last_opt None pre) = false ->
  word_opt (hd_error post) = false ->
  In (Z.of_nat (length pre), Z.of_nat (length pre + length w))
     (FindAllStringIndex (WordB ;; Rep (length w) (Cls p) ;; WordB)
                         (pre ++ w ++ post)).
Proof.
  intros Hne Hw Hl Hr.
  set (r := WordB ;; Rep (length w) (Cls p) ;; WordB).
  set (st' := MState post (length pre + length w) (last_opt None (pre ++ w)) []).
  assert (He : exec r (st_at pre (w ++ post)) = Some st').
  { unfold exec, r, st_at. simpl.
    unfold at_word_boundary at 1. simpl.
    rewrite Hl, (word_head post Hne Hw). simpl.
    rewrite run_Rep_Cls by exact Hw. simpl.
    unfold at_word_boundary. simpl.
    rewrite (word_last _ Hne Hw), Hr. simpl.
    unfold st'. now rewrite last_opt_app. }
  assert (Hin : In (length pre, st') (allMatches r (pre ++ w ++ post))).
  { apply allMatches_complete; [exact He | | ].
    - simpl. destruct w; [contradiction | simpl; lia].
    - intros u v st1 Hpre Hv He1. apply exec_sound in He1.
      destruct He1 as (s1 & [_ ->] & s2 & Hrep & [_ ->]).
      apply matches_Rep_Cls in Hrep.
      destruct Hrep as (w1 & Hlen & Hw1 & Hrest & Hpos). simpl in *.
      rewrite Hpos, Hpre, length_app.
      destruct (le_lt_dec (length w) (length v)) as [Hle|Hlt]; [lia|].
      exfalso.
      assert (Hv1 : v = firstn (length v) w1)
        by (apply app_prefix_firstn with (w ++ post) (rest s2); [exact Hrest | lia]).
      assert (Hvw : forallb p v = true).
      { rewrite Hv1. rewrite forallb_forall in *. intros x Hx.
        apply Hw1. rewrite <- (firstn_skipn (length v) w1).
        apply in_or_app. now left. }
      rewrite Hpre, last_opt_app, (word_last _ Hv Hvw) in Hl. discriminate. }
  unfold FindAllStringIndex.
  apply in_map_iff. exists (length pre, st'). split; [reflexivity | exact Hin].
Qed.

End BareRuns.

Lemma left_context_nonword pre :
  left_context pre -> word_opt (last_opt None pre) = false.
Proof.
  intros [|p L HL|p c Hc].
  - reflexivity.
  - rewrite last_opt_app. simpl in HL.
    repeat (destruct HL as [<-|HL]; [reflexivity|]). contradiction.
  - now rewrite last_opt_snoc.
Qed.

Lemma right_context_nonword post :
  right_context post -> word_opt (hd_error post) = false.
Proof.
  intros [|L q HL|c q Hc].
  - reflexivity.
  - simpl in HL.
    repeat (destruct HL as [<-|HL]; [reflexivity|]). contradiction.
  - exact Hc.
Qed.

Lemma is_digit_word c : is_digit c = true -> isWordChar c = true.
Proof.
  unfold isWordChar. intros ->. now rewrite !orb_true_r.
Qed.

Lemma fin_class_word c : fin_class c = true -> isWordChar c = true.
Proof.
  destruct c as [[] [] [] [] [] [] [] []]; vm_compute; congruence.
Qed.

(** ** Where labeled FIN codes are found *)

Lemma is_F_not_after c : is_F c = true -> after_F c = false.
Proof. destruct c as [[] [] [] [] [] [] [] []]; vm_compute; congruence. Qed.

Lemma is_F_word c : is_F c = true -> isWordChar c = true.
Proof. destruct c as [[] [] [] [] [] [] [] []]; vm_compute; congruence. Qed.

Lemma is_I_word c : is_I c = true -> isWordChar c = true.
Proof. destruct c as [[] [] [] [] [] [] [] []]; vm_compute; congruence. Qed.

Lemma fin_class_ci_not_I c : fin_class_ci c = true -> is_I c = false.
Proof. destruct c as [[] [] [] [] [] [] [] []]; vm_compute; congruence. Qed.

Lemma fin_class_not_space c : fin_class c = true -> is_space c = false.
Proof. destruct c as [[] [] [] [] [] [] [] []]; vm_compute; congruence. Qed.

Lemma fin_class_ci_of c : fin_class c = true -> fin_class_ci c = true.
Proof. unfold fin_class_ci. now intros ->. Qed.

Lemma fin_code_no_I chars :
  Forall fin_char chars -> forall b, In b (concat chars) -> is_I b = false.
Proof.
  induction 1 as [|ch chars Hch _ IH]; intros b Hb; simpl in Hb; [contradiction|].
  apply in_app_or in Hb. destruct Hb as [Hb|Hb]; [|now apply IH].
  destruct Hch as [(c & -> & Hc)|[-> | ->]]; simpl in Hb.
  - destruct Hb as [<-|[]]. now apply fin_class_ci_not_I.
  - repeat (destruct Hb as [<-|Hb]; [reflexivity|]). contradiction.
  - repeat (destruct Hb as [<-|Hb]; [reflexivity|]). contradiction.
Qed.

Lemma keyword_separator_bytes kw sep :
  is_fin_keyword kw = true -> is_separator sep = true ->
  exists f r, kw ++ sep = f :: r /\ is_F f = true /\ forallb after_F r = true /\
              (4 <= length (kw ++ sep))%nat.
Proof.
  intros Hk Hs.
  destruct kw as [|f [|i [|n [|? ?]]]]; try discriminate.
  simpl in Hk. apply andb_true_iff in Hk. destruct Hk as [Hk Hn].
  apply andb_true_iff in Hk. destruct Hk as [Hf Hi].
  exists f. eexists. split; [reflexivity|]. split; [exact Hf|].
  unfold after_F, is_I, is_N.
  destruct sep as [|c [|w [|? ?]]]; try discriminate; simpl in Hs |- *.
  - rewrite Hi, Hn, Hs. simpl. rewrite !orb_true_r. split; [reflexivity | lia].
  - apply andb_true_iff in Hs. destruct Hs as [Hc Hw].
    rewrite Hi, Hn, Hc, Hw. simpl. rewrite !orb_true_r. split; [reflexivity | lia].
Qed.

(** A labeled match never reaches beyond the start of a later keyword:
    the keyword holds an [I], which no code holds, and between a code
    and a keyword right after it there is no word boundary. *)
Lemma labeled_fin_no_overlap u v f i tail st1 :
  v <> [] -> is_F f = true -> is_I i = true ->
  exec reFINLabeled (st_at u (v ++ f :: i :: tail)) = Some st1 ->
  (pos st1 <= length u + length v)%nat.
Proof.
  intros Hv Hf Hi He. apply exec_sound, reFINLabeled_shape in He.
  destruct He as (kw & sep & code & Hr & Hk & Hs & Hcode & _ & Hb & _ & Hp).
  simpl in Hr, Hp. rewrite Hp.
  destruct Hcode as (chars & Hlen & Hall & Hcode).
  pose proof (fin_code_no_I Hall) as HnoI. rewrite <- Hcode in HnoI.
  assert (Hsuffix : forall l l2, code = l ++ l2 -> l2 <> [] ->
            f :: i :: tail = l2 ++ rest st1 -> False).
  { intros l l2 Hc Hne Heq.
    destruct l2 as [|x [|y l2]]; [contradiction| |].
    - simpl in Heq. inversion Heq as [[Hx Hrest]]. subst x.
      rewrite Hc, last_opt_snoc, <- Hrest in Hb. simpl in Hb.
      rewrite (is_F_word _ Hf), (is_I_word _ Hi) in Hb. discriminate.
    - simpl in Heq. inversion Heq; subst x y.
      rewrite (HnoI i) in Hi; [discriminate|].
      rewrite Hc. apply in_or_app. right. simpl. auto. }
  rewrite (app_assoc kw sep) in Hr.
  apply app_eq_app in Hr. destruct Hr as (l & [[Hv1 Hr]|[Hv1 Hr]]).
  - (* the keyword and separator of the match lie within [v] *)
    rewrite Hv1, !length_app.
    apply app_eq_app in Hr. destruct Hr as (l2 & [[Hc Hr]|[Hc Hr]]).
    + destruct l2 as [|x l2].
      * rewrite app_nil_r in Hc. subst l. lia.
      * exfalso. apply (Hsuffix l (x :: l2)); auto. discriminate.
    + rewrite Hc, length_app. lia.
  - (* [v] ends within the keyword and separator of the match *)
    exfalso.
    destruct (keyword_separator_bytes _ _ Hk Hs) as (f0 & r & HP & _ & Hr0 & _).
    rewrite HP in Hv1.
    destruct l as [|x l].
    + simpl in Hr. apply (Hsuffix [] code); auto.
      subst code. destruct chars as [|ch chars]; [discriminate|].
      inversion Hall as [|? ? Hch _]; subst.
      destruct Hch as [(b & -> & _)|[-> | ->]]; discriminate.
    + simpl in Hr. inversion Hr; subst x.
      destruct v as [|a v]; [contradiction|].
      simpl in Hv1. inversion Hv1; subst.
      rewrite forallb_forall in Hr0.
      pose proof (is_F_not_after f Hf) as Hnot.
      rewrite (Hr0 f) in Hnot; [discriminate|].
      apply in_or_app. right. now left.
Qed.

Lemma run_fin_char_ci k c t i pv cs res :
  fin_class c = true ->
  k (MState t (S i) (Some c) cs) = Some res ->
  run fin_char_ci k (MState (c :: t) i pv cs) = Some res.
Proof.
  intros Hc Hk. unfold fin_char_ci. simpl.
  now rewrite (fin_class_ci_of _ Hc), Hk.
Qed.

Lemma run_Rep_fin k post cs res (w : bytes) : forall i pv,
  forallb fin_class w = true ->
  k (MState post (i + length w) (last_opt pv w) cs) = Some res ->
  run (Rep (length w) fin_char_ci) k (MState (w ++ post) i pv cs) = Some res.
Proof.
  induction w as [|c w IH]; intros i pv Hw Hk.
  - simpl in *. now rewrite Nat.add_0_r in Hk.
  - simpl in Hw. apply andb_true_iff in Hw. destruct Hw as [Hc Hw].
    change (run fin_char_ci (run (Rep (length w) fin_char_ci) k)
                (MState (c :: w ++ post) i pv cs) = Some res).
    apply run_fin_char_ci; [exact Hc|].
    apply IH; [exact Hw|].
    simpl in Hk. now replace (S i + length w)%nat with (i + S (length w))%nat by lia.
Qed.

Lemma last_opt_nonempty pv pv' (w : bytes) :
  w <> [] -> last_opt pv w = last_opt pv' w.
Proof.
  destruct w as [|c w]; [contradiction | reflexivity].
Qed.

Lemma labeled_fin_exec pre kw sep code post :
  is_fin_keyword kw = true -> is_separator sep = true ->
  length code = 7%nat -> forallb fin_class code = true ->
  boundary pre kw -> boundary code post ->
  exec reFINLabeled (st_at pre (kw ++ sep ++ code ++ post))
  = Some (MState post (length pre + length (kw ++ sep ++ code))
                 (last_opt None code)
                 [(1, (length pre + length (kw ++ sep),
                       length pre + length (kw ++ sep ++ code)))%nat]).
Proof.
  intros Hk Hs Hlen Hcode Hb1 Hb2.
  destruct kw as [|f [|i [|n [|? ?]]]]; try discriminate.
  simpl in Hk. apply andb_true_iff in Hk. destruct Hk as [Hk Hn].
  apply andb_true_iff in Hk. destruct Hk as [Hf Hi].
  unfold boundary in Hb1, Hb2. simpl in Hb1.
  rewrite (is_F_word f Hf) in Hb1.
  destruct (word_opt (last_opt None pre)) eqn:Hpre; [discriminate|].
  assert (Hne : code <> []) by (destruct code; discriminate).
  rewrite (@word_last fin_class fin_class_word None code Hne Hcode) in Hb2.
  destruct (word_opt (hd_error post)) eqn:Hpost; [discriminate|].
  unfold exec, reFINLabeled, CI, st_at.
  remember (Rep 7 fin_char_ci) as R eqn:HR.
  destruct sep as [|c [|w [|? ?]]]; try discriminate; simpl in Hs.
  - (* one separator byte: the optional whitespace reads nothing *)
    simpl. unfold at_word_boundary at 1. simpl.
    rewrite Hpre, (is_F_word f Hf), Hf, Hi, Hn, Hs. simpl.
    destruct code as [|c1 code']; [contradiction|].
    assert (Hc1 : is_space c1 = false).
    { simpl in Hcode. apply andb_true_iff in Hcode.
      now apply fin_class_not_space. }
    simpl app. cbv iota. rewrite Hc1.
    rewrite HR, <- Hlen.
    apply (run_Rep_fin _ post [] (c1 :: code')); [exact Hcode|].
    pose proof (@word_last fin_class fin_class_word (Some c) _ Hne Hcode) as Hw1.
    unfold at_word_boundary, set_cap. simpl in Hw1 |- *.
    rewrite Hw1, Hpost. simpl.
    f_equal. f_equal; try lia. repeat f_equal; lia.
  - (* two separator bytes: the optional whitespace reads the second *)
    apply andb_true_iff in Hs. destruct Hs as [Hs Hw].
    simpl. unfold at_word_boundary at 1. simpl.
    rewrite Hpre, (is_F_word f Hf), Hf, Hi, Hn, Hs, Hw. simpl.
    assert (Hrun : forall k res,
      k (MState post (S (S (S (S (S (length pre))))) + length code)
                (last_opt (Some w) code) []) = Some res ->
      run R k (MState (code ++ post) (S (S (S (S (S (length pre))))))
                      (Some w) []) = Some res).
    { intros k res Hkr. rewrite HR, <- Hlen. now apply run_Rep_fin. }
    erewrite Hrun; [reflexivity|].
    pose proof (@word_last fin_class fin_class_word (Some w) _ Hne Hcode) as Hw1.
    unfold at_word_boundary, set_cap. simpl.
    rewrite Hw1, Hpost. simpl.
    f_equal. f_equal; try lia.
    + now apply last_opt_nonempty.
    + repeat f_equal; lia.
Qed.


(* ================================================================== *)
(** * The claims *)
(* ================================================================== *)

Lemma spec_sweep_app pre : forall m post,
  spec_sweep m (pre ++ post)
  = spec_sweep m pre ++ spec_sweep (max_end m pre) post.
Proof.
  induction pre as [|c t IH]; intros m post; simpl; [reflexivity|].
  unfold max_end. simpl. destruct (Z_ge_dec (Start c) m).
  - rewrite IH. simpl. f_equal. f_equal. unfold max_end.
    destruct (rev (spec_sweep (End c) t)) eqn:Hr; simpl; [reflexivity|].
    reflexivity.
  - apply IH.
Qed.

Section Claims.
Context {sorter : Sorter}.

Lemma recognize_resolved s : recognize s = resolveOverlaps (candidates s).
Proof.
  unfold recognize. destruct (candidates s) as [|e t] eqn:Hc; [reflexivity|].
  simpl Nat.eqb. cbv iota. rewrite <- Hc. apply final_sort_id.
  apply Forall_forall. intros c Hin. apply candidates_faithful in Hin.
  destruct Hin as (? & ? & _). auto.
Qed.

Lemma candidates_positive s :
  Forall (fun c => 0 <= Start c /\ Start c < End c) (candidates s).
Proof.
  apply Forall_forall. intros c Hin. apply candidates_faithful in Hin.
  destruct Hin as (? & ? & _). auto.
Qed.

(** C1. For every input, no two entities of the result of [recognize]
    have intersecting ranges [[start,end)], and the result is sorted by
    start offset, ascending. *)
Theorem recognize_disjoint_sorted (s : bytes) :
  pairwise_disjoint (recognize s) /\ sorted_by_start (recognize s).
Proof.
  rewrite recognize_resolved.
  pose proof (resolveOverlaps_chain (candidates_positive s)) as Hc.
  assert (Hpos : forall e, In e (resolveOverlaps (candidates s)) ->
                           Start e < End e).
  { intros e He. apply resolveOverlaps_incl, candidates_faithful in He.
    destruct He as (_ & ? & _). auto. }
  split.
  - intros i j a b Hij Ha Hb (x & Hxa & Hxb).
    destruct (Nat.lt_total i j) as [Hlt|[Heq|Hgt]]; [|contradiction|].
    + pose proof (StronglySorted_nth Hc Hlt Ha Hb). simpl in *. lia.
    + pose proof (StronglySorted_nth Hc Hgt Hb Ha). simpl in *. lia.
  - intros i j a b Hij Ha Hb.
    pose proof (StronglySorted_nth Hc Hij Ha Hb) as Hab. simpl in Hab.
    pose proof (Hpos a (nth_error_In _ _ Ha)). lia.
Qed.

(** C2. For every input and every entity [e] of the result,
    [input[e.start:e.end]] is [e.text] and [e.start < e.end] (with
    [0 <= e.start] and [e.end <= len(input)]); URL entities, whose text
    was trimmed, are included. *)
Theorem recognize_faithful (s : bytes) (e : Entity) :
  In e (recognize s) -> faithful s e.
Proof.
  rewrite recognize_resolved. intros H.
  now apply candidates_faithful, resolveOverlaps_incl.
Qed.

(** C3. On candidates with offsets in range, [resolveOverlaps] is the
    sweep of the specification over an ordering of the candidates by
    start ascending, then length descending, then labeled first: with
    [maxEnd] initially 0, a candidate is committed exactly when its start
    is at least [maxEnd], which becomes its end; every other candidate,
    also one that ends beyond [maxEnd], is dropped and changes neither
    [maxEnd] nor what was committed. *)
Theorem resolveOverlaps_ranked_sweep (l : list Entity) :
  Forall in_range l ->
  exists sorted,
    Permutation l sorted /\
    StronglySorted composite_le sorted /\
    resolveOverlaps l = spec_sweep 0 sorted /\
    forall pre c post, sorted = pre ++ c :: post ->
      spec_sweep 0 sorted
      = spec_sweep 0 pre
        ++ (if Z_ge_dec (Start c) (max_end 0 pre)
            then c :: spec_sweep (End c) post
            else spec_sweep (max_end 0 pre) post).
Proof.
  intros Hl.
  destruct (resolveOverlaps_sweep (l := l)) as (sorted & Hp & Ho & Hr).
  { eapply Forall_impl; [|exact Hl]. unfold in_range. tauto. }
  exists sorted. repeat split; auto.
  - pose proof (Permutation_Forall Hp Hl) as Hs.
    clear Hr Hp. unfold in_order in Ho.
    induction Ho as [|x t Hst IH Hall]; constructor.
    + apply IH. now inversion Hs.
    + inversion Hs as [|? ? Hx Ht]; subst.
      rewrite Forall_forall in *. intros y Hy.
      apply resolveLess_composite; auto.
  - intros pre c post ->. rewrite spec_sweep_app. reflexivity.
Qed.

(** C6. [recognize] returns the empty result for the empty input, and
    whenever no matcher produces a candidate. *)
Theorem recognize_empty :
  recognize [] = [] /\ forall s, candidates s = [] -> recognize s = [].
Proof.
  split.
  - reflexivity.
  - intros s Hs. unfold recognize. now rewrite Hs.
Qed.

(** C10. For a non-empty list of candidates with offsets in range,
    [resolveOverlaps] returns a non-empty result whose first entity is a
    candidate that is first under the composite ordering (no candidate
    starts earlier; none with the same start is longer; none with the
    same start and length is labeled unless it is); any candidate that
    is first under that ordering has the same start, end and label as
    the committed one; and [recognize] returns a non-empty list whenever
    a matcher produces a candidate. *)
Theorem first_ranked_committed (l : list Entity) (s : bytes) :
  l <> [] -> Forall in_range l ->
  (resolveOverlaps l <> [] /\
   exists e, In e l /\ Forall (composite_le e) l /\
             hd_error (resolveOverlaps l) = Some e /\
             In e (resolveOverlaps l) /\
             forall c, In c l -> Forall (composite_le c) l ->
                       Start c = Start e /\ End c = End e /\
                       Labeled c = Labeled e) /\
  (candidates s <> [] -> recognize s <> []).
Proof.
  intros Hne Hl.
  assert (Hhead : forall l', l' <> [] -> Forall (fun c => 0 <= Start c) l' ->
    exists e t, Permutation l' (e :: t) /\ in_order resolveLess (e :: t) /\
                resolveOverlaps l' = e :: spec_sweep (End e) t).
  { intros l' Hne' Hl'.
    destruct (resolveOverlaps_sweep Hl') as (sorted & Hp & Ho & Hr).
    destruct sorted as [|e t].
    - apply Permutation_sym, Permutation_nil in Hp. contradiction.
    - exists e, t. repeat split; auto. rewrite Hr. simpl.
      assert (0 <= Start e).
      { rewrite Forall_forall in Hl'. apply Hl'.
        apply (Permutation_in e (Permutation_sym Hp)). now left. }
      destruct (Z_ge_dec (Start e) 0); [reflexivity | lia]. }
  split.
  - destruct (Hhead l Hne) as (e & t & Hp & Ho & Hr).
    { eapply Forall_impl; [|exact Hl]. unfold in_range. tauto. }
    rewrite Hr. split; [discriminate|].
    assert (Hin : In e l)
      by (apply (Permutation_in e (Permutation_sym Hp)); now left).
    assert (Hmin : Forall (composite_le e) l).
    { pose proof (Permutation_Forall Hp Hl) as Hs.
      apply (Permutation_Forall (Permutation_sym Hp)).
      inversion Hs as [|? ? He Ht]; subst.
      inversion Ho as [|? ? _ Hall]; subst.
      constructor.
      * right. split; [reflexivity|]. right. split; [reflexivity | auto].
      * rewrite Forall_forall in *. intros y Hy.
        apply resolveLess_composite; auto. }
    assert (Hsame : forall c, In c l -> Forall (composite_le c) l ->
              Start c = Start e /\ End c = End e /\ Labeled c = Labeled e).
    { intros c Hc Hcmin. rewrite Forall_forall in Hmin, Hcmin.
      pose proof (Hmin c Hc) as H1. pose proof (Hcmin e Hin) as H2.
      unfold composite_le, span in H1, H2.
      destruct (Labeled c), (Labeled e);
        repeat match goal with
        | H : _ \/ _ |- _ => destruct H
        | H : _ /\ _ |- _ => destruct H
        end; try lia;
        try (repeat split; (lia || reflexivity));
        exfalso;
        match goal with
        | H : true = true -> false = true |- _ =>
            specialize (H eq_refl); discriminate
        end. }
    exists e. simpl.
    split; [exact Hin|]. split; [exact Hmin|]. split; [reflexivity|].
    split; [now left | exact Hsame].
  - intros Hc. rewrite recognize_resolved.
    destruct (Hhead (candidates s) Hc) as (e & t & _ & _ & ->); [|discriminate].
    eapply Forall_impl; [|apply candidates_positive]. simpl. tauto.
Qed.

(** C4. On ["FIN: 5ARPXK2, tel +994501234567"] the result of
    [recognize] holds exactly one FIN entity, with text ["5ARPXK2"] and
    labeled, and exactly one Phone entity, with text ["+994501234567"] and
    not labeled. *)
Theorem recognize_fin_and_phone :
  let out := recognize (B "FIN: 5ARPXK2, tel +994501234567") in
  count_type FIN out = 1%nat /\
  (forall e, In e out -> Type_ e = FIN ->
             Text e = B "5ARPXK2" /\ Labeled e = true) /\
  count_type Phone out = 1%nat /\
  (forall e, In e out -> Type_ e = Phone ->
             Text e = B "+994501234567" /\ Labeled e = false).
Proof.
  set (s := B "FIN: 5ARPXK2, tel +994501234567").
  set (fin := mkEntity (B "5ARPXK2") 5 12 FIN true).
  set (bare := mkEntity (B "5ARPXK2") 5 12 FIN false).
  set (phone := mkEntity (B "+994501234567") 18 31 Phone false).
  assert (Hc : candidates s = [phone; fin; bare]) by (vm_compute; reflexivity).
  assert (Hs : Slice resolveLess [phone; fin; bare] = [fin; bare; phone]).
  { apply Slice_unique.
    - apply resolveLess_strict_weak.
    - apply (Permutation_cons_append [fin; bare] phone).
    - repeat constructor; vm_compute; reflexivity. }
  assert (Hout : recognize s = [fin; phone]).
  { rewrite recognize_resolved, Hc. unfold resolveOverlaps.
    simpl Nat.leb. cbv iota. rewrite Hs. vm_compute. reflexivity. }
  intros out. subst out. rewrite Hout.
  repeat split; try reflexivity;
    destruct H as [<-|[<-|[]]]; try reflexivity; discriminate.
Qed.

(** C5. On ["AZ21NABZ00000000137010001944"] the result of [recognize]
    holds exactly one IBAN entity, which spans the whole 28-byte string,
    and no FIN or VOEN entity. *)
Theorem recognize_iban :
  let s := B "AZ21NABZ00000000137010001944" in
  let out := recognize s in
  count_type IBAN out = 1%nat /\
  (forall e, In e out -> Type_ e = IBAN ->
             Start e = 0 /\ End e = 28 /\ Text e = s /\ len s = 28) /\
  count_type FIN out = 0%nat /\ count_type VOEN out = 0%nat.
Proof.
  intros s out.
  set (iban := mkEntity s 0 28 IBAN false).
  assert (Hc : candidates s = [iban]) by (vm_compute; reflexivity).
  assert (Hout : out = [iban]).
  { unfold out. rewrite recognize_resolved, Hc. reflexivity. }
  rewrite Hout. repeat split; try reflexivity;
    destruct H as [<-|[]]; reflexivity.
Qed.

(** C7, as amended.  Every URL entity is a match of [http://] or
    [https://] followed by one or more bytes other than tab, line feed,
    form feed, carriage return, space and the ten characters the
    pattern lists (angle brackets, double quote, braces, bar, backslash,
    caret, backquote) -- square brackets and
    parentheses are accepted --, with the trailing bytes drawn from
    [.,;:!?)]}>] removed from the entity's text and the end offset moved
    back by their number. *)
Theorem url_entities_shape (s : bytes) :
  url_claim url_char s /\
  forall e, In e (recognize s) -> Type_ e = URL -> url_entity_of url_char s e.
Proof.
  assert (H1 : url_claim url_char s)
    by (intros e He; now apply matchURL_entity).
  split; [exact H1|].
  intros e He Hty. apply H1.
  rewrite recognize_resolved in He. apply resolveOverlaps_incl in He.
  unfold candidates, matchEmail, matchIBAN, matchLicensePlate, matchPhone,
    matchFIN, matchVOEN in He.
  repeat (apply in_app_or in He; destruct He as [He|He]); auto;
    apply in_map_iff in He; destruct He as (m & <- & _); discriminate.
Qed.

(** C9. The word-boundary test is ASCII-only: no byte of an
    Azerbaijani letter outside ASCII is a word byte, so a 10-digit run or
    a 7-character code that stands between the start or end of the text,
    such letters or any other non-word bytes is matched by the bare VOEN
    or the bare FIN pattern, exactly as between punctuation. *)
Theorem az_letters_bound_words (pre run post : bytes) :
  left_context pre -> right_context post ->
  (forall L c, In L az_letters -> In c L -> isWordChar c = false) /\
  (length run = 10%nat -> forallb is_digit run = true ->
   In (mkEntity run (len pre) (len pre + 10) VOEN false)
      (matchVOEN (pre ++ run ++ post))) /\
  (length run = 7%nat -> forallb fin_class run = true ->
   In (mkEntity run (len pre) (len pre + 7) FIN false)
      (matchFIN (pre ++ run ++ post))).
Proof.
  intros Hl Hr.
  apply left_context_nonword in Hl. apply right_context_nonword in Hr.
  split; [|split].
  - intros L c HL Hc. simpl in HL.
    repeat (destruct HL as [<-|HL];
            [destruct Hc as [<-|[<-|[]]]; reflexivity|]).
    contradiction.
  - intros Hlen Hrun. unfold matchVOEN. apply in_or_app. right.
    assert (Hne : run <> []) by (destruct run; [discriminate | discriminate]).
    pose proof (@bare_run_found is_digit is_digit_word pre run post
                  Hne Hrun Hl Hr) as Hin.
    rewrite Hlen in Hin.
    apply in_map_iff. eexists. split; [|exact Hin].
    unfold whole. simpl. rewrite <- Hlen at 1. rewrite slice_mid.
    unfold len. f_equal. lia.
  - intros Hlen Hrun. unfold matchFIN. apply in_or_app. right.
    assert (Hne : run <> []) by (destruct run; [discriminate | discriminate]).
    pose proof (@bare_run_found fin_class fin_class_word pre run post
                  Hne Hrun Hl Hr) as Hin.
    rewrite Hlen in Hin.
    apply in_map_iff. eexists. split; [|exact Hin].
    unfold whole. simpl. rewrite <- Hlen at 1. rewrite slice_mid.
    unfold len. f_equal. lia.
Qed.

(** What a labeled match of [matchFIN] is, the code as the pattern
    reads it. *)
Lemma labeled_fin_match (s : bytes) (e : Entity) :
  In e (matchFIN s) -> Labeled e = true ->
  exists pre kw sep code post,
    s = pre ++ kw ++ sep ++ code ++ post /\
    is_fin_keyword kw = true /\ is_separator sep = true /\
    fin_code_ci code /\
    boundary pre kw /\ boundary code post /\
    Text e = code /\
    Start e = len (pre ++ kw ++ sep) /\
    End e = Start e + len code /\
    Type_ e = FIN /\ Labeled e = true.
Proof.
  intros Hin Hlab. unfold matchFIN in Hin.
  apply in_app_or in Hin. destruct Hin as [Hin|Hin].
  2:{ apply in_map_iff in Hin. destruct Hin as (m & <- & _). discriminate. }
  apply in_map_iff in Hin. destruct Hin as (sub & <- & Hin).
  unfold FindAllStringSubmatchIndex in Hin.
  apply in_map_iff in Hin. destruct Hin as ([a0 st'] & <- & Hin).
  apply allMatches_inv in Hin.
  destruct Hin as (pre & w & Hs & Ha & _ & _ & Hm).
  apply reFINLabeled_shape in Hm.
  destruct Hm as (kw & sep & code & Hr & Hk & Hsep & Hcode & Hb1 & Hb2 & Hc & Hp).
  simpl in Hr, Hb1, Hb2, Hc, Hp.
  assert (Hne : code <> []).
  { destruct Hcode as (chars & Hlen & Hall & ->).
    destruct chars as [|ch chars]; [discriminate|].
    inversion Hall as [|? ? Hch _]; subst.
    destruct Hch as [(b & -> & _)|[-> | ->]]; discriminate. }
  assert (Hs' : s = (pre ++ kw ++ sep) ++ code ++ rest st')
    by (rewrite Hs, Hr, <- !app_assoc; reflexivity).
  exists pre, kw, sep, code, (rest st').
  unfold captured, submatch_row, idx, group_index. simpl. rewrite Hc. simpl.
  repeat split; auto.
  - rewrite Hs'. now rewrite <- !app_assoc.
  - unfold boundary. now rewrite <- (last_opt_nonempty
                                    (last_opt (last_opt None pre) (kw ++ sep))
                                    None Hne).
  - replace (length pre + length (kw ++ sep))%nat
      with (length (pre ++ kw ++ sep)) by (rewrite !length_app; lia).
    replace (length pre + length (kw ++ sep ++ code))%nat
      with (length (pre ++ kw ++ sep) + length code)%nat
      by (rewrite !length_app; lia).
    rewrite Hs'. apply slice_mid.
  - unfold len. rewrite !length_app. lia.
  - unfold len. rewrite !length_app. lia.
Qed.

Lemma fin_chars_upper (chars : list bytes) :
  Forall fin_char chars -> forallb fin_class (concat chars) = true ->
  length (concat chars) = length chars.
Proof.
  induction 1 as [|ch chars Hch _ IH]; simpl; intros Hc; [reflexivity|].
  rewrite forallb_app in Hc. apply andb_true_iff in Hc. destruct Hc as [H1 H2].
  rewrite length_app, (IH H2).
  destruct Hch as [(b & -> & _)|[-> | ->]];
    [reflexivity | discriminate | discriminate].
Qed.

(** A code of the group that holds bytes of [[A-HJ-NP-Z0-9]] only is
    seven bytes long. *)
Lemma fin_code_upper (code : bytes) :
  fin_code_ci code -> forallb fin_class code = true -> length code = 7%nat.
Proof.
  intros (chars & Hlen & Hall & ->) Hc.
  now rewrite (fin_chars_upper Hall Hc).
Qed.

(** C8, as amended.  A labeled FIN entity with a code of seven bytes of
    [[A-HJ-NP-Z0-9]] is produced exactly where, after a word boundary,
    the keyword FIN in any letter case is followed by one [:] or
    whitespace byte, at most one more whitespace byte, and that code,
    with a word boundary after it; and the start, end and text of every
    labeled FIN entity cover what follows the keyword and the separator
    alone, never the keyword or the separator. *)
Theorem labeled_fin_places (s : bytes) :
  (forall e, forallb fin_class (Text e) = true ->
     (In e (matchFIN s) /\ Labeled e = true <-> labeled_fin_place s e)) /\
  (forall e, In e (matchFIN s) -> Labeled e = true -> labeled_fin_span s e).
Proof.
  assert (Hfound : forall pre kw sep code post,
     s = pre ++ kw ++ sep ++ code ++ post ->
     is_fin_keyword kw = true -> is_separator sep = true ->
     length code = 7%nat -> forallb fin_class code = true ->
     boundary pre kw -> boundary code post ->
     In (mkEntity code (len (pre ++ kw ++ sep)) (len (pre ++ kw ++ sep) + 7)
                  FIN true)
        (matchFIN s)).
  { intros pre kw sep code post -> Hk Hsep Hlen Hcode Hb1 Hb2.
    pose proof (@labeled_fin_exec pre kw sep code post
                  Hk Hsep Hlen Hcode Hb1 Hb2) as He.
    set (st' := MState post (length pre + length (kw ++ sep ++ code))
                       (last_opt None code)
                       [(1, (length pre + length (kw ++ sep),
                             length pre + length (kw ++ sep ++ code)))%nat]) in *.
    assert (Hin : In (length pre, st')
                     (allMatches reFINLabeled (pre ++ kw ++ sep ++ code ++ post))).
    { apply allMatches_complete; [exact He | | ].
      - simpl. rewrite !length_app, Hlen. lia.
      - intros u v st1 Hpre Hv He1. rewrite Hpre, length_app.
        destruct kw as [|f [|i [|n [|? ?]]]]; try discriminate.
        simpl in Hk. apply andb_true_iff in Hk. destruct Hk as [Hk _].
        apply andb_true_iff in Hk. destruct Hk as [Hf Hi].
        now apply (@labeled_fin_no_overlap u v f i
                     (n :: sep ++ code ++ post) st1). }
    unfold matchFIN. apply in_or_app. left.
    apply in_map_iff. exists (submatch_row reFINLabeled (length pre, st')).
    split; [|unfold FindAllStringSubmatchIndex; now apply in_map].
    unfold captured, submatch_row, idx, group_index. simpl.
    replace (length pre + length (kw ++ sep))%nat
      with (length (pre ++ kw ++ sep)) by (rewrite !length_app; lia).
    replace (length pre + length (kw ++ sep ++ code))%nat
      with (length (pre ++ kw ++ sep) + length code)%nat
      by (rewrite !length_app; lia).
    replace (pre ++ kw ++ sep ++ code ++ post)
      with ((pre ++ kw ++ sep) ++ code ++ post)
      by (now rewrite <- !app_assoc).
    rewrite slice_mid. unfold len. f_equal. lia. }
  split.
  - intros e Hupper. split.
    + intros [Hin Hlab].
      destruct (labeled_fin_match s e Hin Hlab)
        as (pre & kw & sep & code & post & Hs & Hk & Hsep & Hcode & Hb1 & Hb2
            & Ht & Hst & Hend & Hty & _).
      rewrite Ht in Hupper.
      pose proof (fin_code_upper Hcode Hupper) as Hlen.
      exists pre, kw, sep, code, post.
      repeat (split; [assumption|]).
      destruct e as [t st en ty lab]. simpl in *. subst.
      unfold len at 3. rewrite Hlen. reflexivity.
    + intros (pre & kw & sep & code & post & Hs & Hk & Hsep & Hlen & Hcode
              & Hb1 & Hb2 & ->).
      split; [|reflexivity].
      apply (Hfound pre kw sep code post); assumption.
  - intros e Hin Hlab.
    destruct (labeled_fin_match s e Hin Hlab)
      as (pre & kw & sep & code & post & Hs & Hk & Hsep & _ & Hb1 & Hb2
          & Ht & Hst & Hend & Hty & _).
    exists pre, kw, sep, post. rewrite Ht.
    repeat (split; [assumption|]). exact Hty.
Qed.

End Claims.

(** C7, as stated, fails: the text of the URL entity of
    ["http://[::1]/x"] contains square brackets. *)
Lemma url_claim_as_stated_fails :
  ~ url_claim stated_url_char (B "http://[::1]/x").
Proof.
  intros H.
  specialize (H (mkEntity (B "http://[::1]/x") 0 14 URL false)).
  destruct H as (w & tail & Hm & _ & _ & Hw & _).
  - vm_compute. left. reflexivity.
  - simpl in Hw.
    destruct Hm as (scheme & body & [-> | ->] & _ & Hall & ->);
      simpl in Hw; inversion Hw; subst.
    simpl in Hall. discriminate.
Qed.

(** C8, as stated, fails: in ["FIN5ARPXK2"] the keyword is followed by a
    code with no separator (the separator being optional), yet no labeled
    FIN entity is produced. *)
Lemma labeled_fin_claim_as_stated_fails :
  ~ labeled_fin_claim_as_stated (B "FIN5ARPXK2").
Proof.
  intros H.
  destruct (H (mkEntity (B "5ARPXK2") 3 10 FIN true)) as [_ H2].
  destruct H2 as [Hin _]; [|vm_compute in Hin; exact Hin].
  exists [], (B "FIN"), [], (B "5ARPXK2"), [].
  repeat split; reflexivity.
Qed.

(* ================================================================== *)
(** * The claims at concrete inputs *)
(* ================================================================== *)

(** The documented examples of the package, run with the insertion sort
    (the routine [sort.Slice] uses on slices this short). *)
Example readme_recognize :
  map (fun e => (Type_ e, Text e, Labeled e))
      (@recognize insertion_sorter (B "FIN: 5ARPXK2, tel +994501234567"))
  = [(FIN, B "5ARPXK2", true); (Phone, B "+994501234567", false)].
Proof. vm_compute. reflexivity. Qed.

Example readme_phones :
  texts_of Phone
    (@recognize insertion_sorter
       (B "+994501234567 v" ++ ["201"; "153"]%char ++ B " 0551234567"))
  = [B "+994501234567"; B "0551234567"].
Proof. vm_compute. reflexivity. Qed.

Example readme_emails :
  texts_of Email (@recognize insertion_sorter (B "info@gov.az"))
  = [B "info@gov.az"].
Proof. vm_compute. reflexivity. Qed.

Example readme_ibans :
  texts_of IBAN (@recognize insertion_sorter (B "AZ21NABZ00000000137010001944"))
  = [B "AZ21NABZ00000000137010001944"].
Proof. vm_compute. reflexivity. Qed.

(** The candidates of a text that fits a Go string have offsets in
    range. *)
Lemma candidates_in_range s :
  len s <= int_max -> Forall in_range (candidates s).
Proof.
  intros Hs. apply Forall_forall. intros e He.
  apply candidates_faithful in He. destruct He as (H0 & H1 & H2 & _).
  unfold in_range. lia.
Qed.

Lemma sample_in_range : Forall in_range [sample_phone; sample_fin; sample_bare].
Proof.
  repeat constructor; unfold int_max; simpl; lia.
Qed.

Lemma recognize_faithful_witness :
  In sample_url (@recognize insertion_sorter (B "see http://gov.az.")) /\
  faithful (B "see http://gov.az.") sample_url.
Proof.
  assert (H : In sample_url (@recognize insertion_sorter (B "see http://gov.az.")))
    by (vm_compute; left; reflexivity).
  split; [exact H | exact (@recognize_faithful insertion_sorter _ _ H)].
Defined.

Lemma resolveOverlaps_ranked_sweep_witness :
  Forall in_range [sample_phone; sample_fin; sample_bare] /\
  exists sorted,
    Permutation [sample_phone; sample_fin; sample_bare] sorted /\
    StronglySorted composite_le sorted /\
    @resolveOverlaps insertion_sorter [sample_phone; sample_fin; sample_bare]
    = spec_sweep 0 sorted /\
    forall pre c post, sorted = pre ++ c :: post ->
      spec_sweep 0 sorted
      = spec_sweep 0 pre
        ++ (if Z_ge_dec (Start c) (max_end 0 pre)
            then c :: spec_sweep (End c) post
            else spec_sweep (max_end 0 pre) post).
Proof.
  split; [exact sample_in_range|].
  exact (@resolveOverlaps_ranked_sweep insertion_sorter _ sample_in_range).
Defined.

Lemma recognize_empty_witness :
  candidates (B "salam") = [] /\ @recognize insertion_sorter (B "salam") = [].
Proof.
  assert (H : candidates (B "salam") = []) by (vm_compute; reflexivity).
  split; [exact H | exact (proj2 (@recognize_empty insertion_sorter) _ H)].
Defined.

Lemma url_entities_shape_witness :
  In sample_url (matchURL (B "see http://gov.az.")) /\
  url_entity_of url_char (B "see http://gov.az.") sample_url.
Proof.
  assert (H : In sample_url (matchURL (B "see http://gov.az.")))
    by (vm_compute; left; reflexivity).
  split; [exact H|].
  exact (proj1 (@url_entities_shape insertion_sorter (B "see http://gov.az.")) _ H).
Defined.

Lemma labeled_fin_places_witness :
  forallb fin_class (Text sample_fin) = true /\
  labeled_fin_place (B "FIN: 5ARPXK2, tel +994501234567") sample_fin /\
  In sample_fin (matchFIN (B "FIN: 5ARPXK2, tel +994501234567")) /\
  Labeled sample_fin = true.
Proof.
  assert (Hp : labeled_fin_place (B "FIN: 5ARPXK2, tel +994501234567")
                                 sample_fin).
  { exists [], (B "FIN"), (B ": "), (B "5ARPXK2"), (B ", tel +994501234567").
    repeat split; reflexivity. }
  split; [reflexivity|]. split; [exact Hp|].
  exact (proj2 (proj1 (@labeled_fin_places (B "FIN: 5ARPXK2, tel +994501234567"))
                      sample_fin eq_refl) Hp).
Defined.

Lemma az_letters_bound_words_witness :
  left_context ["201"; "153"]%char /\ right_context ["195"; "182"]%char /\
  In (mkEntity (B "1234567890") 2 12 VOEN false)
     (matchVOEN (["201"; "153"]%char ++ B "1234567890" ++ ["195"; "182"]%char)).
Proof.
  assert (Hl : left_context ["201"; "153"]%char)
    by (apply (@left_az [] ["201"; "153"]%char); simpl; auto).
  assert (Hr : right_context ["195"; "182"]%char)
    by (apply (@right_az ["195"; "182"]%char []); simpl; auto 10).
  split; [exact Hl|]. split; [exact Hr|].
  exact (proj1 (proj2 (@az_letters_bound_words _ (B "1234567890") _ Hl Hr))
               eq_refl eq_refl).
Defined.

Lemma first_ranked_committed_witness :
  [sample_phone; sample_fin; sample_bare] <> [] /\
  Forall in_range [sample_phone; sample_fin; sample_bare] /\
  @resolveOverlaps insertion_sorter [sample_phone; sample_fin; sample_bare] <> [] /\
  @recognize insertion_sorter (B "FIN: 5ARPXK2") <> [].
Proof.
  assert (Hne : [sample_phone; sample_fin; sample_bare] <> []) by discriminate.
  destruct (@first_ranked_committed insertion_sorter _ (B "FIN: 5ARPXK2")
              Hne sample_in_range) as [[H1 _] H2].
  split; [exact Hne|]. split; [exact sample_in_range|]. split; [exact H1|].
  apply H2. vm_compute. discriminate.
Defined.

(* ================================================================== *)
(** * Further properties of the resolver *)
(* ================================================================== *)
Import NerProps.

Lemma max_end_cons m c t :
  max_end m (c :: t)
  = if Z_ge_dec (Start c) m then max_end (End c) t else max_end m t.
Proof.
  unfold max_end. simpl. destruct (Z_ge_dec (Start c) m); [|reflexivity].
  simpl. destruct (rev (spec_sweep (End c) t)); reflexivity.
Qed.

Lemma max_end_mono l : forall m,
  Forall (fun c => Start c <= End c) l -> m <= max_end m l.
Proof.
  induction l as [|c t IH]; intros m Hl.
  - unfold max_end. simpl. lia.
  - inversion Hl as [|? ? Hc Ht]; subst. rewrite max_end_cons.
    destruct (Z_ge_dec (Start c) m).
    + specialize (IH (End c) Ht). lia.
    + now apply IH.
Qed.

(** Once the sweep has gone through a candidate, [maxEnd] lies beyond
    its start. *)
Lemma max_end_beyond l : forall m c,
  Forall (fun c => Start c < End c) l -> In c l -> Start c < max_end m l.
Proof.
  induction l as [|x t IH]; intros m c Hl Hin; [contradiction|].
  inversion Hl as [|? ? Hx Ht]; subst. rewrite max_end_cons.
  assert (Ht' : Forall (fun c => Start c <= End c) t)
    by (eapply Forall_impl; [|exact Ht]; simpl; lia).
  destruct Hin as [<-|Hin].
  - destruct (Z_ge_dec (Start x) m).
    + pose proof (max_end_mono (End x) Ht'). lia.
    + pose proof (max_end_mono m Ht'). lia.
  - destruct (Z_ge_dec (Start x) m); now apply IH.
Qed.

(** A committed entity was committed at some place of the ordered list,
    where its start was at least [maxEnd]. *)
Lemma spec_sweep_In_split l : forall m e,
  In e (spec_sweep m l) ->
  exists pre post, l = pre ++ e :: post /\ Start e >= max_end m pre.
Proof.
  induction l as [|c t IH]; intros m e H; simpl in H; [contradiction|].
  destruct (Z_ge_dec (Start c) m) as [Hge|Hlt].
  - destruct H as [<-|H].
    + exists [], t. split; [reflexivity | exact Hge].
    + apply IH in H. destruct H as (pre & post & -> & Hm).
      exists (c :: pre), post. split; [reflexivity|].
      rewrite max_end_cons. now destruct (Z_ge_dec (Start c) m).
  - apply IH in H. destruct H as (pre & post & -> & Hm).
    exists (c :: pre), post. split; [reflexivity|].
    rewrite max_end_cons. now destruct (Z_ge_dec (Start c) m).
Qed.

Lemma StronglySorted_split (A : Type) (R : A -> A -> Prop) pre (x : A) post :
  StronglySorted R (pre ++ x :: post) ->
  Forall (fun y => R y x) pre /\ Forall (R x) post.
Proof.
  induction pre as [|y pre IH]; simpl; intros H.
  - inversion H; subst. split; [constructor | assumption].
  - inversion H as [|? ? Hs Hall]; subst.
    destruct (IH Hs) as [H1 H2]. split; [|exact H2].
    constructor; [|exact H1].
    rewrite Forall_forall in Hall. apply Hall.
    apply in_or_app. right. now left.
Qed.

Lemma resolveLess_start a b : resolveLess a b = false -> Start b <= Start a.
Proof.
  unfold resolveLess. less_cases; intros; try lia; discriminate.
Qed.

(** The committed list of a chain is the chain. *)
Lemma spec_sweep_chain_id l : forall m,
  StronglySorted (fun a b => End a <= Start b) l ->
  Forall (fun c => m <= Start c /\ Start c <= End c) l ->
  spec_sweep m l = l.
Proof.
  induction l as [|c t IH]; intros m Hs Hl; [reflexivity|].
  inversion Hs as [|? ? Hst Hall]; subst.
  inversion Hl as [|? ? Hc Ht]; subst. simpl.
  destruct (Z_ge_dec (Start c) m); [|lia].
  f_equal. apply IH; [exact Hst|].
  rewrite Forall_forall in *. intros y Hy.
  specialize (Hall y Hy). specialize (Ht y Hy). lia.
Qed.

Lemma chain_strict (r : list Entity) :
  StronglySorted (fun a b => End a <= Start b) r ->
  Forall (fun c => Start c < End c) r ->
  StronglySorted (fun a b => resolveLess a b = true) r.
Proof.
  induction 1 as [|x t Hs IH Hall]; intros Hin; constructor.
  - apply IH. now inversion Hin.
  - inversion Hin as [|? ? Hx Ht]; subst.
    rewrite Forall_forall in *. intros y Hy. specialize (Hall y Hy).
    unfold resolveLess.
    replace (Start x =? Start y) with false by (symmetry; apply Z.eqb_neq; lia).
    simpl. apply Z.ltb_lt. lia.
Qed.

Section ResolverProps.
Context {sorter : Sorter}.

Lemma resolveOverlaps_cover l c :
  Forall positive l -> In c l ->
  exists e, In e (resolveOverlaps l) /\ Start e <= Start c /\ Start c < End e.
Proof.
  intros Hl Hc.
  destruct (resolveOverlaps_sweep (l := l)) as (sorted & Hp & Ho & ->).
  { eapply Forall_impl; [|exact Hl]. unfold positive. tauto. }
  pose proof (Permutation_Forall Hp Hl) as Hs.
  apply (Permutation_in c Hp) in Hc.
  apply in_split in Hc. destruct Hc as (pre & post & ->).
  rewrite spec_sweep_app.
  destruct (StronglySorted_split _ _ _ Ho) as [Hpre _].
  apply Forall_app in Hs. destruct Hs as [Hspre Hsc].
  inversion Hsc as [|? ? [Hc0 Hc1] _]; subst.
  simpl. destruct (Z_ge_dec (Start c) (max_end 0 pre)) as [Hge|Hlt].
  - exists c. split; [apply in_or_app; right; now left | lia].
  - unfold max_end in Hlt.
    destruct (rev (spec_sweep 0 pre)) as [|e r] eqn:Hr; [lia|].
    assert (He : In e (spec_sweep 0 pre))
      by (apply in_rev; rewrite Hr; now left).
    exists e. split; [apply in_or_app; now left|].
    split; [|lia].
    apply spec_sweep_incl in He. rewrite Forall_forall in Hpre.
    apply resolveLess_start. now apply Hpre.
Qed.

Lemma resolveOverlaps_best l e c :
  Forall positive l -> Forall in_range l ->
  In e (resolveOverlaps l) -> In c l -> Start c = Start e ->
  composite_le e c.
Proof.
  intros Hl Hr He Hc Hsame.
  destruct (resolveOverlaps_sweep (l := l)) as (sorted & Hp & Ho & Heq).
  { eapply Forall_impl; [|exact Hl]. unfold positive. tauto. }
  rewrite Heq in He.
  pose proof (Permutation_Forall Hp Hl) as Hs.
  pose proof (Permutation_Forall Hp Hr) as Hrs.
  apply (Permutation_in c Hp) in Hc.
  apply spec_sweep_In_split in He. destruct He as (pre & post & -> & Hm).
  destruct (StronglySorted_split _ _ _ Ho) as [_ Hpost].
  apply Forall_app in Hs. destruct Hs as [Hspre _].
  rewrite Forall_forall in Hrs.
  apply in_app_or in Hc. destruct Hc as [Hc|[<-|Hc]].
  - exfalso.
    assert (Hlt : Start c < max_end 0 pre).
    { apply max_end_beyond; [|exact Hc].
      eapply Forall_impl; [|exact Hspre]. unfold positive. tauto. }
    lia.
  - right. split; [reflexivity|]. right. split; [reflexivity | auto].
  - rewrite Forall_forall in Hpost.
    apply resolveLess_composite;
      [apply Hrs; apply in_or_app; right; now left
      |apply Hrs; apply in_or_app; right; now right
      |now apply Hpost].
Qed.

Lemma resolveOverlaps_fixed r :
  StronglySorted (fun a b => End a <= Start b) r ->
  Forall positive r ->
  resolveOverlaps r = r.
Proof.
  intros Hc Hpos. unfold resolveOverlaps.
  destruct (length r <=? 1)%nat; [reflexivity|].
  assert (Hlt : Forall (fun c => Start c < End c) r)
    by (eapply Forall_impl; [|exact Hpos]; unfold positive; tauto).
  rewrite (Slice_unique resolveLess_strict_weak (Permutation_refl r)
             (chain_strict Hc Hlt)).
  rewrite sweep_spec. apply spec_sweep_chain_id; [exact Hc|].
  eapply Forall_impl; [|exact Hpos]. unfold positive. simpl. lia.
Qed.

End ResolverProps.

(** ** Orderings of the same candidates *)

Lemma sorted_unique (K : Type) (R : K -> K -> Prop) :
  (forall x y, R x y -> R y x -> x = y) ->
  forall l1 l2, StronglySorted R l1 -> StronglySorted R l2 ->
                Permutation l1 l2 -> l1 = l2.
Proof.
  intros Hanti. induction l1 as [|x t1 IH]; intros l2 H1 H2 Hp.
  - apply Permutation_nil in Hp. now subst.
  - destruct l2 as [|y t2];
      [apply Permutation_sym, Permutation_nil in Hp; discriminate|].
    inversion H1 as [|? ? Hs1 Ha1]; subst.
    inversion H2 as [|? ? Hs2 Ha2]; subst.
    rewrite Forall_forall in Ha1, Ha2.
    assert (Hxy : x = y).
    { assert (Hx : In x (y :: t2)) by (apply (Permutation_in x Hp); now left).
      assert (Hy : In y (x :: t1))
        by (apply (Permutation_in y (Permutation_sym Hp)); now left).
      destruct Hx as [Hx|Hx]; [now symmetry|].
      destruct Hy as [Hy|Hy]; [exact Hy|].
      apply Hanti; [now apply Ha1 | now apply Ha2]. }
    subst y. f_equal. apply IH; auto. now apply Permutation_cons_inv with x.
Qed.

Lemma resolveLess_key a b :
  resolveLess a b = key_less (sort_key a) (sort_key b).
Proof. reflexivity. Qed.

Lemma key_less_antisym a b :
  key_less b a = false -> key_less a b = false -> a = b.
Proof.
  destruct a as [[sa la] ba], b as [[sb lb] bb]. unfold key_less.
  rewrite !Z.gtb_ltb.
  destruct ba, bb; less_cases; intros; try discriminate;
    try (repeat f_equal; lia).
Qed.

Lemma in_order_map_key l :
  in_order resolveLess l ->
  StronglySorted (fun a b => key_less b a = false) (map sort_key l).
Proof.
  unfold in_order. induction 1 as [|x t Hs IH Hall]; simpl; constructor.
  - exact IH.
  - rewrite Forall_forall in *. intros k Hk.
    apply in_map_iff in Hk. destruct Hk as (y & <- & Hy).
    rewrite <- resolveLess_key. now apply Hall.
Qed.

Lemma in_order_keys l1 l2 :
  Permutation l1 l2 -> in_order resolveLess l1 -> in_order resolveLess l2 ->
  map sort_key l1 = map sort_key l2.
Proof.
  intros Hp H1 H2.
  apply (sorted_unique (R := fun a b => key_less b a = false)).
  - intros x y Hxy Hyx. now apply key_less_antisym.
  - now apply in_order_map_key.
  - now apply in_order_map_key.
  - now apply Permutation_map.
Qed.

Lemma keys_places l1 : forall l2,
  Forall in_range l1 -> Forall in_range l2 ->
  map sort_key l1 = map sort_key l2 -> map place l1 = map place l2.
Proof.
  induction l1 as [|a t1 IH]; intros [|b t2] H1 H2 Hk; try discriminate;
    [reflexivity|].
  inversion H1 as [|? ? Ha Ht1]; subst. inversion H2 as [|? ? Hb Ht2]; subst.
  simpl in Hk. unfold sort_key at 1 2 in Hk. injection Hk as Hs Hl Hlab Ht.
  simpl. f_equal.
  - unfold place. rewrite (int_sub_span Ha), (int_sub_span Hb) in Hl.
    unfold span in Hl. rewrite Hlab. f_equal. f_equal; lia.
  - now apply IH.
Qed.

Lemma spec_sweep_places l1 : forall l2 m,
  map place l1 = map place l2 ->
  map place (spec_sweep m l1) = map place (spec_sweep m l2).
Proof.
  induction l1 as [|a t1 IH]; intros [|b t2] m Hp; try discriminate;
    [reflexivity|].
  simpl in Hp. unfold place at 1 2 in Hp. injection Hp as Hs He Hb Ht.
  simpl. rewrite Hs.
  destruct (Z_ge_dec (Start b) m); simpl.
  - unfold place at 1 3. rewrite Hs, He, Hb. f_equal. now apply IH.
  - now apply IH.
Qed.

Lemma resolveOverlaps_places (s1 s2 : Sorter) l :
  Forall in_range l ->
  map place (@resolveOverlaps s1 l) = map place (@resolveOverlaps s2 l).
Proof.
  intros Hl.
  assert (H0 : Forall (fun c => 0 <= Start c) l)
    by (eapply Forall_impl; [|exact Hl]; unfold in_range; tauto).
  destruct (@resolveOverlaps_sweep s1 l H0) as (o1 & Hp1 & Ho1 & ->).
  destruct (@resolveOverlaps_sweep s2 l H0) as (o2 & Hp2 & Ho2 & ->).
  apply spec_sweep_places. apply keys_places.
  - exact (Permutation_Forall Hp1 Hl).
  - exact (Permutation_Forall Hp2 Hl).
  - apply in_order_keys; auto.
    eapply perm_trans; [apply Permutation_sym, Hp1 | exact Hp2].
Qed.

(** ** Candidates that do not overlap *)

Lemma disjoint_sorted_chain l :
  in_order resolveLess l -> NoDup l -> Forall positive l ->
  (forall a b, In a l -> In b l -> a <> b -> ~ intersects a b) ->
  StronglySorted (fun a b => End a <= Start b) l.
Proof.
  unfold in_order. induction 1 as [|x t Hs IH Hall]; intros Hnd Hpos Hdis;
    constructor.
  - apply IH.
    + now inversion Hnd.
    + now inversion Hpos.
    + intros a b Ha Hb. apply Hdis; now right.
  - inversion Hnd as [|? ? Hx _]; subst. inversion Hpos as [|? ? Hpx Hpt]; subst.
    rewrite Forall_forall in *. intros y Hy.
    destruct (Z_le_gt_dec (End x) (Start y)) as [Hle|Hgt]; [exact Hle|].
    exfalso. apply (Hdis x y); [now left | now right | congruence |].
    pose proof (resolveLess_start _ _ (Hall y Hy)).
    destruct (Hpt y Hy). destruct Hpx.
    exists (Start y). lia.
Qed.

Section ResolverProps2.
Context {sorter : Sorter}.

Lemma resolveOverlaps_keeps_disjoint l :
  NoDup l -> Forall positive l ->
  (forall a b, In a l -> In b l -> a <> b -> ~ intersects a b) ->
  Permutation l (resolveOverlaps l).
Proof.
  intros Hnd Hpos Hdis.
  destruct (resolveOverlaps_sweep (l := l)) as (sorted & Hp & Ho & ->).
  { eapply Forall_impl; [|exact Hpos]. unfold positive. tauto. }
  rewrite spec_sweep_chain_id; [exact Hp | |].
  - apply disjoint_sorted_chain; auto.
    + exact (Permutation_NoDup Hp Hnd).
    + exact (Permutation_Forall Hp Hpos).
    + intros a b Ha Hb. apply Hdis;
        [apply (Permutation_in a (Permutation_sym Hp) Ha)
        |apply (Permutation_in b (Permutation_sym Hp) Hb)].
  - apply (Permutation_Forall Hp).
    eapply Forall_impl; [|exact Hpos]. unfold positive. simpl. lia.
Qed.

End ResolverProps2.

(* ================================================================== *)
(** * Further properties of the matchers *)
(* ================================================================== *)

(** ** The matches of one pattern come in text order *)

Lemma exec_forward r st st' : exec r st = Some st' -> (pos st <= pos st')%nat.
Proof.
  intros H. apply exec_sound, matches_advance in H.
  destruct H as (w & _ & Hp & _). lia.
Qed.

Lemma scan_lower r l : forall i pv skip pe a st',
  In (a, st') (scan r l i pv skip pe) -> (i + skip <= a)%nat.
Proof.
  induction l as [|c t IH]; intros i pv skip pe a st' Hin.
  - destruct skip; simpl in Hin; [|contradiction].
    destruct (exec r (MState [] i pv [])) as [x|]; [|contradiction].
    rewrite app_nil_r in Hin.
    destruct (Nat.eqb (pos x) i && abuts pe i); [contradiction|].
    destruct Hin as [Hin|[]]. inversion Hin; subst. lia.
  - destruct skip as [|k]; simpl in Hin.
    + destruct (exec r (MState (c :: t) i pv [])) as [x|].
      * apply in_app_or in Hin. destruct Hin as [Hin|Hin].
        -- destruct (Nat.eqb (pos x) i && abuts pe i); [contradiction|].
           destruct Hin as [Hin|[]]. inversion Hin; subst. lia.
        -- apply IH in Hin. lia.
      * apply IH in Hin. lia.
    + apply IH in Hin. lia.
Qed.

Lemma scan_chain r l : forall i pv skip pe,
  StronglySorted (fun m1 m2 => (pos (snd m1) <= fst m2)%nat)
                 (scan r l i pv skip pe).
Proof.
  induction l as [|c t IH]; intros i pv skip pe.
  - destruct skip; simpl; [|constructor].
    destruct (exec r (MState [] i pv [])) as [x|]; [|constructor].
    rewrite app_nil_r.
    destruct (Nat.eqb (pos x) i && abuts pe i); repeat constructor.
  - destruct skip as [|k]; simpl; [|apply IH].
    destruct (exec r (MState (c :: t) i pv [])) as [x|] eqn:He; [|apply IH].
    destruct (Nat.eqb (pos x) i && abuts pe i); simpl; [apply IH|].
    constructor; [apply IH|].
    apply Forall_forall. intros [a st'] Hin. simpl.
    apply scan_lower in Hin. apply exec_forward in He. simpl in He. lia.
Qed.

Lemma FindAllStringIndex_chain r s :
  StronglySorted (fun m1 m2 => snd m1 <= fst m2) (FindAllStringIndex r s).
Proof.
  unfold FindAllStringIndex, allMatches.
  induction (scan_chain r s 0 None 0 None) as [|m t Hs IH Hall]; simpl;
    constructor; [exact IH|].
  rewrite Forall_forall in *. intros m2 Hm2.
  apply in_map_iff in Hm2. destruct Hm2 as (m' & <- & Hm'). simpl.
  specialize (Hall m' Hm'). lia.
Qed.

Lemma FindAllStringIndex_forward r s m :
  In m (FindAllStringIndex r s) -> 0 <= fst m <= snd m.
Proof.
  intros Hin. unfold FindAllStringIndex in Hin.
  apply in_map_iff in Hin. destruct Hin as ([a st'] & <- & Hin).
  apply allMatches_inv in Hin. destruct Hin as (pre & w & _ & -> & Hp & _).
  simpl. lia.
Qed.

Lemma whole_in_text_order r s ty :
  in_text_order (map (whole s ty) (FindAllStringIndex r s)).
Proof.
  unfold in_text_order.
  induction (FindAllStringIndex_chain r s) as [|m t Hs IH Hall]; simpl;
    constructor; [exact IH|].
  rewrite Forall_forall in *. intros e He.
  apply in_map_iff in He. destruct He as (m' & <- & Hm'). simpl.
  now apply Hall.
Qed.

(** What a whole-match entity is: the text [w] a match of the pattern
    reads at the offset where [pre] ends. *)
Lemma whole_entity_inv r s ty e :
  In e (map (whole s ty) (FindAllStringIndex r s)) ->
  exists pre w st',
    s = pre ++ w ++ rest st' /\
    matches r (st_at pre (w ++ rest st')) st' /\
    e = mkEntity w (len pre) (len pre + len w) ty false.
Proof.
  intros Hin. apply in_map_iff in Hin. destruct Hin as (m & <- & Hin).
  unfold FindAllStringIndex in Hin.
  apply in_map_iff in Hin. destruct Hin as ([a st'] & <- & Hin).
  apply allMatches_inv in Hin.
  destruct Hin as (pre & w & Hs & -> & Hp & _ & Hm).
  exists pre, w, st'. split; [exact Hs|]. split; [exact Hm|].
  unfold whole. simpl. rewrite Hp, Hs at 1. rewrite slice_mid.
  unfold len. f_equal; lia.
Qed.

(** A delivered match gives the entity over its text. *)
Lemma whole_entity_intro r pre w post st' ty :
  In (length pre, st') (allMatches r (pre ++ w ++ post)) ->
  pos st' = (length pre + length w)%nat ->
  In (mkEntity w (len pre) (len pre + len w) ty false)
     (map (whole (pre ++ w ++ post) ty)
          (FindAllStringIndex r (pre ++ w ++ post))).
Proof.
  intros Hin Hp. apply in_map_iff.
  exists (Z.of_nat (length pre), Z.of_nat (pos st')). split.
  - unfold whole. simpl. rewrite Hp, slice_mid. unfold len. f_equal; lia.
  - unfold FindAllStringIndex. apply in_map_iff.
    exists (length pre, st'). auto.
Qed.

(** ** Word-bounded patterns that read word bytes only *)

(** When every match of a pattern reads word bytes only, no match can
    reach over a place that follows a non-word byte, so a match at such
    a place is delivered. *)
Lemma word_only_delivered r pre post st' :
  (forall st st1, matches r st st1 ->
     exists w, rest st = w ++ rest st1 /\
               pos st1 = (pos st + length w)%nat /\
               forallb isWordChar w = true) ->
  exec r (st_at pre post) = Some st' ->
  (length pre < pos st')%nat ->
  word_opt (last_opt None pre) = false ->
  In (length pre, st') (allMatches r (pre ++ post)).
Proof.
  intros Hword He Hlen Hl.
  apply allMatches_complete; [exact He | exact Hlen |].
  intros u v st1 Hpre Hv He1. apply exec_sound, Hword in He1.
  destruct He1 as (w1 & Hrest & Hpos & Hw1). simpl in Hrest, Hpos.
  rewrite Hpos, Hpre, length_app.
  destruct (le_lt_dec (length w1) (length v)) as [Hle|Hlt]; [lia|].
  exfalso.
  assert (Hv1 : v = firstn (length v) w1)
    by (apply app_prefix_firstn with post (rest st1); [exact Hrest | lia]).
  assert (Hvw : forallb isWordChar v = true).
  { rewrite Hv1. rewrite forallb_forall in *. intros x Hx.
    apply Hw1. rewrite <- (firstn_skipn (length v) w1).
    apply in_or_app. now left. }
  rewrite Hpre, last_opt_app in Hl.
  rewrite (@word_last isWordChar (fun c H => H) _ v Hv Hvw) in Hl.
  discriminate.
Qed.

Section BareExact.
Variable p : byte -> bool.
Hypothesis p_word : forall c, p c = true -> isWordChar c = true.
Variable n : nat.
Hypothesis n_pos : (0 < n)%nat.

Lemma bare_shape st st' :
  matches (WordB ;; Rep n (Cls p) ;; WordB) st st' ->
  exists w, length w = n /\ forallb p w = true /\
            rest st = w ++ rest st' /\ pos st' = (pos st + n)%nat /\
            word_opt (prev st) = false /\
            word_opt (hd_error (rest st')) = false.
Proof.
  intros (s1 & [Hb ->] & s2 & Hrep & [Hb2 ->]).
  pose proof (matches_advance _ _ _ Hrep) as (w0 & Hr0 & _ & Hv0 & _).
  apply matches_Rep_Cls in Hrep.
  destruct Hrep as (w & Hlen & Hw & Hrest & Hpos).
  assert (w0 = w) by (rewrite Hrest in Hr0; now apply app_inv_tail in Hr0).
  subst w0.
  assert (Hne : w <> []) by (destruct w; [simpl in Hlen; lia | discriminate]).
  exists w. repeat split; auto.
  - unfold at_word_boundary in Hb. rewrite Hrest in Hb.
    rewrite (@word_head p p_word w (rest s2) Hne Hw) in Hb.
    now destruct (word_opt (prev st)).
  - unfold at_word_boundary in Hb2. rewrite Hv0 in Hb2.
    rewrite (@word_last p p_word (prev st) w Hne Hw) in Hb2.
    now destruct (word_opt (hd_error (rest s2))).
Qed.

Lemma bare_entities ty s e :
  In e (map (whole s ty)
            (FindAllStringIndex (WordB ;; Rep n (Cls p) ;; WordB) s))
  <-> bounded_run p n ty s e.
Proof.
  split.
  - intros Hin. apply whole_entity_inv in Hin.
    destruct Hin as (pre & w & st' & Hs & Hm & ->).
    apply bare_shape in Hm.
    destruct Hm as (w' & Hlen & Hw & Hrest & _ & Hl & Hr). simpl in Hrest, Hl.
    apply app_inv_tail in Hrest. subst w'.
    exists pre, w, (rest st'). repeat split; auto.
    unfold len. rewrite Hlen. reflexivity.
  - intros (pre & w & post & -> & Hlen & Hw & Hl & Hr & ->).
    assert (Hne : w <> []) by (destruct w; [simpl in Hlen; lia | discriminate]).
    pose proof (@bare_run_found p p_word pre w post Hne Hw Hl Hr) as Hin.
    rewrite Hlen in Hin.
    apply in_map_iff. eexists. split; [|exact Hin].
    unfold whole. simpl. rewrite <- Hlen. rewrite slice_mid.
    unfold len. f_equal. lia.
Qed.

End BareExact.

(** ** IBANs *)

Lemma matches_Rep_Cls_prev p n st st' :
  matches (Rep n (Cls p)) st st' ->
  exists w, length w = n /\ forallb p w = true /\
            rest st = w ++ rest st' /\ pos st' = (pos st + n)%nat /\
            prev st' = last_opt (prev st) w /\ caps st' = caps st.
Proof.
  revert st st'. induction n as [|n IH]; intros st st' H.
  - simpl in H. subst. exists []. simpl. repeat split; auto.
  - destruct H as (st1 & (c & t & Hr & Hc & ->) & H2).
    apply IH in H2. destruct H2 as (w & Hl & Hw & Hr2 & Hp & Hv & Hcs).
    simpl in *.
    exists (c :: w). simpl. rewrite Hc, Hw, Hl, Hr, Hr2, Hp, Hv, Hcs.
    repeat split; auto; lia.
Qed.

Lemma matches_Lit bs : forall st st',
  matches (Lit bs) st st' ->
  rest st = bs ++ rest st' /\ pos st' = (pos st + length bs)%nat /\
  prev st' = last_opt (prev st) bs /\ caps st' = caps st.
Proof.
  induction bs as [|b bs IH]; intros st st' H.
  - simpl in H. subst. simpl. repeat split; auto.
  - destruct H as (st1 & (c & t & Hr & Hc & ->) & H2).
    apply Ascii.eqb_eq in Hc. subst c.
    apply IH in H2. destruct H2 as (Hr2 & Hp & Hv & Hcs). simpl in *.
    rewrite Hr, Hr2, Hp, Hv, Hcs. repeat split; auto; lia.
Qed.

Lemma run_Lit k cs t bs : forall i pv,
  run (Lit bs) k (MState (bs ++ t) i pv cs)
  = k (MState t (i + length bs) (last_opt pv bs) cs).
Proof.
  induction bs as [|b bs IH]; intros i pv; simpl.
  - now rewrite Nat.add_0_r.
  - unfold byte_is at 1. rewrite Ascii.eqb_refl, IH.
    now replace (S i + length bs)%nat with (i + S (length bs))%nat by lia.
Qed.

Lemma upper_word c : is_upper c = true -> isWordChar c = true.
Proof. unfold isWordChar. now intros ->. Qed.

Lemma upper_or_digit_word c :
  (is_upper c || is_digit c)%bool = true -> isWordChar c = true.
Proof.
  unfold isWordChar. intros H. apply orb_true_iff in H.
  destruct H as [-> | ->]; [reflexivity | now rewrite !orb_true_r].
Qed.

Lemma forallb_impl (A : Type) (p q : A -> bool) (l : list A) :
  (forall x, p x = true -> q x = true) ->
  forallb p l = true -> forallb q l = true.
Proof.
  intros Hpq H. rewrite forallb_forall in *. auto.
Qed.

Lemma iban_shape_word w :
  iban_shape w -> length w = 28%nat /\ forallb isWordChar w = true.
Proof.
  intros (d & u & a & -> & Hd & Hdd & Hu & Huu & Ha & Haa).
  split; [rewrite !length_app, Hd, Hu, Ha; reflexivity|].
  rewrite !forallb_app.
  rewrite (forallb_impl _ _ _ is_digit_word Hdd),
          (forallb_impl _ _ _ upper_word Huu),
          (forallb_impl _ _ _ upper_or_digit_word Haa).
  reflexivity.
Qed.

Lemma reIBAN_shape st st' :
  matches reIBAN st st' ->
  exists w, iban_shape w /\ rest st = w ++ rest st' /\
            pos st' = (pos st + length w)%nat /\
            word_opt (prev st) = false /\
            word_opt (hd_error (rest st')) = false.
Proof.
  unfold reIBAN, digit.
  intros (s1 & [Hb ->] & s2 & Hlit & s3 & Hd & s4 & Hu & s5 & Ha & [Hb2 ->]).
  apply matches_Lit in Hlit. destruct Hlit as (Hlr & Hlp & Hlv & _).
  apply (@matches_Rep_Cls_prev is_digit 2) in Hd.
  destruct Hd as (d & Hdl & Hdd & Hdr & Hdp & Hdv & _).
  apply (@matches_Rep_Cls_prev is_upper 4) in Hu.
  destruct Hu as (u & Hul & Huu & Hur & Hup & Huv & _).
  apply (@matches_Rep_Cls_prev (fun c => is_upper c || is_digit c)%bool 20)
    in Ha.
  destruct Ha as (a & Hal & Haa & Har & Hap & Hav & _).
  exists (B "AZ" ++ d ++ u ++ a).
  assert (Hne : a <> []) by (destruct a; discriminate).
  split; [exists d, u, a; repeat split; auto|].
  split; [|split; [|split]].
  - rewrite Hlr, Hdr, Hur, Har. now rewrite <- !app_assoc.
  - rewrite Hap, Hup, Hdp, Hlp. rewrite !length_app, Hdl, Hul, Hal. simpl. lia.
  - unfold at_word_boundary in Hb. rewrite Hlr in Hb.
    simpl in Hb. now destruct (word_opt (prev st)).
  - unfold at_word_boundary in Hb2. rewrite Hav in Hb2.
    rewrite (@word_last _ upper_or_digit_word (prev s4) a Hne Haa) in Hb2.
    now destruct (word_opt (hd_error (rest s5))).
Qed.

Lemma reIBAN_exec pre w post :
  iban_shape w ->
  word_opt (last_opt None pre) = false ->
  word_opt (hd_error post) = false ->
  exists st', exec reIBAN (st_at pre (w ++ post)) = Some st' /\
              pos st' = (length pre + length w)%nat.
Proof.
  intros (d & u & a & -> & Hd & Hdd & Hu & Huu & Ha & Haa) Hl Hr.
  assert (Hne : a <> []) by (destruct a; discriminate).
  eexists. split.
  - unfold exec, reIBAN, digit, st_at.
    replace (Rep 2 (Cls is_digit)) with (Rep (length d) (Cls is_digit))
      by now rewrite Hd.
    replace (Rep 4 (Cls is_upper)) with (Rep (length u) (Cls is_upper))
      by now rewrite Hu.
    replace (Rep 20 (Cls (fun c => is_upper c || is_digit c)%bool))
      with (Rep (length a) (Cls (fun c => is_upper c || is_digit c)%bool))
      by now rewrite Ha.
    rewrite <- !app_assoc.
    simpl run at 1. unfold at_word_boundary at 1. simpl.
    rewrite Hl. simpl.
    rewrite (run_Rep_Cls _ _ _ _ d _ _ Hdd).
    rewrite (run_Rep_Cls _ _ _ _ u _ _ Huu).
    rewrite (run_Rep_Cls _ _ _ _ a _ _ Haa).
    simpl. unfold at_word_boundary. simpl.
    rewrite (@word_last _ upper_or_digit_word _ a Hne Haa), Hr. simpl.
    reflexivity.
  - simpl. rewrite !length_app. simpl. lia.
Qed.

(** ** Reading words *)

Lemma reads_nil st : reads [] st st.
Proof. unfold reads. simpl. repeat split; auto. Qed.

Lemma reads_app w1 w2 st s1 s2 :
  reads w1 st s1 -> reads w2 s1 s2 -> reads (w1 ++ w2) st s2.
Proof.
  intros (R1 & P1 & V1 & C1) (R2 & P2 & V2 & C2). unfold reads.
  rewrite length_app, last_opt_app, <- app_assoc, R1, R2, P2, P1, V2, V1, C2, C1.
  repeat split; auto; lia.
Qed.

Lemma reads_Cls p st st' :
  matches (Cls p) st st' -> exists c, p c = true /\ reads [c] st st'.
Proof.
  intros (c & t & Hr & Hc & ->). exists c. unfold reads. simpl.
  repeat split; auto; lia.
Qed.

Lemma reads_Lit bs st st' : matches (Lit bs) st st' -> reads bs st st'.
Proof. intros H. now apply matches_Lit in H. Qed.

Lemma reads_Rep_Cls p n st st' :
  matches (Rep n (Cls p)) st st' ->
  exists w, length w = n /\ forallb p w = true /\ reads w st st'.
Proof.
  intros H. apply matches_Rep_Cls_prev in H.
  destruct H as (w & Hl & Hw & Hr & Hp & Hv & Hc).
  exists w. unfold reads. rewrite Hl. repeat split; auto.
Qed.

Lemma reads_Opt_space st st' :
  matches (Opt space) st st' ->
  exists ws, (ws = [] \/ exists c, ws = [c] /\ is_space c = true) /\
             reads ws st st'.
Proof.
  intros [H|H].
  - apply reads_Cls in H. destruct H as (c & Hc & Hr).
    exists [c]. split; [right; eauto | exact Hr].
  - simpl in H. subst. exists []. split; [now left | apply reads_nil].
Qed.

(** ** Entities over capture group 1 *)

Lemma captured_entity_inv r s ty e :
  num_groups r = 1%nat ->
  In e (map (captured s ty) (FindAllStringSubmatchIndex r s)) ->
  exists pre w st',
    s = pre ++ w ++ rest st' /\
    matches r (st_at pre (w ++ rest st')) st' /\
    e = match get_cap 1 (caps st') with
        | Some (a, b) =>
            mkEntity (slice s (Z.of_nat a) (Z.of_nat b))
                     (Z.of_nat a) (Z.of_nat b) ty true
        | None => mkEntity (slice s (-1) (-1)) (-1) (-1) ty true
        end.
Proof.
  intros Hng Hin. apply in_map_iff in Hin. destruct Hin as (sub & <- & Hin).
  unfold FindAllStringSubmatchIndex in Hin.
  apply in_map_iff in Hin. destruct Hin as ([a0 st'] & <- & Hin).
  apply allMatches_inv in Hin.
  destruct Hin as (pre & w & Hs & _ & _ & _ & Hm).
  exists pre, w, st'. split; [exact Hs|]. split; [exact Hm|].
  unfold captured, submatch_row, idx, group_index. rewrite Hng. simpl.
  destruct (get_cap 1 (caps st')) as [[a b]|]; reflexivity.
Qed.

Lemma captured_entity_intro r pre kw code post st' ty :
  num_groups r = 1%nat ->
  In (length pre, st') (allMatches r (pre ++ kw ++ code ++ post)) ->
  caps st' = [(1, (length pre + length kw,
                   length pre + length kw + length code))%nat] ->
  In (mkEntity code (len (pre ++ kw)) (len (pre ++ kw) + len code) ty true)
     (map (captured (pre ++ kw ++ code ++ post) ty)
          (FindAllStringSubmatchIndex r (pre ++ kw ++ code ++ post))).
Proof.
  intros Hng Hin Hc. apply in_map_iff.
  exists (submatch_row r (length pre, st')). split.
  - unfold captured, submatch_row, idx. rewrite Hng. cbn [snd fst seq flat_map].
    unfold group_index. rewrite Hc. simpl.
    replace (length pre + length kw)%nat with (length (pre ++ kw))
      by (rewrite length_app; lia).
    replace (pre ++ kw ++ code ++ post) with ((pre ++ kw) ++ code ++ post)
      by (now rewrite <- app_assoc).
    rewrite slice_mid. unfold len. f_equal; lia.
  - unfold FindAllStringSubmatchIndex. now apply in_map.
Qed.

(** ** Labeled VOEN codes: where they are found *)

Lemma is_V_word c : is_V c = true -> isWordChar c = true.
Proof. destruct c as [[] [] [] [] [] [] [] []]; vm_compute; congruence. Qed.

Lemma is_digit_not_space c : is_digit c = true -> is_space c = false.
Proof. destruct c as [[] [] [] [] [] [] [] []]; vm_compute; congruence. Qed.

Lemma is_digit_not_V c : is_digit c = true -> is_V c = false.
Proof. destruct c as [[] [] [] [] [] [] [] []]; vm_compute; congruence. Qed.

Lemma is_O_not_V c : is_O c = true -> is_V c = false.
Proof. destruct c as [[] [] [] [] [] [] [] []]; vm_compute; congruence. Qed.

Lemma is_E_not_V c : is_E c = true -> is_V c = false.
Proof. destruct c as [[] [] [] [] [] [] [] []]; vm_compute; congruence. Qed.

Lemma is_N_not_V c : is_N c = true -> is_V c = false.
Proof. destruct c as [[] [] [] [] [] [] [] []]; vm_compute; congruence. Qed.

Lemma colon_or_space_not_V c : colon_or_space c = true -> is_V c = false.
Proof. destruct c as [[] [] [] [] [] [] [] []]; vm_compute; congruence. Qed.

Lemma is_space_not_V c : is_space c = true -> is_V c = false.
Proof. destruct c as [[] [] [] [] [] [] [] []]; vm_compute; congruence. Qed.

Lemma reads_voen_o st st' :
  matches voen_o_ci st st' ->
  exists o, ((exists c, o = [c] /\ is_O c = true)
             \/ o = o_umlaut_upper \/ o = o_umlaut_lower) /\
            reads o st st'.
Proof.
  unfold voen_o_ci, CI. intros [H|[H|H]].
  - apply reads_Cls in H. destruct H as (c & Hc & Hr).
    exists [c]. split; [left; eauto | exact Hr].
  - apply reads_Lit in H. exists o_umlaut_upper. auto.
  - apply reads_Lit in H. exists o_umlaut_lower. auto.
Qed.

Lemma reVOENLabeled_shape st st' :
  matches reVOENLabeled st st' ->
  exists kw sep code,
    rest st = kw ++ sep ++ code ++ rest st' /\
    is_voen_keyword kw = true /\ is_separator sep = true /\
    length code = 10%nat /\ forallb is_digit code = true /\
    word_opt (prev st) = false /\
    word_opt (hd_error (rest st')) = false /\
    caps st' = (1, (pos st + length (kw ++ sep),
                    pos st + length (kw ++ sep) + 10))%nat :: caps st /\
    pos st' = (pos st + length (kw ++ sep) + 10)%nat /\
    forallb (fun c => negb (is_V c)) (tl (kw ++ sep ++ code)) = true.
Proof.
  unfold reVOENLabeled, CI, digit.
  intros (s1 & [Hb ->] & s2 & HV & s3 & HO & s4 & HE & s5 & HN & s6 & HS
          & s7 & HW & s8 & (s9 & HR & ->) & [Hb2 ->]).
  apply reads_Cls in HV. destruct HV as (v & Hv & RV).
  apply reads_voen_o in HO. destruct HO as (o & Ho & RO).
  apply reads_Cls in HE. destruct HE as (e & He & RE).
  apply reads_Cls in HN. destruct HN as (n & Hn & RN).
  apply reads_Cls in HS. destruct HS as (c & Hc & RS).
  apply reads_Opt_space in HW. destruct HW as (ws & Hws & RW).
  apply (@reads_Rep_Cls is_digit 10) in HR.
  destruct HR as (code & Hlen & Hcode & RR).
  pose proof (reads_app RV (reads_app RO (reads_app RE RN))) as RK.
  pose proof (reads_app RS RW) as RSep.
  pose proof (reads_app RK RSep) as RKS.
  pose proof (reads_app RKS RR) as RAll.
  destruct RKS as (_ & PKS & _ & CKS).
  destruct RR as (_ & PR & VR & CR).
  destruct RAll as (RA & PA & VA & CA).
  assert (Hne : code <> []) by (destruct code; discriminate).
  exists ([v] ++ o ++ [e] ++ [n]), ([c] ++ ws), code.
  split; [rewrite RA, <- !app_assoc; reflexivity|].
  split.
  { destruct Ho as [(x & -> & Hx)|[-> | ->]]; simpl;
      unfold is_V, is_E, is_N; rewrite Hv, He, Hn; try rewrite Hx;
      reflexivity. }
  split.
  { destruct Hws as [->|(x & -> & Hx)]; simpl; rewrite Hc; try rewrite Hx;
      reflexivity. }
  split; [exact Hlen|]. split; [exact Hcode|].
  split.
  { unfold at_word_boundary in Hb. rewrite RA in Hb. simpl in Hb.
    rewrite (is_V_word v Hv) in Hb. now destruct (word_opt (prev st)). }
  split.
  { unfold at_word_boundary, set_cap in Hb2. simpl in Hb2. rewrite VR in Hb2.
    rewrite (@word_last is_digit is_digit_word _ code Hne Hcode) in Hb2.
    simpl. now destruct (word_opt (hd_error (rest s9))). }
  split.
  { unfold set_cap. simpl. rewrite CR, CKS, PR, PKS. simpl.
    repeat f_equal; lia. }
  split.
  { unfold set_cap. simpl. rewrite PR, PKS. simpl. lia. }
  simpl. rewrite !forallb_app. simpl.
  assert (Ho' : forallb (fun c => negb (is_V c)) o = true).
  { destruct Ho as [(x & -> & Hx)|[-> | ->]]; simpl;
      [now rewrite (is_O_not_V x Hx) | reflexivity | reflexivity]. }
  assert (Hws' : forallb (fun c => negb (is_V c)) ws = true).
  { destruct Hws as [->|(x & -> & Hx)]; simpl;
      [reflexivity | now rewrite (is_space_not_V x Hx)]. }
  assert (Hcode' : forallb (fun c => negb (is_V c)) code = true).
  { apply (forallb_impl _ _ _ (fun c H => f_equal negb (is_digit_not_V c H))).
    exact Hcode. }
  rewrite !forallb_app.
  rewrite Ho', Hws', Hcode', (is_E_not_V e He), (is_N_not_V n Hn),
    (colon_or_space_not_V c Hc).
  reflexivity.
Qed.

Lemma run_Rep_Cls_some p k post cs res (w : bytes) i pv :
  forallb p w = true ->
  k (MState post (i + length w) (last_opt pv w) cs) = Some res ->
  run (Rep (length w) (Cls p)) k (MState (w ++ post) i pv cs) = Some res.
Proof. intros Hw Hk. now rewrite run_Rep_Cls. Qed.

(** A labeled VOEN match never reaches over the start of a later
    keyword: after its first byte it holds no [V]. *)
Lemma labeled_voen_no_overlap u v vb tail st1 :
  v <> [] -> is_V vb = true ->
  exec reVOENLabeled (st_at u (v ++ vb :: tail)) = Some st1 ->
  (pos st1 <= length u + length v)%nat.
Proof.
  intros Hv Hvb He. apply exec_sound, reVOENLabeled_shape in He.
  destruct He as (kw & sep & code & Hr & _ & _ & Hlen & _ & _ & _ & _ & Hp & Hno).
  simpl in Hr, Hp. rewrite Hp.
  replace (kw ++ sep ++ code ++ rest st1)
    with ((kw ++ sep ++ code) ++ rest st1) in Hr
    by (now rewrite <- !app_assoc).
  assert (Hw : (length (kw ++ sep ++ code) = length (kw ++ sep) + 10)%nat)
    by (rewrite app_assoc, length_app, Hlen; reflexivity).
  apply app_eq_app in Hr. destruct Hr as (l & [[Hv1 Hr]|[Hv1 Hr]]).
  - apply (f_equal (@length _)) in Hv1. rewrite length_app in Hv1. lia.
  - destruct l as [|x l].
    + rewrite app_nil_r in Hv1. apply (f_equal (@length _)) in Hv1. lia.
    + exfalso. simpl in Hr. inversion Hr; subst x.
      destruct v as [|a v]; [contradiction|].
      rewrite Hv1 in Hno. simpl in Hno.
      rewrite forallb_app in Hno. simpl in Hno. rewrite Hvb in Hno.
      simpl in Hno. rewrite andb_false_r in Hno. discriminate.
Qed.

Lemma voen_tail_exec e n sep code post i pv :
  is_E e = true -> is_N n = true -> is_separator sep = true ->
  length code = 10%nat -> forallb is_digit code = true ->
  word_opt (hd_error post) = false ->
  run (CI "E" "e" ;; CI "N" "n" ;; Cls colon_or_space ;; Opt space ;;
       Grp 1 (Rep 10 digit) ;; WordB) Some
      (MState (e :: n :: sep ++ code ++ post) i pv [])
  = Some (MState post (i + 2 + length sep + 10) (last_opt None code)
                 [(1, (i + 2 + length sep, i + 2 + length sep + 10))%nat]).
Proof.
  intros He Hn Hs Hlen Hcode Hpost.
  assert (Hne : code <> []) by (destruct code; discriminate).
  unfold CI, digit, is_E, is_N in *.
  remember (Rep 10 (Cls is_digit)) as R eqn:HR.
  destruct sep as [|c [|w [|? ?]]]; try discriminate; simpl in Hs.
  - simpl. rewrite He, Hn, Hs. simpl.
    destruct code as [|c1 code']; [contradiction|].
    assert (Hc1 : is_space c1 = false).
    { simpl in Hcode. apply andb_true_iff in Hcode.
      now apply is_digit_not_space. }
    simpl app. cbv iota. rewrite Hc1.
    rewrite HR, <- Hlen.
    apply (@run_Rep_Cls_some is_digit _ post [] _ (c1 :: code')); [exact Hcode|].
    pose proof (@word_last is_digit is_digit_word (Some c) _ Hne Hcode) as Hw1.
    unfold at_word_boundary, set_cap. simpl in Hw1 |- *.
    rewrite Hw1, Hpost. simpl.
    f_equal. f_equal; try lia. repeat f_equal; lia.
  - apply andb_true_iff in Hs. destruct Hs as [Hs Hw].
    simpl. rewrite He, Hn, Hs, Hw. simpl.
    assert (Hrun : forall k res,
      k (MState post (S (S (S (S i))) + length code)
                (last_opt (Some w) code) []) = Some res ->
      run R k (MState (code ++ post) (S (S (S (S i)))) (Some w) []) = Some res).
    { intros k res Hkr. rewrite HR, <- Hlen. now apply run_Rep_Cls_some. }
    erewrite Hrun; [reflexivity|].
    pose proof (@word_last is_digit is_digit_word (Some w) _ Hne Hcode) as Hw1.
    unfold at_word_boundary, set_cap. simpl.
    rewrite Hw1, Hpost. simpl.
    f_equal. f_equal; try lia.
    + now apply last_opt_nonempty.
    + rewrite Hlen. repeat f_equal; lia.
Qed.

Lemma labeled_voen_exec pre kw sep code post :
  is_voen_keyword kw = true -> is_separator sep = true ->
  length code = 10%nat -> forallb is_digit code = true ->
  word_opt (last_opt None pre) = false ->
  word_opt (hd_error post) = false ->
  exec reVOENLabeled (st_at pre (kw ++ sep ++ code ++ post))
  = Some (MState post (length pre + length (kw ++ sep) + 10)
                 (last_opt None code)
                 [(1, (length pre + length (kw ++ sep),
                       length pre + length (kw ++ sep) + 10))%nat]).
Proof.
  intros Hk Hs Hlen Hcode Hpre Hpost.
  unfold exec, reVOENLabeled, st_at.
  remember (CI "E" "e" ;; CI "N" "n" ;; Cls colon_or_space ;; Opt space ;;
            Grp 1 (Rep 10 digit) ;; WordB) as T eqn:HT.
  unfold voen_o_ci, CI.
  destruct kw as [|v [|o [|e [|n [|n' [|? ?]]]]]]; try discriminate;
    simpl in Hk.
  - (* O or o *)
    apply andb_true_iff in Hk. destruct Hk as [Hk Hn].
    apply andb_true_iff in Hk. destruct Hk as [Hk He].
    apply andb_true_iff in Hk. destruct Hk as [Hv Ho].
    simpl. unfold at_word_boundary at 1. simpl.
    rewrite Hpre, (is_V_word v Hv). simpl.
    unfold is_V, is_O in Hv, Ho. rewrite Hv, Ho. subst T.
    rewrite voen_tail_exec by assumption.
    replace (S (S (length pre)) + 2 + length sep)%nat
      with (length pre + S (S (S (S (length sep)))))%nat by lia.
    reflexivity.
  - (* O with diaeresis, upper or lower case *)
    rename n into e', n' into n.
    apply andb_true_iff in Hk. destruct Hk as [Hk Hn].
    apply andb_true_iff in Hk. destruct Hk as [Hk He].
    apply andb_true_iff in Hk. destruct Hk as [Hk Ho2].
    apply andb_true_iff in Hk. destruct Hk as [Hv Ho1].
    unfold byte_is in Ho1. apply Ascii.eqb_eq in Ho1. subst o.
    assert (Hres : run T Some
              (MState (e' :: n :: sep ++ code ++ post)
                      (S (S (S (length pre)))) (Some e) [])
            = Some (MState post (length pre + length ([v; "195"; e; e'; n] ++ sep) + 10)
                 (last_opt None code)
                 [(1, (length pre + length ([v; "195"; e; e'; n] ++ sep),
                       length pre + length ([v; "195"; e; e'; n] ++ sep) + 10))%nat])).
    { subst T. rewrite voen_tail_exec by assumption.
      replace (S (S (S (length pre))) + 2 + length sep)%nat
        with (length pre + length ([v; "195"; e; e'; n] ++ sep))%nat
        by (simpl; lia).
      reflexivity. }
    remember (Some (MState post
                (length pre + length ([v; "195"; e; e'; n] ++ sep) + 10)
                (last_opt None code)
                [(1, (length pre + length ([v; "195"; e; e'; n] ++ sep),
                      length pre + length ([v; "195"; e; e'; n] ++ sep) + 10))%nat]))
      as res eqn:Hr.
    simpl. unfold at_word_boundary at 1. simpl.
    rewrite Hpre, (is_V_word v Hv). simpl.
    unfold is_V in Hv. rewrite Hv.
    apply orb_true_iff in Ho2. unfold byte_is in Ho2.
    destruct Ho2 as [Ho2|Ho2]; apply Ascii.eqb_eq in Ho2; subst e; simpl;
      rewrite Hres, Hr; reflexivity.
Qed.

Lemma labeled_voen_sound s e :
  In e (matchVOEN s) -> Labeled e = true -> labeled_voen_place s e.
Proof.
  intros Hin Hlab. unfold matchVOEN in Hin.
  apply in_app_or in Hin. destruct Hin as [Hin|Hin].
  2:{ apply in_map_iff in Hin. destruct Hin as (m & <- & _). discriminate. }
  apply captured_entity_inv in Hin; [|reflexivity].
  destruct Hin as (pre & w & st' & Hs & Hm & ->).
  apply reVOENLabeled_shape in Hm.
  destruct Hm as (kw & sep & code & Hr & Hk & Hsep & Hlen & Hcode & Hb1 & Hb2
                  & Hc & Hp & _).
  simpl in Hr, Hb1, Hc, Hp. rewrite Hc. simpl.
  assert (Hs' : s = (pre ++ kw ++ sep) ++ code ++ rest st')
    by (rewrite Hs, Hr, <- !app_assoc; reflexivity).
  exists pre, kw, sep, code, (rest st').
  split; [rewrite Hs'; now rewrite <- !app_assoc|].
  repeat (split; [assumption|]).
  replace (length pre + length (kw ++ sep))%nat
    with (length (pre ++ kw ++ sep)) by (rewrite !length_app; lia).
  replace (length (pre ++ kw ++ sep) + 10)%nat
    with (length (pre ++ kw ++ sep) + length code)%nat by lia.
  rewrite Hs' at 1. rewrite slice_mid. unfold len. f_equal; lia.
Qed.

(* ================================================================== *)
(** * Further properties: the resolver and [recognize] *)
(* ================================================================== *)

Lemma candidates_positive' s : Forall positive (candidates s).
Proof.
  apply Forall_forall. intros c Hin. apply candidates_faithful in Hin.
  destruct Hin as (? & ? & _). split; assumption.
Qed.

Lemma composite_le_same_start e c :
  composite_le e c -> Start c = Start e ->
  End c <= End e /\ (End c = End e -> Labeled c = true -> Labeled e = true).
Proof.
  unfold composite_le, span. intros [H|[_ [H|[H1 H2]]]] Hs.
  - lia.
  - split; [lia|]. intros; lia.
  - split; [lia|]. intros _. exact H2.
Qed.

Section ResolverTheorems.
Context {sorter : Sorter}.

(** X1. No candidate is lost without a trace: for candidates with
    non-empty ranges that start in the text, the start offset of every
    candidate lies inside an entity that [resolveOverlaps] keeps; and
    the start offset of every candidate the matchers produce lies inside
    an entity of the result of [recognize]. *)
Theorem candidate_starts_covered (l : list Entity) (s : bytes) :
  Forall positive l ->
  (forall c, In c l ->
     exists e, In e (resolveOverlaps l) /\ Start e <= Start c < End e) /\
  (forall c, In c (candidates s) ->
     exists e, In e (recognize s) /\ Start e <= Start c < End e).
Proof.
  intros Hl. split.
  - intros c Hc.
    destruct (@resolveOverlaps_cover sorter l c Hl Hc) as (e & He & H1 & H2).
    exists e. auto.
  - intros c Hc. rewrite recognize_resolved.
    destruct (@resolveOverlaps_cover sorter _ c (candidates_positive' s) Hc)
      as (e & He & H1 & H2).
    exists e. auto.
Qed.

(** X2. An entity that [resolveOverlaps] keeps is the best candidate at
    its start offset: no candidate that starts at the same offset ends
    later, and if a candidate with the same start and end is labeled,
    the kept entity is labeled.  In particular [recognize] never returns
    the bare FIN or VOEN entity of a code for which a labeled candidate
    with the same range exists. *)
Theorem kept_entity_best_at_start (l : list Entity) (s : bytes) :
  Forall positive l -> Forall in_range l -> len s <= int_max ->
  (forall e c, In e (resolveOverlaps l) -> In c l -> Start c = Start e ->
     End c <= End e /\
     (End c = End e -> Labeled c = true -> Labeled e = true)) /\
  (forall e c, In e (recognize s) -> In c (candidates s) ->
     Start c = Start e ->
     End c <= End e /\
     (End c = End e -> Labeled c = true -> Labeled e = true)).
Proof.
  intros Hl Hr Hs. split.
  - intros e c He Hc Hsame.
    apply composite_le_same_start; [|exact Hsame].
    now apply (@resolveOverlaps_best sorter l e c Hl Hr).
  - intros e c He Hc Hsame. rewrite recognize_resolved in He.
    apply composite_le_same_start; [|exact Hsame].
    apply (@resolveOverlaps_best sorter _ e c (candidates_positive' s)
             (@candidates_in_range s Hs) He Hc Hsame).
Qed.

(** X3. [resolveOverlaps] is idempotent on candidates with non-empty
    ranges that start in the text: resolving a resolved list changes
    nothing; and the result of [recognize] is a list that
    [resolveOverlaps] leaves as it is. *)
Theorem resolveOverlaps_idempotent (l : list Entity) (s : bytes) :
  Forall positive l ->
  resolveOverlaps (resolveOverlaps l) = resolveOverlaps l /\
  resolveOverlaps (recognize s) = recognize s.
Proof.
  assert (Hfix : forall l', Forall positive l' ->
            resolveOverlaps (resolveOverlaps l') = resolveOverlaps l').
  { intros l' Hl'. apply resolveOverlaps_fixed.
    - apply resolveOverlaps_chain.
      eapply Forall_impl; [|exact Hl']. unfold positive. tauto.
    - apply Forall_forall. intros e He. apply resolveOverlaps_incl in He.
      rewrite Forall_forall in Hl'. now apply Hl'. }
  intros Hl. split; [now apply Hfix|].
  rewrite recognize_resolved. apply Hfix, candidates_positive'.
Qed.

(** X4. Candidates that do not overlap are all kept: when the
    candidates are distinct, have non-empty ranges that start in the
    text, and no two of them intersect, the result of [resolveOverlaps]
    is a rearrangement of the candidates. *)
Theorem disjoint_candidates_all_kept (l : list Entity) :
  NoDup l -> Forall positive l ->
  (forall a b, In a l -> In b l -> a <> b -> ~ intersects a b) ->
  Permutation l (resolveOverlaps l) /\
  length (resolveOverlaps l) = length l.
Proof.
  intros Hnd Hpos Hdis.
  pose proof (resolveOverlaps_keeps_disjoint Hnd Hpos Hdis) as Hp.
  split; [exact Hp|]. symmetry. now apply Permutation_length.
Qed.

End ResolverTheorems.

(** X5. The offsets and labels of the result do not depend on which
    ordering [sort.Slice] returns among those its contract allows: for
    candidates with offsets in range, any two sorting routines give
    results with the same start, end and label at every position; so do
    two runs of [recognize] on a text whose length fits a Go [int]. *)
Theorem places_independent_of_sorter (s1 s2 : Sorter) (l : list Entity)
        (s : bytes) :
  Forall in_range l -> len s <= int_max ->
  map place (@resolveOverlaps s1 l) = map place (@resolveOverlaps s2 l) /\
  map place (@recognize s1 s) = map place (@recognize s2 s).
Proof.
  intros Hl Hs. split.
  - now apply resolveOverlaps_places.
  - rewrite !recognize_resolved.
    apply resolveOverlaps_places, candidates_in_range, Hs.
Qed.

(** X6. The type of an entity of the result is not fixed by the
    contract of [sort.Slice]: a ten-digit number that begins with 0 is a
    local phone number and a bare VOEN over the same range, the two
    candidates tie under the ordering of [resolveOverlaps], and of two
    sorting routines that both meet the contract one makes [recognize]
    return the Phone entity and the other the VOEN entity. *)
Theorem type_depends_on_sorter :
  exists (s1 s2 : Sorter) (s : bytes),
    map place (@recognize s1 s) = map place (@recognize s2 s) /\
    map Type_ (@recognize s1 s) = [Phone] /\
    map Type_ (@recognize s2 s) = [VOEN].
Proof.
  exists insertion_sorter, backward_sorter, (B "0551234567").
  vm_compute. repeat split; reflexivity.
Qed.

(* ================================================================== *)
(** * Further properties: what each matcher finds *)
(* ================================================================== *)

(** X7. [matchIBAN] finds exactly the Azerbaijani IBANs that stand
    alone: an entity is returned if and only if it is the unlabeled
    IBAN entity over 28 bytes of the text that read [AZ], two digits,
    four upper-case letters and twenty upper-case letters or digits,
    with no word byte just before or just after them. *)
Theorem matchIBAN_exact (s : bytes) (e : Entity) :
  In e (matchIBAN s) <-> iban_place s e.
Proof.
  unfold matchIBAN. split.
  - intros Hin. apply whole_entity_inv in Hin.
    destruct Hin as (pre & w & st' & Hs & Hm & ->).
    apply reIBAN_shape in Hm.
    destruct Hm as (w0 & Hshape & Hr & _ & Hl & Hr2). simpl in Hr, Hl.
    apply app_inv_tail in Hr. subst w0.
    exists pre, w, (rest st'). repeat split; auto.
    destruct (iban_shape_word Hshape) as [Hlen _].
    unfold len. rewrite Hlen. reflexivity.
  - intros (pre & w & post & -> & Hshape & Hl & Hr & ->).
    destruct (iban_shape_word Hshape) as [Hlen Hword].
    destruct (@reIBAN_exec pre w post Hshape Hl Hr) as (st' & He & Hp).
    assert (Hin : In (length pre, st') (allMatches reIBAN (pre ++ w ++ post))).
    { apply word_only_delivered; [|exact He | lia | exact Hl].
      intros st st1 Hm. apply reIBAN_shape in Hm.
      destruct Hm as (w1 & Hs1 & Hr1 & Hp1 & _).
      exists w1. repeat split; auto. now apply iban_shape_word. }
    pose proof (@whole_entity_intro reIBAN pre w post st' IBAN Hin Hp) as Hout.
    unfold len in Hout at 3. rewrite Hlen in Hout. exact Hout.
Qed.

(** X8. The bare pattern of [matchFIN] finds exactly the runs of seven
    bytes of [[A-HJ-NP-Z0-9]] that stand alone: an unlabeled entity is
    returned by [matchFIN] if and only if it is the FIN entity over
    seven such bytes with no word byte just before or just after
    them. *)
Theorem bare_fin_exact (s : bytes) (e : Entity) :
  In e (matchFIN s) /\ Labeled e = false <-> bounded_run fin_class 7 FIN s e.
Proof.
  unfold matchFIN. split.
  - intros [Hin Hlab]. apply in_app_or in Hin. destruct Hin as [Hin|Hin].
    + apply in_map_iff in Hin. destruct Hin as (sub & <- & _). discriminate.
    + now apply (@bare_entities fin_class fin_class_word 7 (Nat.lt_0_succ 6)).
  - intros H. split.
    + apply in_or_app. right.
      now apply (@bare_entities fin_class fin_class_word 7 (Nat.lt_0_succ 6)).
    + destruct H as (pre & w & post & _ & _ & _ & _ & _ & ->). reflexivity.
Qed.

(** X9. The bare pattern of [matchVOEN] finds exactly the runs of ten
    digits that stand alone: an unlabeled entity is returned by
    [matchVOEN] if and only if it is the VOEN entity over ten digits
    with no word byte just before or just after them. *)
Theorem bare_voen_exact (s : bytes) (e : Entity) :
  In e (matchVOEN s) /\ Labeled e = false <-> bounded_run is_digit 10 VOEN s e.
Proof.
  unfold matchVOEN. split.
  - intros [Hin Hlab]. apply in_app_or in Hin. destruct Hin as [Hin|Hin].
    + apply in_map_iff in Hin. destruct Hin as (sub & <- & _). discriminate.
    + now apply (@bare_entities is_digit is_digit_word 10 (Nat.lt_0_succ 9)).
  - intros H. split.
    + apply in_or_app. right.
      now apply (@bare_entities is_digit is_digit_word 10 (Nat.lt_0_succ 9)).
    + destruct H as (pre & w & post & _ & _ & _ & _ & _ & ->). reflexivity.
Qed.

(** X10. The labeled pattern of [matchVOEN] finds exactly the codes
    that follow the keyword: a labeled entity is returned by [matchVOEN]
    if and only if the text holds, after a place with no word byte just
    before it, the keyword VOEN in any letter case (its second letter O
    or O with diaeresis), one [:] or whitespace byte, at most one more
    whitespace byte, and ten digits with no word byte just after them;
    the entity is the VOEN entity over the ten digits alone. *)
Theorem labeled_voen_exact (s : bytes) (e : Entity) :
  In e (matchVOEN s) /\ Labeled e = true <-> labeled_voen_place s e.
Proof.
  split.
  - intros [Hin Hlab]. now apply labeled_voen_sound.
  - intros (pre & kw & sep & code & post & -> & Hk & Hsep & Hlen & Hcode
            & Hpre & Hpost & ->).
    split; [|reflexivity].
    pose proof (@labeled_voen_exec pre kw sep code post
                  Hk Hsep Hlen Hcode Hpre Hpost) as He.
    set (st' := MState post (length pre + length (kw ++ sep) + 10)
                       (last_opt None code)
                       [(1, (length pre + length (kw ++ sep),
                             length pre + length (kw ++ sep) + 10))%nat]) in *.
    assert (Hin : In (length pre, st')
                     (allMatches reVOENLabeled (pre ++ kw ++ sep ++ code ++ post))).
    { apply allMatches_complete; [exact He | simpl; lia | ].
      intros u v st1 Hu Hv He1. rewrite Hu, length_app.
      destruct kw as [|vb kw']; [discriminate|].
      assert (Hvb : is_V vb = true).
      { destruct kw' as [|o [|e [|n [|n' [|? ?]]]]]; try discriminate;
          simpl in Hk; repeat (apply andb_true_iff in Hk; destruct Hk as [Hk ?]);
          exact Hk. }
      now apply (@labeled_voen_no_overlap u v vb
                   (kw' ++ sep ++ code ++ post) st1). }
    unfold matchVOEN. apply in_or_app. left.
    replace (pre ++ kw ++ sep ++ code ++ post)
      with (pre ++ (kw ++ sep) ++ code ++ post) in *
      by (now rewrite <- !app_assoc).
    assert (Hc : caps st' = [(1, (length pre + length (kw ++ sep),
                     length pre + length (kw ++ sep) + length code))%nat])
      by (rewrite Hlen; reflexivity).
    pose proof (@captured_entity_intro reVOENLabeled pre (kw ++ sep) code post
                  st' VOEN eq_refl Hin Hc) as Hout.
    unfold len in Hout at 3. rewrite Hlen in Hout. exact Hout.
Qed.

(** ** Licence plates *)

Lemma upper_not_digit c : is_upper c = true -> is_digit c = false.
Proof. destruct c as [[] [] [] [] [] [] [] []]; vm_compute; congruence. Qed.

Lemma plate_shape_length w : plate_shape w -> length w = 9%nat.
Proof.
  intros (d & u & t & -> & Hd & _ & Hu & _ & Ht & _).
  rewrite !length_app, Hd, Hu, Ht. reflexivity.
Qed.

Lemma reLicensePlate_shape st st' :
  matches reLicensePlate st st' ->
  exists w, plate_shape w /\ rest st = w ++ rest st' /\
            pos st' = (pos st + 9)%nat /\
            word_opt (prev st) = false /\
            word_opt (hd_error (rest st')) = false.
Proof.
  unfold reLicensePlate, digit.
  intros (s1 & [Hb ->] & s2 & Hd & s3 & Hl1 & s4 & Hu & s5 & Hl2 & s6 & Ht
          & [Hb2 ->]).
  apply (@matches_Rep_Cls_prev is_digit 2) in Hd.
  destruct Hd as (d & Hdl & Hdd & Hdr & Hdp & Hdv & _).
  apply matches_Lit in Hl1. destruct Hl1 as (H1r & H1p & H1v & _).
  apply (@matches_Rep_Cls_prev is_upper 2) in Hu.
  destruct Hu as (u & Hul & Huu & Hur & Hup & Huv & _).
  apply matches_Lit in Hl2. destruct Hl2 as (H2r & H2p & H2v & _).
  apply (@matches_Rep_Cls_prev is_digit 3) in Ht.
  destruct Ht as (t & Htl & Htt & Htr & Htp & Htv & _).
  assert (Hned : d <> []) by (destruct d; discriminate).
  assert (Hnet : t <> []) by (destruct t; discriminate).
  exists (d ++ B "-" ++ u ++ B "-" ++ t).
  split; [exists d, u, t; repeat split; auto|].
  split; [|split; [|split]].
  - rewrite Hdr, H1r, Hur, H2r, Htr. now rewrite <- !app_assoc.
  - rewrite Htp, H2p, Hup, H1p, Hdp. simpl. lia.
  - unfold at_word_boundary in Hb. rewrite Hdr in Hb.
    rewrite (@word_head is_digit is_digit_word d (rest s2) Hned Hdd) in Hb.
    now destruct (word_opt (prev st)).
  - unfold at_word_boundary in Hb2. rewrite Htv in Hb2.
    rewrite (@word_last is_digit is_digit_word (prev s5) t Hnet Htt) in Hb2.
    now destruct (word_opt (hd_error (rest s6))).
Qed.

Lemma reLicensePlate_exec pre w post :
  plate_shape w ->
  word_opt (last_opt None pre) = false ->
  word_opt (hd_error post) = false ->
  exists st', exec reLicensePlate (st_at pre (w ++ post)) = Some st' /\
              pos st' = (length pre + 9)%nat.
Proof.
  intros (d & u & t & -> & Hd & Hdd & Hu & Huu & Ht & Htt) Hl Hr.
  assert (Hned : d <> []) by (destruct d; discriminate).
  assert (Hnet : t <> []) by (destruct t; discriminate).
  eexists. split.
  - unfold exec, reLicensePlate, digit, st_at.
    replace (Rep 2 (Cls is_digit)) with (Rep (length d) (Cls is_digit))
      by now rewrite Hd.
    replace (Rep 2 (Cls is_upper)) with (Rep (length u) (Cls is_upper))
      by now rewrite Hu.
    replace (Rep 3 (Cls is_digit)) with (Rep (length t) (Cls is_digit))
      by now rewrite Ht.
    rewrite <- !app_assoc.
    simpl run at 1. unfold at_word_boundary at 1. simpl rest. simpl prev.
    rewrite Hl, (@word_head is_digit is_digit_word d _ Hned Hdd). simpl xorb.
    cbv iota.
    rewrite (run_Rep_Cls _ _ _ _ d _ _ Hdd). simpl.
    rewrite (run_Rep_Cls _ _ _ _ u _ _ Huu). simpl.
    rewrite (run_Rep_Cls _ _ _ _ t _ _ Htt).
    simpl. unfold at_word_boundary. simpl.
    rewrite (@word_last is_digit is_digit_word _ t Hnet Htt), Hr. simpl.
    reflexivity.
  - simpl. rewrite Hd, Hu, Ht. simpl. lia.
Qed.

Lemma hyphen_not_word : isWordChar "-" = false.
Proof. reflexivity. Qed.

Lemma hyphen_not_digit : is_digit "-" = false.
Proof. reflexivity. Qed.

(** A plate match never reaches over the start of a later plate: inside
    a plate only the hyphens are followed by a place where a word can
    begin, and what follows a hyphen is no plate. *)
Lemma plate_no_overlap u v w post st1 :
  v <> [] -> plate_shape w ->
  word_opt (last_opt None (u ++ v)) = false ->
  exec reLicensePlate (st_at u (v ++ w ++ post)) = Some st1 ->
  (pos st1 <= length u + length v)%nat.
Proof.
  intros Hv Hw Hl He. apply exec_sound, reLicensePlate_shape in He.
  destruct He as (w1 & Hw1 & Hr & Hp & _ & _). simpl in Hr, Hp. rewrite Hp.
  destruct (le_lt_dec 9 (length v)) as [|Hlt]; [lia|]. exfalso.
  rewrite last_opt_app in Hl.
  destruct Hw1 as (d1 & u1 & t1 & -> & Hd1 & Hdd1 & Hu1 & Huu1 & Ht1 & Htt1).
  destruct Hw as (d & u' & t & -> & Hd & Hdd & Hu & Huu & Ht & Htt).
  destruct d1 as [|a0 [|a1 [|? ?]]]; try discriminate.
  destruct u1 as [|a3 [|a4 [|? ?]]]; try discriminate.
  destruct t1 as [|a6 [|a7 [|a8 [|? ?]]]]; try discriminate.
  destruct d as [|b0 [|b1 [|? ?]]]; try discriminate.
  destruct u' as [|b3 [|b4 [|? ?]]]; try discriminate.
  destruct t as [|b6 [|b7 [|b8 [|? ?]]]]; try discriminate.
  clear Hd1 Hu1 Ht1 Hd Hu Ht. simpl in Hdd1, Huu1, Htt1, Hdd, Huu, Htt.
  repeat match goal with
  | H : (_ && _)%bool = true |- _ => apply andb_true_iff in H; destruct H
  end.
  pose proof hyphen_not_word. pose proof hyphen_not_digit.
  repeat match goal with
  | H : is_digit ?c = true |- _ =>
      lazymatch goal with
      | _ : isWordChar c = true |- _ => fail
      | _ => pose proof (is_digit_word c H)
      end
  | H : is_upper ?c = true |- _ =>
      lazymatch goal with
      | _ : isWordChar c = true |- _ => fail
      | _ => pose proof (upper_word c H); pose proof (upper_not_digit c H)
      end
  end.
  destruct v as [|v0 v]; [contradiction|]. clear Hv.
  do 8 (destruct v as [|? v];
        [simpl in Hr, Hl; inversion Hr; subst; congruence|]).
  simpl in Hlt. lia.
Qed.

(** X11. [matchLicensePlate] finds exactly the plates that stand alone:
    an entity is returned if and only if it is the unlabeled plate
    entity over nine bytes of the text that read two digits, a hyphen,
    two upper-case letters, a hyphen and three digits, with no word byte
    just before or just after them. *)
Theorem matchLicensePlate_exact (s : bytes) (e : Entity) :
  In e (matchLicensePlate s) <-> plate_place s e.
Proof.
  unfold matchLicensePlate. split.
  - intros Hin. apply whole_entity_inv in Hin.
    destruct Hin as (pre & w & st' & Hs & Hm & ->).
    apply reLicensePlate_shape in Hm.
    destruct Hm as (w0 & Hshape & Hr & _ & Hl & Hr2). simpl in Hr, Hl.
    apply app_inv_tail in Hr. subst w0.
    exists pre, w, (rest st'). repeat split; auto.
    unfold len. rewrite (plate_shape_length Hshape). reflexivity.
  - intros (pre & w & post & -> & Hshape & Hl & Hr & ->).
    pose proof (plate_shape_length Hshape) as Hlen.
    destruct (@reLicensePlate_exec pre w post Hshape Hl Hr) as (st' & He & Hp).
    assert (Hin : In (length pre, st')
                     (allMatches reLicensePlate (pre ++ w ++ post))).
    { apply allMatches_complete; [exact He | lia |].
      intros u v st1 Hu Hv He1. rewrite Hu, length_app.
      apply (@plate_no_overlap u v w post st1 Hv Hshape); [|exact He1].
      now rewrite <- Hu. }
    rewrite <- Hlen in Hp.
    pose proof (@whole_entity_intro reLicensePlate pre w post st' LicensePlate
                  Hin Hp) as Hout.
    unfold len in Hout at 3. rewrite Hlen in Hout. exact Hout.
Qed.

(** ** Greedy ends *)

Lemma star_greedy p l : forall i pv cs res,
  star p Some l i pv cs = Some res -> stops_before p (rest res).
Proof.
  induction l as [|c t IH]; intros i pv cs res H; simpl in H.
  - inversion H; subst. exact I.
  - destruct (p c) eqn:Hc.
    + destruct (star p Some t (S i) (Some c) cs) as [r|] eqn:Hs.
      * inversion H; subst. now apply IH in Hs.
      * exfalso. apply (@star_fallback p Some t (S i) (Some c) cs);
          [discriminate | exact Hs].
    + inversion H; subst. exact Hc.
Qed.

Lemma exec_Cat_tail a b st res :
  exec (a ;; b) st = Some res -> exists st1, exec b st1 = Some res.
Proof.
  unfold exec. simpl. intros H. apply run_sound in H.
  destruct H as (st1 & _ & H). now exists st1.
Qed.

Lemma exec_Star_greedy p st res :
  exec (Star p) st = Some res -> stops_before p (rest res).
Proof. unfold exec. simpl. apply star_greedy. Qed.

Lemma allMatches_exec r s a st' :
  In (a, st') (allMatches r s) ->
  exists pre w,
    s = pre ++ w ++ rest st' /\ a = length pre /\
    pos st' = (length pre + length w)%nat /\
    exec r (st_at pre (w ++ rest st')) = Some st'.
Proof.
  intros Hin.
  pose proof (allMatches_sound _ _ _ _ Hin) as (pre0 & post0 & Hs0 & Ha0 & He).
  apply allMatches_inv in Hin.
  destruct Hin as (pre & w & Hs & Ha & Hp & _ & _).
  assert (pre0 = pre).
  { rewrite Hs in Hs0. rewrite Ha in Ha0.
    apply (f_equal (firstn (length pre))) in Hs0.
    rewrite firstn_app, firstn_all, Nat.sub_diag in Hs0. simpl in Hs0.
    rewrite app_nil_r in Hs0. rewrite Ha0 in Hs0.
    rewrite firstn_app, firstn_all, Nat.sub_diag in Hs0. simpl in Hs0.
    rewrite app_nil_r in Hs0. now symmetry. }
  subst pre0.
  assert (post0 = w ++ rest st')
    by (rewrite Hs in Hs0; now apply app_inv_head in Hs0).
  subst post0.
  exists pre, w. auto.
Qed.

(** An entity over a whole match, with the search that found it. *)
Lemma whole_entity_exec r s ty e :
  In e (map (whole s ty) (FindAllStringIndex r s)) ->
  exists pre w st',
    s = pre ++ w ++ rest st' /\
    exec r (st_at pre (w ++ rest st')) = Some st' /\
    e = mkEntity w (len pre) (len pre + len w) ty false.
Proof.
  intros Hin. apply in_map_iff in Hin. destruct Hin as (m & <- & Hin).
  unfold FindAllStringIndex in Hin.
  apply in_map_iff in Hin. destruct Hin as ([a st'] & <- & Hin).
  apply allMatches_exec in Hin. destruct Hin as (pre & w & Hs & -> & Hp & He).
  exists pre, w, st'. split; [exact Hs|]. split; [exact He|].
  unfold whole. simpl. rewrite Hp, Hs at 1. rewrite slice_mid.
  unfold len. f_equal; lia.
Qed.

(** ** E-mail addresses *)

Lemma reads_Star p st st' :
  matches (Star p) st st' -> exists w, forallb p w = true /\ reads w st st'.
Proof.
  intros (w & t & Hr & Hw & ->). exists w. unfold reads. simpl.
  repeat split; auto.
Qed.

Lemma reads_Plus p st st' :
  matches (Plus p) st st' ->
  exists w, w <> [] /\ forallb p w = true /\ reads w st st'.
Proof.
  intros (s1 & H1 & H2).
  apply reads_Cls in H1. destruct H1 as (c & Hc & R1).
  apply reads_Star in H2. destruct H2 as (w & Hw & R2).
  exists ([c] ++ w). split; [discriminate|]. split.
  - simpl. now rewrite Hc, Hw.
  - exact (reads_app R1 R2).
Qed.

Lemma reEmail_shape st st' :
  matches reEmail st st' ->
  exists w, email_shape w /\ rest st = w ++ rest st'.
Proof.
  unfold reEmail.
  intros (s1 & HL & s2 & HA & s3 & HD & s4 & HP & s5 & H1 & s6 & H2 & HS).
  apply reads_Plus in HL. destruct HL as (l & Hln & Hl & RL).
  apply reads_Lit in HA.
  apply reads_Plus in HD. destruct HD as (d & Hdn & Hd & RD).
  apply reads_Lit in HP.
  apply reads_Cls in H1. destruct H1 as (c1 & Hc1 & R1).
  apply reads_Cls in H2. destruct H2 as (c2 & Hc2 & R2).
  apply reads_Star in HS. destruct HS as (t & Ht & RS).
  pose proof (reads_app RL (reads_app HA (reads_app RD (reads_app HP
                (reads_app R1 (reads_app R2 RS)))))) as (RA & _).
  exists (l ++ B "@" ++ d ++ B "." ++ [c1] ++ [c2] ++ t).
  split; [|exact RA].
  exists l, d, ([c1] ++ [c2] ++ t). repeat split; auto.
  - simpl. lia.
  - simpl. now rewrite Hc1, Hc2, Ht.
Qed.

Lemma reEmail_greedy st res :
  exec reEmail st = Some res -> stops_before is_alpha (rest res).
Proof.
  unfold reEmail, Plus. intros H.
  repeat (apply exec_Cat_tail in H; destruct H as (? & H)).
  now apply exec_Star_greedy in H.
Qed.

(** X12. Every entity of [matchEmail] is the unlabeled entity over a
    part of the text that reads a non-empty local part of letters,
    digits and [._%+-], then [@], a non-empty domain of letters, digits,
    dots and hyphens, a dot, and a top-level domain of two or more
    letters that is not followed by a further letter. *)
Theorem matchEmail_shape (s : bytes) (e : Entity) :
  In e (matchEmail s) -> email_place s e.
Proof.
  unfold matchEmail. intros Hin. apply whole_entity_exec in Hin.
  destruct Hin as (pre & w & st' & Hs & He & ->).
  pose proof (reEmail_greedy _ He) as Hg.
  apply exec_sound, reEmail_shape in He.
  destruct He as (w0 & Hshape & Hr). simpl in Hr.
  apply app_inv_tail in Hr. subst w0.
  exists pre, w, (rest st').
  split; [exact Hs|]. split; [exact Hshape|]. split; [exact Hg | reflexivity].
Qed.

(** ** Phone numbers *)

Lemma reads_advances w st st' : reads w st st' -> advances w st st'.
Proof. intros (R & P & V & _). repeat split; auto. Qed.

Lemma advances_app w1 w2 st s1 s2 :
  advances w1 st s1 -> advances w2 s1 s2 -> advances (w1 ++ w2) st s2.
Proof.
  intros (R1 & P1 & V1) (R2 & P2 & V2). unfold advances.
  rewrite length_app, last_opt_app, <- app_assoc, R1, R2, P2, P1, V2, V1.
  repeat split; auto; lia.
Qed.

Lemma advances_Grp_digits g n st st' :
  matches (Grp g (Rep n digit)) st st' ->
  exists w, length w = n /\ forallb is_digit w = true /\ advances w st st'.
Proof.
  intros (s1 & H & ->). apply (@reads_Rep_Cls is_digit n) in H.
  destruct H as (w & Hl & Hw & (R & P & V & _)).
  exists w. unfold advances, set_cap. simpl. repeat split; auto.
Qed.

Lemma advances_Opt_space st st' :
  matches (Opt space) st st' ->
  exists ws, no_space ws = [] /\ (length ws <= 1)%nat /\ advances ws st st'.
Proof.
  intros H. apply reads_Opt_space in H. destruct H as (ws & Hws & R).
  exists ws. split; [|split; [|now apply reads_advances]].
  - destruct Hws as [->|(c & -> & Hc)]; [reflexivity|].
    unfold no_space. simpl. now rewrite Hc.
  - destruct Hws as [->|(c & -> & Hc)]; simpl; lia.
Qed.

Lemma no_space_app u v : no_space (u ++ v) = no_space u ++ no_space v.
Proof. apply filter_app. Qed.

Lemma no_space_digits d : forallb is_digit d = true -> no_space d = d.
Proof.
  induction d as [|c d IH]; simpl; intros H; [reflexivity|].
  apply andb_true_iff in H. destruct H as [Hc Hd].
  rewrite (is_digit_not_space c Hc). simpl. now rewrite IH.
Qed.

Lemma rePhoneIntl_shape st st' :
  matches rePhoneIntl st st' ->
  exists w, phone_digits (B "+994") 4 w /\ rest st = w ++ rest st'.
Proof.
  unfold rePhoneIntl.
  intros (s1 & HL & s2 & W1 & s3 & G1 & s4 & W2 & s5 & G2 & s6 & W3 & s7 & G3
          & s8 & W4 & G4).
  apply reads_Lit, reads_advances in HL.
  apply advances_Opt_space in W1. destruct W1 as (w1 & N1 & L1 & A1).
  apply advances_Opt_space in W2. destruct W2 as (w2 & N2 & L2 & A2).
  apply advances_Opt_space in W3. destruct W3 as (w3 & N3 & L3 & A3).
  apply advances_Opt_space in W4. destruct W4 as (w4 & N4 & L4 & A4).
  apply advances_Grp_digits in G1. destruct G1 as (d1 & E1 & D1 & B1).
  apply advances_Grp_digits in G2. destruct G2 as (d2 & E2 & D2 & B2).
  apply advances_Grp_digits in G3. destruct G3 as (d3 & E3 & D3 & B3).
  apply advances_Grp_digits in G4. destruct G4 as (d4 & E4 & D4 & B4).
  pose proof (advances_app HL (advances_app A1 (advances_app B1
               (advances_app A2 (advances_app B2 (advances_app A3
               (advances_app B3 (advances_app A4 B4)))))))) as (RA & _).
  eexists. split; [|exact RA].
  exists (d1 ++ d2 ++ d3 ++ d4). split; [|split; [|split; [|split]]].
  - rewrite !length_app, E1, E2, E3, E4. reflexivity.
  - rewrite !forallb_app, D1, D2, D3, D4. reflexivity.
  - rewrite !no_space_app, N1, N2, N3, N4.
    rewrite (no_space_digits _ D1), (no_space_digits _ D2),
      (no_space_digits _ D3), (no_space_digits _ D4).
    reflexivity.
  - rewrite !length_app, E1, E2, E3, E4. simpl. lia.
  - reflexivity.
Qed.

Lemma rePhoneLocal_shape st st' :
  matches rePhoneLocal st st' ->
  exists w, phone_digits (B "0") 3 w /\ rest st = w ++ rest st' /\
            word_opt (prev st) = false /\
            word_opt (hd_error (rest st')) = false.
Proof.
  unfold rePhoneLocal.
  intros (s0 & [Hb ->] & s1 & HL & s3 & G1 & s4 & W2 & s5 & G2 & s6 & W3
          & s7 & G3 & s8 & W4 & s9 & G4 & [Hb2 ->]).
  apply reads_Lit, reads_advances in HL.
  apply advances_Opt_space in W2. destruct W2 as (w2 & N2 & L2 & A2).
  apply advances_Opt_space in W3. destruct W3 as (w3 & N3 & L3 & A3).
  apply advances_Opt_space in W4. destruct W4 as (w4 & N4 & L4 & A4).
  apply advances_Grp_digits in G1. destruct G1 as (d1 & E1 & D1 & B1).
  apply advances_Grp_digits in G2. destruct G2 as (d2 & E2 & D2 & B2).
  apply advances_Grp_digits in G3. destruct G3 as (d3 & E3 & D3 & B3).
  apply advances_Grp_digits in G4. destruct G4 as (d4 & E4 & D4 & B4).
  pose proof (advances_app HL (advances_app B1
               (advances_app A2 (advances_app B2 (advances_app A3
               (advances_app B3 (advances_app A4 B4))))))) as (RA & _).
  assert (Hne : d4 <> []) by (destruct d4; discriminate).
  eexists. split; [|split; [exact RA|split]].
  - exists (d1 ++ d2 ++ d3 ++ d4). split; [|split; [|split; [|split]]].
    + rewrite !length_app, E1, E2, E3, E4. reflexivity.
    + rewrite !forallb_app, D1, D2, D3, D4. reflexivity.
    + rewrite !no_space_app, N2, N3, N4.
      rewrite (no_space_digits _ D1), (no_space_digits _ D2),
        (no_space_digits _ D3), (no_space_digits _ D4).
      reflexivity.
    + rewrite !length_app, E1, E2, E3, E4. simpl. lia.
    + reflexivity.
  - unfold at_word_boundary in Hb. destruct HL as (R0 & _). rewrite R0 in Hb.
    simpl in Hb. now destruct (word_opt (prev st)).
  - unfold at_word_boundary in Hb2. destruct B4 as (_ & _ & V4).
    rewrite V4 in Hb2.
    rewrite (@word_last is_digit is_digit_word (prev s8) d4 Hne D4) in Hb2.
    now destruct (word_opt (hd_error (rest s9))).
Qed.

(** X13. Every entity of [matchPhone] is the unlabeled entity over a
    part of the text that begins with [+] or [0] and, once its
    whitespace bytes are left out, reads [+994] and nine digits (with at
    most four whitespace bytes) or [0] and nine digits (with at most
    three); a number of the second kind has no word byte just before
    or just after it. *)
Theorem matchPhone_shape (s : bytes) (e : Entity) :
  In e (matchPhone s) -> phone_place s e.
Proof.
  unfold matchPhone. intros Hin. apply in_app_or in Hin.
  destruct Hin as [Hin|Hin]; apply whole_entity_inv in Hin;
    destruct Hin as (pre & w & st' & Hs & Hm & ->).
  - apply rePhoneIntl_shape in Hm. destruct Hm as (w0 & Hshape & Hr).
    simpl in Hr. apply app_inv_tail in Hr. subst w0.
    exists pre, w, (rest st').
    split; [exact Hs|]. split; [left; exact Hshape | reflexivity].
  - apply rePhoneLocal_shape in Hm.
    destruct Hm as (w0 & Hshape & Hr & Hl & Hr2).
    simpl in Hr, Hl. apply app_inv_tail in Hr. subst w0.
    exists pre, w, (rest st').
    split; [exact Hs|]. split; [right; auto | reflexivity].
Qed.

(** ** URLs: what is kept and how far a match goes *)

Lemma trimRight_rev_keeps_from cs c (l m : bytes) :
  contains cs c = false ->
  exists l', trimRight_rev cs (l ++ c :: m) = l' ++ c :: m.
Proof.
  intros Hc. induction l as [|x t IH]; simpl.
  - rewrite Hc. now exists [].
  - destruct (contains cs x).
    + exact IH.
    + now exists (x :: t).
Qed.

(** Trimming never goes back beyond a byte outside the cutset. *)
Lemma TrimRight_keeps_prefix (u v cs : bytes) c :
  contains cs c = false ->
  exists t, TrimRight (u ++ c :: v) cs = (u ++ [c]) ++ t.
Proof.
  intros Hc. unfold TrimRight.
  rewrite rev_app_distr. simpl. rewrite <- app_assoc. simpl.
  destruct (trimRight_rev_keeps_from cs c (rev v) (rev u) Hc) as (l' & ->).
  exists (rev l'). rewrite rev_app_distr. simpl.
  rewrite rev_involutive. reflexivity.
Qed.

Lemma reURL_greedy st res :
  exec reURL st = Some res -> stops_before url_char (rest res).
Proof.
  unfold reURL, Plus. intros H.
  repeat (apply exec_Cat_tail in H; destruct H as (? & H)).
  now apply exec_Star_greedy in H.
Qed.

Lemma matchURL_place (s : bytes) (e : Entity) :
  In e (matchURL s) -> url_place s e.
Proof.
  intros Hin. unfold matchURL, FindAllStringIndex in Hin.
  rewrite map_map in Hin. apply in_map_iff in Hin.
  destruct Hin as ([a st'] & <- & Hin).
  apply allMatches_exec in Hin.
  destruct Hin as (pre & w & Hs & -> & Hp & He).
  pose proof (reURL_greedy _ He) as Hg.
  apply exec_sound, reURL_shape in He. destruct He as (w0 & Hw0 & Hr).
  simpl in Hr. apply app_inv_tail in Hr. subst w0.
  destruct (TrimRight_prefix w url_cutset) as (tail & Hw & Htail).
  pose proof (TrimRight_stops w url_cutset) as Hstop.
  unfold url_entity. simpl fst. simpl snd. rewrite Hp, Hs, slice_mid.
  destruct Hw0 as (scheme0 & body0 & Hsch & Hne & Hbody & Hw0).
  assert (Hkeep : exists scheme t,
            (scheme = B "http://" \/ scheme = B "https://") /\
            w = scheme ++ body0 /\ TrimRight w url_cutset = scheme ++ t).
  { destruct Hsch as [-> | ->]; simpl in Hw0.
    - destruct (@TrimRight_keeps_prefix (B "http:/") body0 url_cutset "/"%char
                  eq_refl) as (t & Ht).
      exists (B "http://"), t. rewrite Hw0. split; [now left|].
      split; [reflexivity | exact Ht].
    - destruct (@TrimRight_keeps_prefix (B "https:/") body0 url_cutset "/"%char
                  eq_refl) as (t & Ht).
      exists (B "https://"), t. rewrite Hw0. split; [now right|].
      split; [reflexivity | exact Ht]. }
  destruct Hkeep as (scheme & t & Hscheme & Hwb & Ht).
  assert (Hb : body0 = t ++ tail).
  { rewrite Ht, Hwb, <- app_assoc in Hw. now apply app_inv_head in Hw. }
  exists pre, scheme, t, tail, (rest st').
  rewrite <- Hb, <- Ht.
  split.
  { f_equal. rewrite (app_assoc (TrimRight w url_cutset)), <- Hw.
    reflexivity. }
  split; [exact Hscheme|]. split; [exact Hbody|]. split; [exact Hne|].
  split; [exact Htail|]. split; [exact Hstop|]. split; [exact Hg|].
  reflexivity.
Qed.

(** X14. A URL entity keeps its scheme and goes as far as it can: every
    entity of [matchURL], and so every URL entity of the result of
    [recognize], is the unlabeled entity over a part of the text
    that begins with [http://] or [https://] (trimming never reaches
    the scheme) and ends with a byte outside the cutset [.,;:!?)]}>];
    the bytes trimmed after it all lie in the cutset; and what follows
    them is the end of the text or a byte the pattern's class
    excludes. *)
Theorem matchURL_extent {sorter : Sorter} (s : bytes) :
  (forall e, In e (matchURL s) -> url_place s e) /\
  (forall e, In e (recognize s) -> Type_ e = URL -> url_place s e).
Proof.
  split; [intros e He; now apply matchURL_place|].
  intros e He Hty. apply matchURL_place.
  rewrite recognize_resolved in He. apply resolveOverlaps_incl in He.
  unfold candidates, matchEmail, matchIBAN, matchLicensePlate, matchPhone,
    matchFIN, matchVOEN in He.
  repeat (apply in_app_or in He; destruct He as [He|He]); auto;
    apply in_map_iff in He; destruct He as (m & <- & _); discriminate.
Qed.

(* ================================================================== *)
(** * Further properties: order, origin and length of the entities *)
(* ================================================================== *)

Lemma chain_map (f : Z * Z -> Entity) (l : list (Z * Z)) :
  StronglySorted (fun m1 m2 => snd m1 <= fst m2) l ->
  (forall m, In m l -> Start (f m) = fst m /\ End (f m) <= snd m) ->
  in_text_order (map f l).
Proof.
  unfold in_text_order.
  induction 1 as [|m t Hs IH Hall]; intros Hf; simpl; constructor.
  - apply IH. intros m' Hm'. apply Hf. now right.
  - rewrite Forall_forall in *. intros e He.
    apply in_map_iff in He. destruct He as (m' & <- & Hm').
    destruct (Hf m (or_introl eq_refl)) as [_ H1].
    destruct (Hf m' (or_intror Hm')) as [H2 _].
    specialize (Hall m' Hm'). lia.
Qed.

Lemma TrimRight_len (w cs : bytes) : len (TrimRight w cs) <= len w.
Proof.
  destruct (TrimRight_prefix w cs) as (tail & Hw & _).
  rewrite Hw at 2. rewrite len_app. unfold len. lia.
Qed.

Lemma slice_len (s : bytes) a b : a <= b -> len (slice s a b) <= b - a.
Proof.
  intros Hab. unfold slice, len.
  pose proof (firstn_le_length (Z.to_nat (b - a)) (skipn (Z.to_nat a) s)).
  lia.
Qed.

Lemma url_entity_end s m : fst m <= snd m -> End (url_entity s m) <= snd m.
Proof.
  intros Hm. unfold url_entity. simpl.
  pose proof (TrimRight_len (slice s (fst m) (snd m)) url_cutset).
  pose proof (slice_len s Hm). lia.
Qed.

(** X15. Each matcher that runs a single pattern returns its entities
    in text order, each ending at or before the start of the next:
    [matchURL] (also after trimming), [matchEmail], [matchIBAN] and
    [matchLicensePlate].  [matchPhone], which appends the matches of
    its second pattern to those of the first, does not: a local number
    that stands before an international one comes after it in the
    slice. *)
Theorem matchers_in_text_order (s : bytes) :
  in_text_order (matchURL s) /\ in_text_order (matchEmail s) /\
  in_text_order (matchIBAN s) /\ in_text_order (matchLicensePlate s) /\
  ~ in_text_order (matchPhone (B "0551234567 +994501234567")).
Proof.
  split; [|split; [|split; [|split]]].
  - unfold matchURL. apply chain_map; [apply FindAllStringIndex_chain|].
    intros m Hm. split; [reflexivity|].
    apply url_entity_end. apply FindAllStringIndex_forward in Hm. lia.
  - apply whole_in_text_order.
  - apply whole_in_text_order.
  - apply whole_in_text_order.
  - assert (Hp : matchPhone (B "0551234567 +994501234567")
                 = [mkEntity (B "+994501234567") 11 24 Phone false;
                    mkEntity (B "0551234567") 0 10 Phone false])
      by (vm_compute; reflexivity).
    rewrite Hp. intros H. inversion H as [|? ? _ Hall]; subst.
    inversion Hall as [|? ? Hle _]; subst. simpl in Hle. lia.
Qed.

Lemma matcher_of_type ty s e :
  In e (matcher_of ty s) ->
  Type_ e = ty /\ (Labeled e = true -> ty = FIN \/ ty = VOEN).
Proof.
  destruct ty; simpl;
    unfold matchPhone, matchEmail, matchURL, matchIBAN, matchLicensePlate,
      matchFIN, matchVOEN;
    intros Hin;
    repeat (apply in_app_or in Hin; destruct Hin as [Hin|Hin]);
    apply in_map_iff in Hin; destruct Hin as (m & <- & _); simpl;
    (split; [reflexivity|]); intros H; try discriminate; auto.
Qed.

Lemma candidates_matcher s e :
  In e (candidates s) <-> exists ty, In e (matcher_of ty s).
Proof.
  unfold candidates. split.
  - intros Hin.
    apply in_app_or in Hin. destruct Hin as [Hin|Hin]; [now exists URL|].
    apply in_app_or in Hin. destruct Hin as [Hin|Hin]; [now exists Email|].
    apply in_app_or in Hin. destruct Hin as [Hin|Hin]; [now exists IBAN|].
    apply in_app_or in Hin.
    destruct Hin as [Hin|Hin]; [now exists LicensePlate|].
    apply in_app_or in Hin. destruct Hin as [Hin|Hin]; [now exists Phone|].
    apply in_app_or in Hin. destruct Hin as [Hin|Hin]; [now exists FIN|].
    now exists VOEN.
  - intros ([] & Hin); simpl in Hin; rewrite !in_app_iff; auto 10.
Qed.

Section OriginTheorems.
Context {sorter : Sorter}.

(** X16. Every entity of the result of [recognize] was produced by the
    matcher of its own type, unchanged; and only FIN and VOEN entities
    are ever labeled. *)
Theorem recognize_entity_origin (s : bytes) (e : Entity) :
  In e (recognize s) ->
  In e (matcher_of (Type_ e) s) /\
  (Labeled e = true -> Type_ e = FIN \/ Type_ e = VOEN).
Proof.
  rewrite recognize_resolved. intros Hin.
  apply resolveOverlaps_incl, candidates_matcher in Hin.
  destruct Hin as (ty & Hin).
  destruct (matcher_of_type ty s e Hin) as [Hty Hlab].
  rewrite Hty. auto.
Qed.

End OriginTheorems.

(** ** Lengths *)

Lemma no_space_length w : (length (no_space w) <= length w)%nat.
Proof. apply filter_length_le. Qed.

Lemma phone_digits_length prefix k w :
  phone_digits prefix k w ->
  (length prefix + 9 <= length w <= length prefix + 9 + k)%nat.
Proof.
  intros (d & Hd & _ & Hn & Hle & _).
  pose proof (no_space_length w) as H. rewrite Hn, length_app, Hd in H. lia.
Qed.

Lemma email_shape_length w : email_shape w -> (6 <= length w)%nat.
Proof.
  intros (l & d & t & -> & Hl & _ & Hd & _ & Ht & _).
  rewrite !length_app. simpl.
  destruct l; [contradiction|]. destruct d; [contradiction|]. simpl. lia.
Qed.

Lemma fin_char_length ch : fin_char ch -> (1 <= length ch <= 3)%nat.
Proof.
  intros [(b & -> & _)|[-> | ->]]; simpl; lia.
Qed.

Lemma concat_length_bounds (chars : list bytes) :
  Forall fin_char chars ->
  (length chars <= length (concat chars) <= 3 * length chars)%nat.
Proof.
  induction 1 as [|ch chars Hch _ IH]; simpl; [lia|].
  rewrite length_app. pose proof (fin_char_length Hch). lia.
Qed.

Lemma fin_code_ci_length code :
  fin_code_ci code -> (7 <= length code <= 21)%nat.
Proof.
  intros (chars & Hlen & Hall & ->).
  pose proof (concat_length_bounds Hall). lia.
Qed.

Lemma whole_span r s ty e (lo hi : nat) :
  (forall st st', matches r st st' ->
     exists w, rest st = w ++ rest st' /\ (lo <= length w <= hi)%nat) ->
  In e (map (whole s ty) (FindAllStringIndex r s)) ->
  Z.of_nat lo <= End e - Start e <= Z.of_nat hi.
Proof.
  intros Hshape Hin. apply whole_entity_inv in Hin.
  destruct Hin as (pre & w & st' & _ & Hm & ->).
  apply Hshape in Hm. destruct Hm as (w0 & Hr & Hlen). simpl in Hr.
  apply app_inv_tail in Hr. subst w0. simpl. unfold len. lia.
Qed.

Lemma labeled_fin_span s e :
  In e (map (captured s FIN) (FindAllStringSubmatchIndex reFINLabeled s)) ->
  7 <= End e - Start e <= 21.
Proof.
  intros Hin. apply captured_entity_inv in Hin; [|reflexivity].
  destruct Hin as (pre & w & st' & _ & Hm & ->).
  apply reFINLabeled_shape in Hm.
  destruct Hm as (kw & sep & code & _ & _ & _ & Hcode & _ & _ & Hc & _).
  rewrite Hc. simpl.
  pose proof (fin_code_ci_length Hcode).
  rewrite (app_assoc kw sep code), (length_app (kw ++ sep) code). lia.
Qed.

Lemma matcher_span ty s e :
  In e (matcher_of ty s) -> span_within ty (End e - Start e).
Proof.
  unfold span_within.
  destruct ty; simpl; intros Hin.
  - (* Phone *)
    unfold matchPhone in Hin. apply in_app_or in Hin.
    destruct Hin as [Hin|Hin].
    + apply (@whole_span rePhoneIntl s Phone e 13 17) in Hin; [lia|].
      intros st st' Hm. apply rePhoneIntl_shape in Hm.
      destruct Hm as (w & Hw & Hr). exists w. split; [exact Hr|].
      apply phone_digits_length in Hw. simpl in Hw. lia.
    + apply (@whole_span rePhoneLocal s Phone e 10 13) in Hin; [lia|].
      intros st st' Hm. apply rePhoneLocal_shape in Hm.
      destruct Hm as (w & Hw & Hr & _). exists w. split; [exact Hr|].
      apply phone_digits_length in Hw. simpl in Hw. lia.
  - (* Email *)
    apply whole_entity_inv in Hin.
    destruct Hin as (pre & w & st' & _ & Hm & ->).
    apply reEmail_shape in Hm. destruct Hm as (w0 & Hw & Hr). simpl in Hr.
    apply app_inv_tail in Hr. subst w0.
    apply email_shape_length in Hw. simpl. unfold len. lia.
  - (* URL *)
    apply matchURL_place in Hin.
    destruct Hin as (pre & scheme & body & tail & post & _ & Hsch & _ & _ & _
                     & _ & _ & ->).
    simpl. unfold len. rewrite length_app.
    destruct Hsch as [-> | ->]; simpl; lia.
  - (* IBAN *)
    apply (@whole_span reIBAN s IBAN e 28 28) in Hin; [lia|].
    intros st st' Hm. apply reIBAN_shape in Hm.
    destruct Hm as (w & Hw & Hr & _). exists w. split; [exact Hr|].
    apply iban_shape_word in Hw. lia.
  - (* LicensePlate *)
    apply (@whole_span reLicensePlate s LicensePlate e 9 9) in Hin; [lia|].
    intros st st' Hm. apply reLicensePlate_shape in Hm.
    destruct Hm as (w & Hw & Hr & _). exists w. split; [exact Hr|].
    apply plate_shape_length in Hw. lia.
  - (* FIN *)
    unfold matchFIN in Hin. apply in_app_or in Hin.
    destruct Hin as [Hin|Hin].
    + exact (@labeled_fin_span s e Hin).
    + apply (proj1 (@bare_entities fin_class fin_class_word 7
                      (Nat.lt_0_succ 6) FIN s e)) in Hin.
      destruct Hin as (pre & w & post & _ & _ & _ & _ & _ & ->). simpl. lia.
  - (* VOEN *)
    destruct (Labeled e) eqn:Hlab.
    + destruct (@labeled_voen_sound s e Hin Hlab)
        as (pre & kw & sep & code & post & _ & _ & _ & _ & _ & _ & _ & ->).
      simpl. lia.
    + unfold matchVOEN in Hin. apply in_app_or in Hin.
      destruct Hin as [Hin|Hin].
      * apply in_map_iff in Hin. destruct Hin as (m & <- & _). discriminate.
      * apply (proj1 (@bare_entities is_digit is_digit_word 10
                        (Nat.lt_0_succ 9) VOEN s e)) in Hin.
        destruct Hin as (pre & w & post & _ & _ & _ & _ & _ & ->). simpl. lia.
Qed.

Lemma slice_length (s : bytes) a b :
  0 <= a -> a <= b -> b <= len s -> len (slice s a b) = b - a.
Proof.
  unfold slice, len. intros H0 Hab Hb.
  rewrite length_firstn, length_skipn. lia.
Qed.

Lemma least_span_6 ty : 6 <= least_span ty.
Proof. destruct ty; simpl; lia. Qed.

Lemma candidate_span s e :
  In e (candidates s) -> span_within (Type_ e) (End e - Start e).
Proof.
  intros Hin. apply candidates_matcher in Hin. destruct Hin as (ty & Hin).
  destruct (matcher_of_type ty s e Hin) as [-> _].
  now apply matcher_span with s.
Qed.

Lemma chain_count (l : list Entity) : forall m N,
  StronglySorted (fun a b => End a <= Start b) l ->
  Forall (fun e => m <= Start e /\ Start e + 6 <= End e /\ End e <= N) l ->
  m <= N -> m + 6 * Z.of_nat (length l) <= N.
Proof.
  induction l as [|c t IH]; intros m N Hs Hl Hm; [simpl; lia|].
  inversion Hs as [|? ? Hst Hall]; subst.
  inversion Hl as [|? ? (Hc1 & Hc2 & Hc3) Ht]; subst.
  assert (Hrec : End c + 6 * Z.of_nat (length t) <= N).
  { apply IH; [exact Hst | | exact Hc3].
    rewrite Forall_forall in *. intros e He.
    specialize (Hall e He). destruct (Ht e He) as (_ & H2 & H3).
    repeat split; assumption. }
  simpl length. lia.
Qed.

Section LengthTheorems.
Context {sorter : Sorter}.

(** X17. The length of an entity of the result, in bytes, lies in the
    range of its type: 10 to 17 for a phone number, 6 or more for an
    e-mail address, 7 or more for a URL, 28 for an IBAN, 9 for a licence
    plate, 7 to 21 for a FIN and 10 for a VOEN; and it is the length of
    the entity's text. *)
Theorem entity_length_by_type (s : bytes) (e : Entity) :
  In e (recognize s) ->
  span_within (Type_ e) (End e - Start e) /\
  len (Text e) = End e - Start e.
Proof.
  rewrite recognize_resolved. intros Hin. apply resolveOverlaps_incl in Hin.
  split; [now apply candidate_span with s|].
  apply candidates_faithful in Hin. destruct Hin as (H0 & H1 & H2 & ->).
  apply slice_length; lia.
Qed.

(** X18. Six bytes of text are needed for each entity: the result of
    [recognize] holds at most a sixth of the text's length in
    entities, and none at all for a text of fewer than six bytes. *)
Theorem recognize_count_bound (s : bytes) :
  6 * Z.of_nat (length (recognize s)) <= len s /\
  (len s < 6 -> recognize s = []).
Proof.
  assert (Hb : 6 * Z.of_nat (length (recognize s)) <= len s).
  { rewrite recognize_resolved.
    apply (@chain_count (resolveOverlaps (candidates s)) 0 (len s)).
    - apply resolveOverlaps_chain, candidates_positive.
    - apply Forall_forall. intros e He. apply resolveOverlaps_incl in He.
      pose proof (candidate_span _ _ He) as [Hlo _].
      pose proof (least_span_6 (Type_ e)).
      apply candidates_faithful in He. destruct He as (H0 & H1 & H2 & _).
      lia.
    - unfold len. lia. }
  split; [exact Hb|].
  intros Hs. destruct (recognize s); [reflexivity|].
  simpl length in Hb. lia.
Qed.

End LengthTheorems.

(** ** Phone numbers written without spaces are found *)

Lemma run_Cat a b k st : run (a ;; b) k st = run a (run b k) st.
Proof. reflexivity. Qed.

Lemma run_Opt_space_digits k (w post : bytes) i pv cs :
  w <> [] -> forallb is_digit w = true ->
  run (Opt space) k (MState (w ++ post) i pv cs)
  = k (MState (w ++ post) i pv cs).
Proof.
  intros Hne Hw. destruct w as [|c w]; [contradiction|].
  simpl in Hw. apply andb_true_iff in Hw. destruct Hw as [Hc _].
  simpl. now rewrite (is_digit_not_space c Hc).
Qed.

Lemma run_Grp_digits g n k (w post : bytes) i pv cs :
  length w = n -> forallb is_digit w = true ->
  run (Grp g (Rep n digit)) k (MState (w ++ post) i pv cs)
  = k (set_cap g i (i + length w)
                (MState post (i + length w) (last_opt pv w) cs)).
Proof.
  intros <- Hw. unfold digit. simpl run.
  now rewrite (run_Rep_Cls _ _ _ _ w _ _ Hw).
Qed.

Lemma nine_digits d :
  length d = 9%nat -> forallb is_digit d = true ->
  exists d1 d2 d3 d4,
    d = d1 ++ d2 ++ d3 ++ d4 /\
    (length d1 = 2 /\ length d2 = 3 /\ length d3 = 2 /\ length d4 = 2)%nat /\
    forallb is_digit d1 = true /\ forallb is_digit d2 = true /\
    forallb is_digit d3 = true /\ forallb is_digit d4 = true.
Proof.
  intros Hlen Hd.
  do 9 (destruct d as [|? d]; [discriminate|]). destruct d; [|discriminate].
  simpl in Hd.
  repeat (apply andb_true_iff in Hd; destruct Hd as [? Hd]).
  exists [a; a0], [a1; a2; a3], [a4; a5], [a6; a7]. simpl.
  repeat match goal with H : is_digit _ = true |- _ => rewrite H; clear H end.
  repeat split; reflexivity.
Qed.

Lemma rePhoneIntl_exec pre d post :
  length d = 9%nat -> forallb is_digit d = true ->
  exists st', exec rePhoneIntl (st_at pre (B "+994" ++ d ++ post)) = Some st' /\
              pos st' = (length pre + 13)%nat.
Proof.
  intros Hlen Hd.
  destruct (nine_digits d Hlen Hd)
    as (d1 & d2 & d3 & d4 & -> & (E1 & E2 & E3 & E4) & D1 & D2 & D3 & D4).
  assert (N1 : d1 <> []) by (destruct d1; discriminate).
  assert (N2 : d2 <> []) by (destruct d2; discriminate).
  assert (N3 : d3 <> []) by (destruct d3; discriminate).
  assert (N4 : d4 <> []) by (destruct d4; discriminate).
  eexists. split.
  - unfold exec, rePhoneIntl, st_at. rewrite <- !app_assoc.
    rewrite run_Cat, run_Lit.
    rewrite run_Cat, (@run_Opt_space_digits _ _ _ _ _ _ N1 D1).
    rewrite run_Cat, (@run_Grp_digits _ _ _ _ _ _ _ _ E1 D1). unfold set_cap at 1.
    cbn [rest pos prev caps].
    rewrite run_Cat, (@run_Opt_space_digits _ _ _ _ _ _ N2 D2).
    rewrite run_Cat, (@run_Grp_digits _ _ _ _ _ _ _ _ E2 D2). unfold set_cap at 1.
    cbn [rest pos prev caps].
    rewrite run_Cat, (@run_Opt_space_digits _ _ _ _ _ _ N3 D3).
    rewrite run_Cat, (@run_Grp_digits _ _ _ _ _ _ _ _ E3 D3). unfold set_cap at 1.
    cbn [rest pos prev caps].
    rewrite <- (app_nil_r d4) at 1. rewrite <- app_assoc.
    rewrite run_Cat, (@run_Opt_space_digits _ _ _ _ _ _ N4 D4).
    rewrite (@run_Grp_digits _ _ _ _ _ _ _ _ E4 D4).
    reflexivity.
  - unfold set_cap. cbn [rest pos prev caps]. rewrite E1, E2, E3, E4.
    simpl. lia.
Qed.

Lemma is_space_not_digit c : is_space c = true -> is_digit c = false.
Proof. destruct c as [[] [] [] [] [] [] [] []]; vm_compute; congruence. Qed.

Lemma is_space_not_word c : is_space c = true -> isWordChar c = false.
Proof. destruct c as [[] [] [] [] [] [] [] []]; vm_compute; congruence. Qed.

Lemma opt_space_parts st st' :
  matches (Opt space) st st' ->
  exists ws, (ws = [] \/ exists c, ws = [c] /\ is_space c = true) /\
             advances ws st st'.
Proof.
  intros H. apply reads_Opt_space in H. destruct H as (ws & Hws & R).
  exists ws. split; [exact Hws | now apply reads_advances].
Qed.

Lemma opt_space_class ws :
  (ws = [] \/ exists c, ws = [c] /\ is_space c = true) ->
  forallb (fun c => is_digit c || is_space c)%bool ws = true.
Proof.
  intros [->|(c & -> & Hc)]; simpl; [reflexivity|].
  now rewrite Hc, orb_true_r.
Qed.

Lemma digits_class d :
  forallb is_digit d = true ->
  forallb (fun c => is_digit c || is_space c)%bool d = true.
Proof.
  apply forallb_impl. intros c Hc. now rewrite Hc.
Qed.

(** After its [+] an international number holds digits and whitespace
    only. *)
Lemma rePhoneIntl_body st st' :
  matches rePhoneIntl st st' ->
  exists w, rest st = "+"%char :: w ++ rest st' /\
            pos st' = (pos st + S (length w))%nat /\
            forallb (fun c => is_digit c || is_space c)%bool w = true.
Proof.
  unfold rePhoneIntl.
  intros (s1 & HL & s2 & W1 & s3 & G1 & s4 & W2 & s5 & G2 & s6 & W3 & s7 & G3
          & s8 & W4 & G4).
  apply reads_Lit, reads_advances in HL.
  apply opt_space_parts in W1. destruct W1 as (w1 & N1 & A1).
  apply opt_space_parts in W2. destruct W2 as (w2 & N2 & A2).
  apply opt_space_parts in W3. destruct W3 as (w3 & N3 & A3).
  apply opt_space_parts in W4. destruct W4 as (w4 & N4 & A4).
  apply advances_Grp_digits in G1. destruct G1 as (d1 & E1 & D1 & B1).
  apply advances_Grp_digits in G2. destruct G2 as (d2 & E2 & D2 & B2).
  apply advances_Grp_digits in G3. destruct G3 as (d3 & E3 & D3 & B3).
  apply advances_Grp_digits in G4. destruct G4 as (d4 & E4 & D4 & B4).
  pose proof (advances_app HL (advances_app A1 (advances_app B1
               (advances_app A2 (advances_app B2 (advances_app A3
               (advances_app B3 (advances_app A4 B4)))))))) as (RA & PA & _).
  exists (B "994" ++ w1 ++ d1 ++ w2 ++ d2 ++ w3 ++ d3 ++ w4 ++ d4).
  split; [exact RA|]. split; [rewrite PA; simpl; lia|].
  rewrite !forallb_app.
  rewrite (opt_space_class N1), (opt_space_class N2), (opt_space_class N3),
    (opt_space_class N4), (digits_class _ D1), (digits_class _ D2),
    (digits_class _ D3), (digits_class _ D4).
  reflexivity.
Qed.

Lemma intl_no_overlap u v tail st1 :
  v <> [] ->
  exec rePhoneIntl (st_at u (v ++ "+"%char :: tail)) = Some st1 ->
  (pos st1 <= length u + length v)%nat.
Proof.
  intros Hv He. apply exec_sound, rePhoneIntl_body in He.
  destruct He as (w & Hr & Hp & Hw). simpl in Hr, Hp. rewrite Hp.
  destruct v as [|v0 v]; [contradiction|]. clear Hv.
  simpl in Hr. injection Hr as _ Hr.
  apply app_eq_app in Hr. destruct Hr as (l & [[Hv1 Hr]|[Hv1 Hr]]).
  - apply (f_equal (@length _)) in Hv1. rewrite length_app in Hv1.
    simpl. lia.
  - destruct l as [|x l].
    + rewrite app_nil_r in Hv1. apply (f_equal (@length _)) in Hv1.
      simpl. lia.
    + exfalso. simpl in Hr. inversion Hr; subst x.
      rewrite Hv1, forallb_app in Hw. simpl in Hw.
      apply andb_true_iff in Hw. destruct Hw as [_ Hw].
      discriminate.
Qed.

Lemma rePhoneLocal_parts st st' :
  matches rePhoneLocal st st' ->
  exists d1 s2 d2 s3 d3 s4 d4,
    rest st = "0"%char :: d1 ++ s2 ++ d2 ++ s3 ++ d3 ++ s4 ++ d4 ++ rest st' /\
    pos st' = (pos st + S (length (d1 ++ s2 ++ d2 ++ s3 ++ d3 ++ s4 ++ d4)))%nat /\
    (length d1 = 2 /\ length d2 = 3 /\ length d3 = 2 /\ length d4 = 2)%nat /\
    forallb is_digit (d1 ++ d2 ++ d3 ++ d4) = true /\
    (s2 = [] \/ exists c, s2 = [c] /\ is_space c = true) /\
    (s3 = [] \/ exists c, s3 = [c] /\ is_space c = true) /\
    (s4 = [] \/ exists c, s4 = [c] /\ is_space c = true) /\
    word_opt (hd_error (rest st')) = false.
Proof.
  unfold rePhoneLocal.
  intros (s0 & [Hb ->] & s1 & HL & s3' & G1 & s4' & W2 & s5 & G2 & s6 & W3
          & s7 & G3 & s8 & W4 & s9 & G4 & [Hb2 ->]).
  apply reads_Lit, reads_advances in HL.
  apply opt_space_parts in W2. destruct W2 as (w2 & N2 & A2).
  apply opt_space_parts in W3. destruct W3 as (w3 & N3 & A3).
  apply opt_space_parts in W4. destruct W4 as (w4 & N4 & A4).
  apply advances_Grp_digits in G1. destruct G1 as (d1 & E1 & D1 & B1).
  apply advances_Grp_digits in G2. destruct G2 as (d2 & E2 & D2 & B2).
  apply advances_Grp_digits in G3. destruct G3 as (d3 & E3 & D3 & B3).
  apply advances_Grp_digits in G4. destruct G4 as (d4 & E4 & D4 & B4).
  pose proof (advances_app HL (advances_app B1
               (advances_app A2 (advances_app B2 (advances_app A3
               (advances_app B3 (advances_app A4 B4))))))) as (RA & PA & _).
  assert (Hne : d4 <> []) by (destruct d4; discriminate).
  exists d1, w2, d2, w3, d3, w4, d4.
  split; [rewrite RA, <- !app_assoc; reflexivity|].
  split; [rewrite PA; simpl; lia|].
  split; [auto|].
  split; [rewrite !forallb_app, D1, D2, D3, D4; reflexivity|].
  split; [exact N2|]. split; [exact N3|]. split; [exact N4|].
  unfold at_word_boundary in Hb2. destruct B4 as (_ & _ & V4).
  rewrite V4 in Hb2.
  rewrite (@word_last is_digit is_digit_word (prev s8) d4 Hne D4) in Hb2.
  now destruct (word_opt (hd_error (rest s9))).
Qed.

Ltac note_classes :=
  repeat match goal with
  | H : (_ && _)%bool = true |- _ => apply andb_true_iff in H; destruct H
  end;
  repeat match goal with
  | H : is_digit ?c = true |- _ =>
      lazymatch goal with
      | _ : isWordChar c = true |- _ => fail
      | _ => pose proof (is_digit_word c H)
      end
  | H : is_space ?c = true |- _ =>
      lazymatch goal with
      | _ : isWordChar c = false |- _ => fail
      | _ => pose proof (is_space_not_word c H);
             pose proof (is_space_not_digit c H)
      end
  end.

(** A local number never reaches over the start of a later run of ten
    digits: inside it a word can begin only after a whitespace byte,
    and from there it holds fewer than ten digits before it ends at a
    byte that is no digit. *)
Lemma local_no_overlap u v w post st1 :
  v <> [] -> length w = 10%nat -> forallb is_digit w = true ->
  word_opt (last_opt None (u ++ v)) = false ->
  exec rePhoneLocal (st_at u (v ++ w ++ post)) = Some st1 ->
  (pos st1 <= length u + length v)%nat.
Proof.
  intros Hv Hlen Hw Hl He. apply exec_sound, rePhoneLocal_parts in He.
  destruct He as (d1 & s2 & d2 & s3 & d3 & s4 & d4 & Hr & Hp
                  & (E1 & E2 & E3 & E4) & Hd & N2 & N3 & N4 & Hb2).
  simpl in Hr, Hp. rewrite Hp.
  remember (rest st1) as r1 eqn:Hr1. clear Hr1 Hp.
  rewrite last_opt_app in Hl.
  destruct (le_lt_dec (S (length (d1 ++ s2 ++ d2 ++ s3 ++ d3 ++ s4 ++ d4)))
                      (length v)) as [|Hlt]; [lia|].
  exfalso.
  do 10 (destruct w as [|? w]; [discriminate|]). destruct w; [|discriminate].
  destruct d1 as [|? [|? [|? ?]]]; try discriminate.
  destruct d2 as [|? [|? [|? [|? ?]]]]; try discriminate.
  destruct d3 as [|? [|? [|? ?]]]; try discriminate.
  destruct d4 as [|? [|? [|? ?]]]; try discriminate.
  clear Hlen E1 E2 E3 E4. simpl in Hw, Hd.
  destruct v as [|v0 v]; [contradiction|]. clear Hv.
  destruct N2 as [->|(c2 & -> & Hc2)];
    destruct N3 as [->|(c3 & -> & Hc3)];
    destruct N4 as [->|(c4 & -> & Hc4)];
    note_classes;
    do 13 (destruct v as [|? v];
           [first [ simpl in Hlt; lia
                  | simpl in Hr, Hl; inversion Hr; subst; simpl in *;
                    congruence ]|]);
    simpl in Hlt; lia.
Qed.

Lemma run_WordB k st :
  at_word_boundary st = true -> run WordB k st = k st.
Proof. intros H. simpl. now rewrite H. Qed.

Lemma rePhoneLocal_exec pre d post :
  length d = 9%nat -> forallb is_digit d = true ->
  word_opt (last_opt None pre) = false ->
  word_opt (hd_error post) = false ->
  exists st', exec rePhoneLocal (st_at pre (B "0" ++ d ++ post)) = Some st' /\
              pos st' = (length pre + 10)%nat.
Proof.
  intros Hlen Hd Hl Hr.
  destruct (nine_digits d Hlen Hd)
    as (d1 & d2 & d3 & d4 & -> & (E1 & E2 & E3 & E4) & D1 & D2 & D3 & D4).
  assert (N2 : d2 <> []) by (destruct d2; discriminate).
  assert (N3 : d3 <> []) by (destruct d3; discriminate).
  assert (N4 : d4 <> []) by (destruct d4; discriminate).
  eexists. split.
  - unfold exec, rePhoneLocal, st_at. rewrite <- !app_assoc.
    rewrite run_Cat, run_WordB
      by (unfold at_word_boundary; simpl; now rewrite Hl).
    rewrite run_Cat, run_Lit.
    rewrite run_Cat, (@run_Grp_digits _ _ _ _ _ _ _ _ E1 D1).
    unfold set_cap at 1. cbn [rest pos prev caps].
    rewrite run_Cat, (@run_Opt_space_digits _ _ _ _ _ _ N2 D2).
    rewrite run_Cat, (@run_Grp_digits _ _ _ _ _ _ _ _ E2 D2).
    unfold set_cap at 1. cbn [rest pos prev caps].
    rewrite run_Cat, (@run_Opt_space_digits _ _ _ _ _ _ N3 D3).
    rewrite run_Cat, (@run_Grp_digits _ _ _ _ _ _ _ _ E3 D3).
    unfold set_cap at 1. cbn [rest pos prev caps].
    rewrite run_Cat, (@run_Opt_space_digits _ _ _ _ _ _ N4 D4).
    rewrite run_Cat, (@run_Grp_digits _ _ _ _ _ _ _ _ E4 D4).
    unfold set_cap at 1. cbn [rest pos prev caps].
    rewrite run_WordB; [reflexivity|].
    unfold at_word_boundary. cbn [rest pos prev caps].
    now rewrite (@word_last is_digit is_digit_word _ d4 N4 D4), Hr.
  - cbn [rest pos prev caps]. rewrite E1, E2, E3, E4. simpl. lia.
Qed.

(** X19. Phone numbers written without spaces are candidates wherever
    they stand: [+994] followed by nine digits gives a Phone entity
    over those thirteen bytes whatever comes before or after them, also
    further digits; and [0] followed by nine digits gives a Phone
    entity over those ten bytes when no word byte stands just before or
    just after them. *)
Theorem plain_phone_numbers_found (pre d post : bytes) :
  length d = 9%nat -> forallb is_digit d = true ->
  In (mkEntity (B "+994" ++ d) (len pre) (len pre + 13) Phone false)
     (matchPhone (pre ++ (B "+994" ++ d) ++ post)) /\
  (word_opt (last_opt None pre) = false ->
   word_opt (hd_error post) = false ->
   In (mkEntity (B "0" ++ d) (len pre) (len pre + 10) Phone false)
      (matchPhone (pre ++ (B "0" ++ d) ++ post))).
Proof.
  intros Hlen Hd. unfold matchPhone. split.
  - apply in_or_app. left.
    destruct (@rePhoneIntl_exec pre d post Hlen Hd) as (st' & He & Hp).
    assert (Hin : In (length pre, st')
                     (allMatches rePhoneIntl (pre ++ (B "+994" ++ d) ++ post))).
    { apply allMatches_complete; [| lia |].
      - now rewrite <- app_assoc.
      - intros u v st1 Hu Hv He1. rewrite Hu, length_app.
        now apply (@intl_no_overlap u v (B "994" ++ d ++ post) st1). }
    assert (Hw : length (B "+994" ++ d) = 13%nat)
      by (rewrite length_app, Hlen; reflexivity).
    rewrite <- Hw in Hp.
    pose proof (@whole_entity_intro rePhoneIntl pre (B "+994" ++ d) post st'
                  Phone Hin Hp) as Hout.
    unfold len in Hout at 3. rewrite Hw in Hout. exact Hout.
  - intros Hl Hr. apply in_or_app. right.
    destruct (@rePhoneLocal_exec pre d post Hlen Hd Hl Hr) as (st' & He & Hp).
    assert (Hin : In (length pre, st')
                     (allMatches rePhoneLocal (pre ++ (B "0" ++ d) ++ post))).
    { apply allMatches_complete; [| lia |].
      - now rewrite <- app_assoc.
      - intros u v st1 Hu Hv He1. rewrite Hu, length_app.
        apply (@local_no_overlap u v (B "0" ++ d) post st1 Hv).
        + rewrite length_app, Hlen. reflexivity.
        + simpl. exact Hd.
        + now rewrite <- Hu.
        + exact He1. }
    assert (Hw : length (B "0" ++ d) = 10%nat)
      by (rewrite length_app, Hlen; reflexivity).
    rewrite <- Hw in Hp.
    pose proof (@whole_entity_intro rePhoneLocal pre (B "0" ++ d) post st'
                  Phone Hin Hp) as Hout.
    unfold len in Hout at 3. rewrite Hw in Hout. exact Hout.
Qed.

(* ================================================================== *)
(** * Further properties: a candidate that is kept whatever its length *)
(* ================================================================== *)

Lemma chain_In_apart (r : list Entity) (x y : Entity) :
  StronglySorted (fun a b => End a <= Start b) r ->
  In x r -> In y r -> x = y \/ End x <= Start y \/ End y <= Start x.
Proof.
  induction 1 as [|z t Hs IH Hall]; intros Hx Hy; [contradiction|].
  rewrite Forall_forall in Hall.
  destruct Hx as [<-|Hx], Hy as [<-|Hy]; auto.
Qed.

Section UnreachedStart.
Context {sorter : Sorter}.

(** X20. A candidate is kept, however short it is, when no candidate
    that starts before it reaches beyond its start and every other
    candidate that starts at its offset is shorter, or as long and
    unlabeled while it is labeled; and every candidate that starts
    inside it is dropped, however long that one is.  (Candidates with
    non-empty ranges and offsets in range.)  The condition on the
    earlier candidates cannot be left out: a candidate that starts
    inside an earlier one is kept when the earlier one was itself
    dropped. *)
Theorem unreached_candidate_kept (l : list Entity) (a : Entity) :
  Forall positive l -> Forall in_range l -> In a l ->
  (forall c, In c l -> Start c < Start a -> End c <= Start a) ->
  (forall c, In c l -> Start c = Start a ->
     c = a \/ End c < End a \/
     (End c = End a /\ Labeled a = true /\ Labeled c = false)) ->
  In a (resolveOverlaps l) /\
  (forall b, In b l -> Start a < Start b -> Start b < End a ->
             ~ In b (resolveOverlaps l)).
Proof.
  intros Hpos Hrng Ha Hbefore Hbest.
  assert (Hkept : In a (resolveOverlaps l)).
  { destruct (@resolveOverlaps_cover sorter l a Hpos Ha) as (e & He & H1 & H2).
    pose proof (resolveOverlaps_incl _ _ He) as Hel.
    destruct (Z.eq_dec (Start e) (Start a)) as [Heq|Hne].
    - pose proof (@resolveOverlaps_best sorter l e a Hpos Hrng He Ha
                    (eq_sym Heq)) as Hle.
      destruct (Hbest e Hel Heq) as [->|[Hshort|(Hend & Hla & Hle')]];
        [exact He | exfalso | exfalso];
        unfold composite_le, span in Hle;
        destruct Hle as [Hlt|[_ [Hlt|[Hsp Hlab]]]]; try lia.
      rewrite (Hlab Hla) in Hle'. discriminate.
    - exfalso. assert (Hlt : Start e < Start a) by lia.
      specialize (Hbefore e Hel Hlt). lia. }
  split; [exact Hkept|].
  intros b Hb Hab Hin Hbk.
  assert (Hchain : StronglySorted (fun x y => End x <= Start y)
                                  (resolveOverlaps l)).
  { apply resolveOverlaps_chain.
    eapply Forall_impl; [|exact Hpos]. unfold positive. tauto. }
  rewrite Forall_forall in Hpos. destruct (Hpos b Hb) as [_ Hbpos].
  destruct (@chain_In_apart _ a b Hchain Hkept Hbk) as [Heq|[H|H]];
    [subst b; lia | lia | lia].
Qed.

End UnreachedStart.

(** On this text the URL over [[8,33)] is dropped for the e-mail address
    over [[0,12)] it starts in, and the e-mail address over [[27,33)],
    which starts inside the URL, is kept. *)
Example later_start_kept_after_dropped :
  map (fun e => (Type_ e, Start e, End e))
      (@recognize insertion_sorter (B "me@site.http://example.com/x@y.az"))
  = [(Email, 0, 12); (Email, 27, 33)].
Proof. vm_compute. reflexivity. Qed.

(* ================================================================== *)
(** * Further properties: URLs that are found *)
(* ================================================================== *)

Lemma star_max p (w post : bytes) cs : forall i pv,
  forallb p w = true -> stops_before p post ->
  star p Some (w ++ post) i pv cs
  = Some (MState post (i + length w) (last_opt pv w) cs).
Proof.
  induction w as [|c w IH]; intros i pv Hw Hpost; simpl.
  - rewrite Nat.add_0_r. destruct post as [|c t]; [reflexivity|].
    simpl in Hpost. simpl. now rewrite Hpost.
  - simpl in Hw. apply andb_true_iff in Hw. destruct Hw as [Hc Hw].
    rewrite Hc, (IH (S i) (Some c) Hw Hpost).
    now replace (S i + length w)%nat with (i + S (length w))%nat by lia.
Qed.

Lemma reURL_exec pre scheme body post :
  scheme = B "http://" \/ scheme = B "https://" ->
  body <> [] -> forallb url_char body = true -> stops_before url_char post ->
  exists st', exec reURL (st_at pre (scheme ++ body ++ post)) = Some st' /\
              pos st' = (length pre + length (scheme ++ body))%nat.
Proof.
  intros Hsch Hne Hbody Hpost.
  destruct body as [|c body]; [contradiction|].
  simpl in Hbody. apply andb_true_iff in Hbody. destruct Hbody as [Hc Hbody].
  unfold exec, reURL, Plus, st_at.
  destruct Hsch as [-> | ->]; simpl; rewrite Hc;
    rewrite (@star_max url_char body post _ _ _ Hbody Hpost);
    (eexists; split; [reflexivity | simpl; lia]).
Qed.

Lemma url_match_class w : url_match url_char w -> forallb url_char w = true.
Proof.
  intros (scheme & body & [-> | ->] & _ & Hbody & ->); simpl; exact Hbody.
Qed.

(** A URL match holds no byte that the class excludes, so it never
    reaches over one. *)
Lemma url_no_overlap u v post st1 :
  v <> [] -> stops_before url_char (rev (u ++ v)) ->
  exec reURL (st_at u (v ++ post)) = Some st1 ->
  (pos st1 <= length u + length v)%nat.
Proof.
  intros Hv Hl He. apply exec_sound in He.
  destruct (matches_advance _ _ _ He) as (w & Hr & Hp & _).
  apply reURL_shape in He. destruct He as (w0 & Hw0 & Hr0).
  rewrite Hr in Hr0. apply app_inv_tail in Hr0. subst w0.
  apply url_match_class in Hw0. simpl in Hr, Hp. rewrite Hp.
  destruct (le_lt_dec (length w) (length v)) as [|Hlt]; [lia|]. exfalso.
  assert (Hv1 : v = firstn (length v) w)
    by (apply app_prefix_firstn with post (rest st1); [exact Hr | lia]).
  destruct (exists_last Hv) as (v' & c & Hvc).
  rewrite Hvc, app_assoc, rev_app_distr in Hl. simpl in Hl.
  assert (Hin : In c w).
  { rewrite <- (firstn_skipn (length v) w), <- Hv1, Hvc.
    apply in_or_app. left. apply in_or_app. right. now left. }
  rewrite forallb_forall in Hw0. rewrite (Hw0 c Hin) in Hl. discriminate.
Qed.

(** X21. A URL that stands at the start of the text or after a byte
    the pattern's class excludes (a whitespace byte, for one) is always
    found: when [http://] or [https://] is followed by one or more
    bytes of the class, up to the end of the text or the next excluded
    byte, [matchURL] returns the URL entity that starts there, its text
    being those bytes with the trailing bytes of the cutset removed. *)
Theorem url_after_excluded_byte_found (pre scheme body post : bytes) :
  scheme = B "http://" \/ scheme = B "https://" ->
  body <> [] -> forallb url_char body = true ->
  stops_before url_char (rev pre) -> stops_before url_char post ->
  In (mkEntity (TrimRight (scheme ++ body) url_cutset) (len pre)
               (len pre + len (TrimRight (scheme ++ body) url_cutset))
               URL false)
     (matchURL (pre ++ (scheme ++ body) ++ post)).
Proof.
  intros Hsch Hne Hbody Hl Hr.
  destruct (@reURL_exec pre scheme body post Hsch Hne Hbody Hr)
    as (st' & He & Hp).
  rewrite app_assoc in He.
  assert (Hin : In (length pre, st')
                   (allMatches reURL (pre ++ (scheme ++ body) ++ post))).
  { apply allMatches_complete; [exact He | |].
    - rewrite Hp, length_app.
      destruct Hsch as [-> | ->]; simpl; lia.
    - intros u v st1 Hu Hv He1. rewrite Hu, length_app.
      apply (@url_no_overlap u v ((scheme ++ body) ++ post) st1 Hv);
        [now rewrite <- Hu | exact He1]. }
  unfold matchURL, FindAllStringIndex. rewrite map_map.
  apply in_map_iff. exists (length pre, st'). split; [|exact Hin].
  unfold url_entity. simpl fst. simpl snd.
  rewrite Hp, slice_mid. reflexivity.
Qed.

(* ================================================================== *)
(** * The further properties at concrete inputs *)
(* ================================================================== *)

Lemma sample_positive : Forall positive [sample_phone; sample_fin; sample_bare].
Proof.
  repeat constructor; simpl; lia.
Qed.

Lemma sample_apart :
  NoDup [sample_phone; sample_fin] /\
  forall a b, In a [sample_phone; sample_fin] ->
              In b [sample_phone; sample_fin] -> a <> b -> ~ intersects a b.
Proof.
  split.
  - constructor; [simpl; intros [H|[]]; discriminate|].
    constructor; [simpl; tauto | constructor].
  - intros a b [<-|[<-|[]]] [<-|[<-|[]]] Hab (x & H1 & H2);
      try congruence; simpl in *; lia.
Qed.

Lemma sample_text_fits : len (B "FIN: 5ARPXK2") <= int_max.
Proof. unfold len, int_max. simpl. lia. Qed.

Lemma candidate_starts_covered_witness :
  Forall positive [sample_phone; sample_fin; sample_bare] /\
  exists e,
    In e (@resolveOverlaps insertion_sorter
            [sample_phone; sample_fin; sample_bare]) /\
    Start e <= Start sample_bare < End e.
Proof.
  split; [exact sample_positive|].
  apply (proj1 (@candidate_starts_covered insertion_sorter _ [] sample_positive)).
  simpl. auto.
Defined.

Lemma kept_entity_best_at_start_witness :
  Forall positive [sample_phone; sample_fin; sample_bare] /\
  Forall in_range [sample_phone; sample_fin; sample_bare] /\
  len (B "FIN: 5ARPXK2") <= int_max /\
  forall e, In e (@resolveOverlaps insertion_sorter
                    [sample_phone; sample_fin; sample_bare]) ->
            Start sample_fin = Start e ->
            End sample_fin <= End e /\
            (End sample_fin = End e -> Labeled sample_fin = true ->
             Labeled e = true).
Proof.
  split; [exact sample_positive|]. split; [exact sample_in_range|].
  split; [exact sample_text_fits|].
  intros e He.
  apply (proj1 (@kept_entity_best_at_start insertion_sorter _ _
                  sample_positive sample_in_range sample_text_fits) e sample_fin
               He).
  simpl. auto.
Defined.

Lemma resolveOverlaps_idempotent_witness :
  Forall positive [sample_phone; sample_fin; sample_bare] /\
  @resolveOverlaps insertion_sorter
    (@resolveOverlaps insertion_sorter [sample_phone; sample_fin; sample_bare])
  = @resolveOverlaps insertion_sorter [sample_phone; sample_fin; sample_bare].
Proof.
  split; [exact sample_positive|].
  exact (proj1 (@resolveOverlaps_idempotent insertion_sorter _ []
                  sample_positive)).
Defined.

Lemma disjoint_candidates_all_kept_witness :
  NoDup [sample_phone; sample_fin] /\
  Permutation [sample_phone; sample_fin]
              (@resolveOverlaps insertion_sorter [sample_phone; sample_fin]).
Proof.
  split; [exact (proj1 sample_apart)|].
  refine (proj1 (@disjoint_candidates_all_kept insertion_sorter _
                   (proj1 sample_apart) _ (proj2 sample_apart))).
  repeat constructor; simpl; lia.
Defined.

Lemma places_independent_of_sorter_witness :
  Forall in_range [sample_phone; sample_fin; sample_bare] /\
  len (B "FIN: 5ARPXK2") <= int_max /\
  map place (@recognize insertion_sorter (B "FIN: 5ARPXK2"))
  = map place (@recognize backward_sorter (B "FIN: 5ARPXK2")).
Proof.
  split; [exact sample_in_range|]. split; [exact sample_text_fits|].
  exact (proj2 (@places_independent_of_sorter insertion_sorter backward_sorter
                  _ _ sample_in_range sample_text_fits)).
Defined.

Lemma matchIBAN_exact_witness :
  In (mkEntity (B "AZ21NABZ00000000137010001944") 0 28 IBAN false)
     (matchIBAN (B "AZ21NABZ00000000137010001944")) /\
  iban_place (B "AZ21NABZ00000000137010001944")
             (mkEntity (B "AZ21NABZ00000000137010001944") 0 28 IBAN false).
Proof.
  assert (H : In (mkEntity (B "AZ21NABZ00000000137010001944") 0 28 IBAN false)
                 (matchIBAN (B "AZ21NABZ00000000137010001944")))
    by (vm_compute; left; reflexivity).
  split; [exact H | exact (proj1 (matchIBAN_exact _ _) H)].
Defined.

Lemma bare_fin_exact_witness :
  In sample_bare (matchFIN (B "FIN: 5ARPXK2")) /\
  bounded_run fin_class 7 FIN (B "FIN: 5ARPXK2") sample_bare.
Proof.
  assert (H : In sample_bare (matchFIN (B "FIN: 5ARPXK2")))
    by (vm_compute; right; left; reflexivity).
  split; [exact H | exact (proj1 (bare_fin_exact _ _) (conj H eq_refl))].
Defined.

Lemma bare_voen_exact_witness :
  In (mkEntity (B "1234567890") 0 10 VOEN false) (matchVOEN (B "1234567890")) /\
  bounded_run is_digit 10 VOEN (B "1234567890")
              (mkEntity (B "1234567890") 0 10 VOEN false).
Proof.
  assert (H : In (mkEntity (B "1234567890") 0 10 VOEN false)
                 (matchVOEN (B "1234567890")))
    by (vm_compute; left; reflexivity).
  split; [exact H | exact (proj1 (bare_voen_exact _ _) (conj H eq_refl))].
Defined.

Lemma labeled_voen_exact_witness :
  In (mkEntity (B "1234567890") 6 16 VOEN true)
     (matchVOEN (B "VOEN: 1234567890")).
Proof.
  refine (proj1 (proj2 (labeled_voen_exact (B "VOEN: 1234567890") _) _)).
  exists [], (B "VOEN"), (B ": "), (B "1234567890"), [].
  repeat split; reflexivity.
Defined.

Lemma matchLicensePlate_exact_witness :
  In (mkEntity (B "10-AA-123") 6 15 LicensePlate false)
     (matchLicensePlate (B "plate 10-AA-123.")).
Proof.
  apply (proj2 (matchLicensePlate_exact _ _)).
  exists (B "plate "), (B "10-AA-123"), (B ".").
  split; [reflexivity|].
  split; [exists (B "10"), (B "AA"), (B "123"); repeat split; reflexivity|].
  repeat split; reflexivity.
Defined.

Lemma matchEmail_shape_witness :
  In (mkEntity (B "info@gov.az") 0 11 Email false) (matchEmail (B "info@gov.az")) /\
  email_place (B "info@gov.az") (mkEntity (B "info@gov.az") 0 11 Email false).
Proof.
  assert (H : In (mkEntity (B "info@gov.az") 0 11 Email false)
                 (matchEmail (B "info@gov.az")))
    by (vm_compute; left; reflexivity).
  split; [exact H | exact (matchEmail_shape _ _ H)].
Defined.

Lemma matchPhone_shape_witness :
  In (mkEntity (B "+994 50 123 45 67") 4 21 Phone false)
     (matchPhone (B "tel +994 50 123 45 67")) /\
  phone_place (B "tel +994 50 123 45 67")
              (mkEntity (B "+994 50 123 45 67") 4 21 Phone false).
Proof.
  assert (H : In (mkEntity (B "+994 50 123 45 67") 4 21 Phone false)
                 (matchPhone (B "tel +994 50 123 45 67")))
    by (vm_compute; left; reflexivity).
  split; [exact H | exact (matchPhone_shape _ _ H)].
Defined.

Lemma matchURL_extent_witness :
  In sample_url (matchURL (B "see http://gov.az.")) /\
  url_place (B "see http://gov.az.") sample_url.
Proof.
  assert (H : In sample_url (matchURL (B "see http://gov.az.")))
    by (vm_compute; left; reflexivity).
  split; [exact H | exact (proj1 (@matchURL_extent insertion_sorter _) _ H)].
Defined.

Lemma recognize_entity_origin_witness :
  In sample_fin (@recognize insertion_sorter (B "FIN: 5ARPXK2")) /\
  In sample_fin (matchFIN (B "FIN: 5ARPXK2")).
Proof.
  assert (H : In sample_fin (@recognize insertion_sorter (B "FIN: 5ARPXK2")))
    by (vm_compute; left; reflexivity).
  split; [exact H|].
  exact (proj1 (@recognize_entity_origin insertion_sorter _ _ H)).
Defined.

Lemma entity_length_by_type_witness :
  In sample_fin (@recognize insertion_sorter (B "FIN: 5ARPXK2")) /\
  span_within FIN (End sample_fin - Start sample_fin).
Proof.
  assert (H : In sample_fin (@recognize insertion_sorter (B "FIN: 5ARPXK2")))
    by (vm_compute; left; reflexivity).
  split; [exact H|].
  exact (proj1 (@entity_length_by_type insertion_sorter _ _ H)).
Defined.

Lemma plain_phone_numbers_found_witness :
  In (mkEntity (B "+994501234567") 4 17 Phone false)
     (matchPhone (B "tel +9945012345678")) /\
  In (mkEntity (B "0551234567") 4 14 Phone false)
     (matchPhone (B "tel 0551234567.")).
Proof.
  split.
  - exact (proj1 (@plain_phone_numbers_found (B "tel ") (B "501234567") (B "8")
                    eq_refl eq_refl)).
  - exact (proj2 (@plain_phone_numbers_found (B "tel ") (B "551234567") (B ".")
                    eq_refl eq_refl) eq_refl eq_refl).
Defined.

Lemma sample_mail_url :
  Forall positive [mkEntity (B "http://example.com/long/path") 8 36 URL false;
                   mkEntity (B "me@site.http") 0 12 Email false] /\
  Forall in_range [mkEntity (B "http://example.com/long/path") 8 36 URL false;
                   mkEntity (B "me@site.http") 0 12 Email false].
Proof.
  split; repeat constructor; unfold int_max; simpl; lia.
Qed.

Lemma unreached_candidate_kept_witness :
  candidates (B "me@site.http://example.com/long/path")
  = [mkEntity (B "http://example.com/long/path") 8 36 URL false;
     mkEntity (B "me@site.http") 0 12 Email false] /\
  In (mkEntity (B "me@site.http") 0 12 Email false)
     (@resolveOverlaps insertion_sorter
        (candidates (B "me@site.http://example.com/long/path"))) /\
  ~ In (mkEntity (B "http://example.com/long/path") 8 36 URL false)
       (@resolveOverlaps insertion_sorter
          (candidates (B "me@site.http://example.com/long/path"))).
Proof.
  assert (Hc : candidates (B "me@site.http://example.com/long/path")
               = [mkEntity (B "http://example.com/long/path") 8 36 URL false;
                  mkEntity (B "me@site.http") 0 12 Email false])
    by (vm_compute; reflexivity).
  split; [exact Hc|]. rewrite Hc.
  destruct (@unreached_candidate_kept insertion_sorter _
              (mkEntity (B "me@site.http") 0 12 Email false)
              (proj1 sample_mail_url) (proj2 sample_mail_url))
    as [Hk Hd].
  - simpl. auto.
  - intros c [<-|[<-|[]]]; simpl; lia.
  - intros c [<-|[<-|[]]]; simpl; intros; [lia | now left].
  - split; [exact Hk|]. apply Hd; simpl; [auto | lia | lia].
Defined.

Lemma url_after_excluded_byte_found_witness :
  In sample_url (matchURL (B "see http://gov.az.")).
Proof.
  refine (@url_after_excluded_byte_found (B "see ") (B "http://") (B "gov.az.") []
            _ _ _ _ _); try reflexivity; try discriminate.
  now left.
Defined.
